(** * PDF-to-Markdown plugin (src/main.ts): a shallow embedding and its properties

    The development follows the source file top to bottom:
    - [JsString]: the JavaScript string and regular-expression operations the
      plugin calls ([trim], [endsWith], [String.prototype.replace] with its
      replacement patterns, a backtracking matcher for the regular
      expressions that occur in the source);
    - [Plugin]: the plugin's methods over an explicit world (vault, heap of
      OCR responses, log of observable events), in an error monad;
    - [Batch]: the worker pool of [PDFSelectionModal.onOpen] as a transition
      system over the shared queue and counters;
    - [Spec] and [Examples]: the notions the statements use and the concrete
      inputs of the examples; then the properties of the methods and the
      claims C1 to C10.

    Strings are byte strings holding the UTF-8 form of the JavaScript string.
    The characters the source names are ASCII, so literals and the classes
    that name characters are matched byte by byte; white space ([\s],
    [trim]), the line terminators that [.] excludes and the count of code
    units of [substring] reach outside ASCII and are read off the bytes of
    the characters concerned. *)

From Stdlib Require Import ZArith Ascii String List Lia Bool.
From stdpp Require Import gmap strings list sorting pretty.

Local Open Scope char_scope.
Local Open Scope stdpp_scope.

(* ===================================================================== *)
(** ** JavaScript strings                                                 *)
(* ===================================================================== *)

Module JsString.

(** The first [n] bytes of [s]. *)
Fixpoint takeS (n : nat) (s : string) : string :=
  match n, s with
  | S k, String c s' => String c (takeS k s')
  | _, _ => EmptyString
  end.

Definition byte (n : nat) : ascii := ascii_of_nat n.

(** The high surrogate of the character held in the four bytes that start
    with [c1 c2 c3], in the three bytes that a code unit of its size takes. *)
Definition high_surrogate (c1 c2 c3 : ascii) : string :=
  let top := ((N_of_ascii c1 mod 8) * 256 + (N_of_ascii c2 mod 64) * 4
              + (N_of_ascii c3 mod 64) / 16)%N in
  let hs := (55296 + (top - 64))%N in
  String (byte 237)
    (String (ascii_of_N (128 + (hs / 64) mod 64))
       (String (ascii_of_N (128 + hs mod 64)) EmptyString)).

(** [s.substring(0, n)]: the first [n] UTF-16 code units of [s]. A character
    of up to three bytes is one code unit; a character of four bytes is two,
    and cut in the middle it leaves its high surrogate. *)
Fixpoint substring_to (n : nat) (s : string) : string :=
  match n, s with
  | O, _ => EmptyString
  | _, EmptyString => EmptyString
  | S k, String c1 s1 =>
      let n1 := nat_of_ascii c1 in
      if (n1 <? 192)%nat then String c1 (substring_to k s1)
      else if (n1 <? 224)%nat then
        match s1 with
        | String c2 s2 => String c1 (String c2 (substring_to k s2))
        | EmptyString => s
        end
      else if (n1 <? 240)%nat then
        match s1 with
        | String c2 (String c3 s3) =>
            String c1 (String c2 (String c3 (substring_to k s3)))
        | _ => s
        end
      else
        match s1 with
        | String c2 (String c3 (String c4 s4)) =>
            match k with
            | O => high_surrogate c1 c2 c3
            | S k' =>
                String c1 (String c2 (String c3 (String c4 (substring_to k' s4))))
            end
        | _ => s
        end
  end.

(** The text of [s] consumed by a match that left [rest] unread. *)
Definition consumed (s rest : string) : string :=
  takeS (String.length s - String.length rest) s.

(** [s.startsWith(p)], returning what follows the prefix. *)
Fixpoint strip_prefix (p s : string) : option string :=
  match p with
  | EmptyString => Some s
  | String a p' =>
      match s with
      | String b s' => if Ascii.eqb a b then strip_prefix p' s' else None
      | EmptyString => None
      end
  end.

(** [s.endsWith(suffix)]. *)
Fixpoint endsWith (s suffix : string) : bool :=
  if String.eqb s suffix then true
  else match s with
       | EmptyString => false
       | String _ s' => endsWith s' suffix
       end.

(** Canonicalize of a case-insensitive match without the [u] flag: upper case
    of the letters a-z; a character outside ASCII never maps to ASCII. *)
Definition upper (c : ascii) : ascii :=
  let n := nat_of_ascii c in
  if (97 <=? n)%nat && (n <=? 122)%nat then ascii_of_nat (n - 32) else c.

Fixpoint strip_prefix_ci (p s : string) : option string :=
  match p with
  | EmptyString => Some s
  | String a p' =>
      match s with
      | String b s' =>
          if Ascii.eqb (upper a) (upper b) then strip_prefix_ci p' s' else None
      | EmptyString => None
      end
  end.

(** *** White space

    WhiteSpace and LineTerminator of the language definition: the
    characters that [\s] matches and that [trim] removes. In UTF-8 they are
    one, two or three bytes long. *)

(** TAB, LF, VT, FF, CR and SP. *)
Definition ws1 (c : ascii) : bool :=
  match c with
  | "009" | "010" | "011" | "012" | "013" | " " => true
  | _ => false
  end%char.

(** U+00A0. *)
Definition ws2 (c1 c2 : ascii) : bool :=
  Ascii.eqb c1 (byte 194) && Ascii.eqb c2 (byte 160).

(** U+1680, U+2000 to U+200A, U+2028, U+2029, U+202F, U+205F, U+3000 and
    U+FEFF. *)
Definition ws3 (c1 c2 c3 : ascii) : bool :=
  (Ascii.eqb c1 (byte 225) && Ascii.eqb c2 (byte 154) && Ascii.eqb c3 (byte 128))
  || (Ascii.eqb c1 (byte 226) && Ascii.eqb c2 (byte 128)
      && (((128 <=? nat_of_ascii c3)%nat && (nat_of_ascii c3 <=? 138)%nat)
          || Ascii.eqb c3 (byte 168) || Ascii.eqb c3 (byte 169)
          || Ascii.eqb c3 (byte 175)))
  || (Ascii.eqb c1 (byte 226) && Ascii.eqb c2 (byte 129) && Ascii.eqb c3 (byte 159))
  || (Ascii.eqb c1 (byte 227) && Ascii.eqb c2 (byte 128) && Ascii.eqb c3 (byte 128))
  || (Ascii.eqb c1 (byte 239) && Ascii.eqb c2 (byte 187) && Ascii.eqb c3 (byte 191)).

(** What follows the white space character at the head of [s], if there is
    one. *)
Definition white_space (s : string) : option string :=
  match s with
  | String c1 s1 =>
      if ws1 c1 then Some s1
      else
        match s1 with
        | String c2 s2 =>
            if ws2 c1 c2 then Some s2
            else
              match s2 with
              | String c3 s3 => if ws3 c1 c2 c3 then Some s3 else None
              | EmptyString => None
              end
        | EmptyString => None
        end
  | EmptyString => None
  end.

(** The byte [c] begins a character: it is none of the bytes 128 to 191,
    which continue one. *)
Definition starts_char (c : ascii) : bool :=
  negb ((128 <=? nat_of_ascii c)%nat && (nat_of_ascii c <? 192)%nat).

(** The text [s] is empty or begins with such a byte. *)
Definition at_char (s : string) : Prop :=
  match s with String c _ => starts_char c = true | EmptyString => True end.

(** [s.trimStart()]: the white space characters at the head are removed. *)
Fixpoint trimStart (s : string) : string :=
  match s with
  | String c1 s1 =>
      if ws1 c1 then trimStart s1
      else
        match s1 with
        | String c2 s2 =>
            if ws2 c1 c2 then trimStart s2
            else
              match s2 with
              | String c3 s3 => if ws3 c1 c2 c3 then trimStart s3 else s
              | EmptyString => s
              end
        | EmptyString => s
        end
  | EmptyString => EmptyString
  end.

(** Whether [s] is made of white space characters only. *)
Fixpoint all_ws (s : string) : bool :=
  match s with
  | String c1 s1 =>
      if ws1 c1 then all_ws s1
      else
        match s1 with
        | String c2 s2 =>
            if ws2 c1 c2 then all_ws s2
            else
              match s2 with
              | String c3 s3 => if ws3 c1 c2 c3 then all_ws s3 else false
              | EmptyString => false
              end
        | EmptyString => false
        end
  | EmptyString => true
  end.

(** [s.trimEnd()]: the text is cut where only white space follows. *)
Fixpoint trimEnd (s : string) : string :=
  if all_ws s then EmptyString
  else
    match s with
    | String c s' => String c (trimEnd s')
    | EmptyString => EmptyString
    end.

(** [s.trim()]. *)
Definition trim (s : string) : string := trimEnd (trimStart s).

(** *** Character classes

    A class that names characters is a test of one byte. The class of [.]
    (without the [s] flag) excludes the line terminators LF, CR, U+2028 and
    U+2029: it is a test of the input at the position of the character. *)
(** LF and CR, the line terminators of one byte. *)
Definition is_line_terminator (c : ascii) : bool :=
  match c with "010" | "013" => true | _ => false end%char.

(** A line terminator stands at the head of [s]. *)
Definition line_end (s : string) : bool :=
  match s with
  | String c1 s1 =>
      is_line_terminator c1
      || match s1 with
         | String c2 (String c3 _) =>
             Ascii.eqb c1 (byte 226) && Ascii.eqb c2 (byte 128)
             && (Ascii.eqb c3 (byte 168) || Ascii.eqb c3 (byte 169))
         | _ => false
         end
  | EmptyString => false
  end.

Definition dot (s : string) : bool := negb (line_end s).
Definition any_char (_ : ascii) : bool := true.
Definition not_rbracket (c : ascii) : bool := negb (Ascii.eqb c "]").

(** [parts.join(sep)]. *)
Fixpoint join (sep : string) (parts : list string) : string :=
  match parts with
  | [] => EmptyString
  | [p] => p
  | p :: ps => p +:+ sep +:+ join sep ps
  end.

(** *** Regular expressions

    A pattern is a sequence of atoms; this covers the patterns of the source,
    whose stars all range over one character class. The matcher is the
    backtracking matcher of the language definition: a greedy star tries the
    longest run first, a lazy star the shortest, alternatives are tried left
    to right. *)
Inductive atom : Type :=
| Lit (s : string)               (* literal characters *)
| AltCI (alts : list string)     (* (a|b), case-insensitive *)
| One (p : ascii -> bool)        (* one character of a class *)
| Greedy (p : ascii -> bool)     (* class* *)
| Lazy (p : ascii -> bool)       (* class*? *)
| OneAt (p : string -> bool)     (* one character, tested at its position *)
| GreedyAt (p : string -> bool)  (* the same, starred *)
| LazyAt (p : string -> bool)    (* the same, lazily starred *)
| Spaces                         (* \s* *)
| Mark                           (* boundary of a capture group *)
| Eos.                           (* $ without the m flag *)

Definition regex : Type := list atom.

(** A successful match returns the input left at each [Mark], then the input
    left at the end of the match. *)
Definition cont : Type := string -> option (list string).

Fixpoint greedy_star (p : ascii -> bool) (k : cont) (s : string)
  : option (list string) :=
  match s with
  | String c s' =>
      if p c then
        match greedy_star p k s' with
        | Some r => Some r
        | None => k s
        end
      else k s
  | EmptyString => k s
  end.

Fixpoint lazy_star (p : ascii -> bool) (k : cont) (s : string)
  : option (list string) :=
  match k s with
  | Some r => Some r
  | None =>
      match s with
      | String c s' => if p c then lazy_star p k s' else None
      | EmptyString => None
      end
  end.

Fixpoint greedy_at (p : string -> bool) (k : cont) (s : string)
  : option (list string) :=
  match s with
  | String c s' =>
      if p s then
        match greedy_at p k s' with
        | Some r => Some r
        | None => k s
        end
      else k s
  | EmptyString => k s
  end.

Fixpoint lazy_at (p : string -> bool) (k : cont) (s : string)
  : option (list string) :=
  match k s with
  | Some r => Some r
  | None =>
      match s with
      | String c s' => if p s then lazy_at p k s' else None
      | EmptyString => None
      end
  end.

(** [\s*]: as many white space characters as possible, then fewer. *)
Fixpoint greedy_ws (k : cont) (s : string) : option (list string) :=
  match s with
  | String c1 s1 =>
      if ws1 c1 then
        match greedy_ws k s1 with Some r => Some r | None => k s end
      else
        match s1 with
        | String c2 s2 =>
            if ws2 c1 c2 then
              match greedy_ws k s2 with Some r => Some r | None => k s end
            else
              match s2 with
              | String c3 s3 =>
                  if ws3 c1 c2 c3 then
                    match greedy_ws k s3 with Some r => Some r | None => k s end
                  else k s
              | EmptyString => k s
              end
        | EmptyString => k s
        end
  | EmptyString => k s
  end.

Fixpoint first_alt (alts : list string) (k : cont) (s : string)
  : option (list string) :=
  match alts with
  | [] => None
  | a :: alts' =>
      match strip_prefix_ci a s with
      | Some s' =>
          match k s' with
          | Some r => Some r
          | None => first_alt alts' k s
          end
      | None => first_alt alts' k s
      end
  end.

Fixpoint exec_here (r : regex) (s : string) : option (list string) :=
  match r with
  | [] => Some [s]
  | Lit l :: r' =>
      match strip_prefix l s with
      | Some s' => exec_here r' s'
      | None => None
      end
  | AltCI alts :: r' => first_alt alts (exec_here r') s
  | One p :: r' =>
      match s with
      | String c s' => if p c then exec_here r' s' else None
      | EmptyString => None
      end
  | Greedy p :: r' => greedy_star p (exec_here r') s
  | Lazy p :: r' => lazy_star p (exec_here r') s
  | OneAt p :: r' =>
      match s with
      | String c s' => if p s then exec_here r' s' else None
      | EmptyString => None
      end
  | GreedyAt p :: r' => greedy_at p (exec_here r') s
  | LazyAt p :: r' => lazy_at p (exec_here r') s
  | Spaces :: r' => greedy_ws (exec_here r') s
  | Mark :: r' => option_map (cons s) (exec_here r' s)
  | Eos :: r' =>
      match s with
      | EmptyString => exec_here r' s
      | String _ _ => None
      end
  end.

(** What a match at the current position consumed, given the marks. *)
Definition match_rest (marks : list string) : string := List.last marks EmptyString.

(** Capture group 1 of a pattern with one group: the text between the two
    marks. *)
Definition group1 (marks : list string) : string :=
  match marks with
  | a :: b :: _ => consumed a b
  | _ => EmptyString
  end.

(** *** Replacement patterns

    GetSubstitution for a match without capture groups: [$$] is a dollar
    sign, [$&] the matched text, [$`] the text before the match and [$']
    the text after it; any other dollar sign stands for itself. *)
Fixpoint GetSubstitution (matched before after template : string) : string :=
  match template with
  | EmptyString => EmptyString
  | String "$" (String c rest as t1) =>
      if Ascii.eqb c "$" then String "$" (GetSubstitution matched before after rest)
      else if Ascii.eqb c "&" then matched +:+ GetSubstitution matched before after rest
      else if Ascii.eqb c "`" then before +:+ GetSubstitution matched before after rest
      else if Ascii.eqb c "'" then after +:+ GetSubstitution matched before after rest
      else String "$" (GetSubstitution matched before after t1)
  | String c rest => String c (GetSubstitution matched before after rest)
  end.

(** [s.replace(re, f)] for a pattern with the [g] flag: the matches are found
    from left to right, each search resuming where the previous match ended
    (one code unit further after an empty match); [f matched before after]
    is the text put in place of a match. [before] is the input read so far,
    [skip] the number of code units of [s] that belong to the last match. *)
Fixpoint replace_go (r : regex) (f : string -> string -> string -> string)
    (before s : string) (skip : nat) : string :=
  match s with
  | EmptyString =>
      match skip, exec_here r s with
      | O, Some _ => f EmptyString before EmptyString
      | _, _ => EmptyString
      end
  | String c s' =>
      match skip with
      | S k => replace_go r f (before +:+ String c EmptyString) s' k
      | O =>
          match exec_here r s with
          | Some marks =>
              let rest := match_rest marks in
              match String.length s - String.length rest with
              | O => f EmptyString before s
                     +:+ String c (replace_go r f (before +:+ String c EmptyString) s' 0)
              | S k => f (consumed s rest) before rest
                       +:+ replace_go r f (before +:+ String c EmptyString) s' k
              end
          | None => String c (replace_go r f (before +:+ String c EmptyString) s' 0)
          end
      end
  end.

Definition replaceAllBy (r : regex) (f : string -> string -> string -> string)
    (s : string) : string :=
  replace_go r f EmptyString s 0.

(** [s.replace(re, template)] with the [g] flag and a pattern without
    capture groups. *)
Definition replaceAll (r : regex) (template s : string) : string :=
  replaceAllBy r (fun m b a => GetSubstitution m b a template) s.

(** [s.indexOf(needle)] as the split of [s] around the first occurrence. *)
Fixpoint split_first (needle : string) (before s : string)
  : option (string * string) :=
  match strip_prefix needle s with
  | Some after => Some (before, after)
  | None =>
      match s with
      | EmptyString => None
      | String c s' => split_first needle (before +:+ String c EmptyString) s'
      end
  end.

(** [s.replace(pattern, template)] with a string pattern: only the first
    occurrence is replaced, and the template is still expanded. *)
Definition replaceString (pattern template s : string) : string :=
  match split_first pattern EmptyString s with
  | Some (before, after) =>
      before +:+ GetSubstitution pattern before after template +:+ after
  | None => s
  end.

(** [s.replace(re, '')] without the [g] flag: the leftmost match is removed. *)
Fixpoint removeFirst (r : regex) (s : string) : string :=
  match exec_here r s with
  | Some marks => match_rest marks
  | None =>
      match s with
      | EmptyString => EmptyString
      | String c s' => String c (removeFirst r s')
      end
  end.

(** [[...s.matchAll(re)]]: every match from left to right, as the matched
    text with its marks. *)
Fixpoint matchAll_go (r : regex) (s : string) (skip : nat)
  : list (string * list string) :=
  match s with
  | EmptyString =>
      match skip, exec_here r s with
      | O, Some marks => [(EmptyString, marks)]
      | _, _ => []
      end
  | String c s' =>
      match skip with
      | S k => matchAll_go r s' k
      | O =>
          match exec_here r s with
          | Some marks =>
              let n := String.length s - String.length (match_rest marks) in
              (takeS n s, marks) :: matchAll_go r s' (Nat.pred n)
          | None => matchAll_go r s' 0
          end
      end
  end.

Definition matchAll (r : regex) (s : string) : list (string * list string) :=
  matchAll_go r s 0.

End JsString.

Import JsString.

(* ===================================================================== *)
(** ** The plugin                                                         *)
(* ===================================================================== *)

Module Plugin.

(** *** Data *)

(** [pages[].images[]] of an OCR response; [imageBase64] may be missing. *)
Record Image : Type := { id : string; imageBase64 : option string }.

Record Page : Type := {
  index : Z;
  markdown : option string;
  images : option (list Image) }.

(** [pages] is [None] when the field is missing or not an array. *)
Record OcrResult : Type := { pages : option (list Page) }.

Record SummaryPromptItem : Type := { keyComment : string; prompt : string }.

Record PDFToMarkdownSettings : Type := {
  markdownOutputFolder : string;
  imagesOutputFolder : string;
  imagesFolderName : string;
  mistralApiKey : string;
  parallelProcessingLimit : nat;
  summaryPrompts : list SummaryPromptItem }.

Record TFile : Type := { path : string; name : string; basename : string }.

(** What the text generator resolves to; the source reads
    [result?.text ?? result?.content ?? result ?? '']. *)
Inductive GenResult : Type :=
| GenNull
| GenString (s : string)
| GenObject (text content : option string).

(** *** World, events and the monad *)

Inductive Entry : Type := File (data : string) | Folder.

Inductive Event : Type :=
| Notice (msg : string)
| ConsoleWarn (msg : string)
| ConsoleError (msg : string)
| Upload (fileName content : string)
| SignedUrl (fileId : string)
| OcrProcess (url : string)
| Generate (promptText : string)
| CreateFolder (p : string)
| WriteBinary (p data : string)
| Create (p data : string)
| Modify (p data : string).

(** The vault maps a path to what is stored there; the heap holds the OCR
    response objects, which the code passes by reference; the log lists the
    observable events, oldest first. *)
Record World : Type := {
  vault : gmap string Entry;
  heap : list OcrResult;
  log : list Event }.

Inductive Exn : Type := Error (msg : string).

Inductive Result (A : Type) : Type :=
| Ok (a : A)
| Throw (e : Exn).
Arguments Ok {A} a.
Arguments Throw {A} e.

Definition M (A : Type) : Type := World -> Result A * World.

Definition ret {A} (a : A) : M A := fun w => (Ok a, w).
Definition throw {A} (e : Exn) : M A := fun w => (Throw e, w).
Definition bind {A B} (m : M A) (k : A -> M B) : M B :=
  fun w => match m w with
           | (Ok a, w') => k a w'
           | (Throw e, w') => (Throw e, w')
           end.
Definition try_catch {A} (m : M A) (handler : Exn -> M A) : M A :=
  fun w => match m w with
           | (Ok a, w') => (Ok a, w')
           | (Throw e, w') => handler e w'
           end.

Notation "'let*' x ':=' m 'in' k" := (bind m (fun x => k))
  (at level 10, x name, m at level 100, k at level 200).
Notation "m1 '>>' m2" := (bind m1 (fun _ => m2))
  (at level 100, m2 at level 200, right associativity).

Definition emit (e : Event) : M unit :=
  fun w => (Ok tt, {| vault := vault w; heap := heap w; log := log w ++ [e] |}).
Definition get_world : M World := fun w => (Ok w, w).
Definition set_vault (v : gmap string Entry) : M unit :=
  fun w => (Ok tt, {| vault := v; heap := heap w; log := log w |}).
Definition set_heap (h : list OcrResult) : M unit :=
  fun w => (Ok tt, {| vault := vault w; heap := h; log := log w |}).
(** Resolve or reject as an external call did. *)
Definition lift {A} (r : Result A) : M A := fun w => (r, w).

Fixpoint for_each {A S} (l : list A) (body : S -> A -> M S) (acc : S) : M S :=
  match l with
  | [] => ret acc
  | x :: l' => let* acc' := body acc x in for_each l' body acc'
  end.

(** The double quote character inside a message. *)
Definition dq : string := String (ascii_of_nat 34) EmptyString.

(** *** The storage collaborator

    Obsidian's vault API is a library outside the sources. Section 6 of the
    specification lists its operations, section 1 calls the storage
    file-system-like and section 4.1 has it create intermediate folders as
    needed. Creating over an existing path is rejected, writing replaces.
    Paths are taken as they are written: the storage is not asked to
    normalise them, and the specification names no other failure. *)

(** The folders above a path: what stands before each of its slashes, the
    root (before a leading slash) apart. *)
Fixpoint ancestors_go (before s : string) : list string :=
  match s with
  | EmptyString => []
  | String c s' =>
      (if Ascii.eqb c "/" && negb (String.eqb before "") then [before] else [])
      ++ ancestors_go (before +:+ String c EmptyString) s'
  end.

Definition ancestors (p : string) : list string := ancestors_go "" p.

(** Modelled from the spec: the intermediate folders created as needed, that
    is those of [ps] that hold nothing yet. *)
Definition with_folders (ps : list string) (v : gmap string Entry)
  : gmap string Entry :=
  foldr (fun q v => match v !! q with Some _ => v | None => <[q := Folder]> v end)
        v ps.

(** Modelled from the spec: [getByPath(path) -> handle|null], the vault's
    [getAbstractFileByPath]. *)
Definition getAbstractFileByPath (p : string) : M (option Entry) :=
  fun w => (Ok (vault w !! p), w).

(** Modelled from the spec: [exists(path) -> bool], the adapter's [exists]. *)
Definition adapter_exists (p : string) : M bool :=
  fun w => (Ok (bool_decide (is_Some (vault w !! p))), w).

(** Modelled from the spec: [createFolder(path)]; a folder that exists is a
    duplicate-folder error; the folders above the new one are created as
    needed. *)
Definition createFolder (p : string) : M unit :=
  let* w := get_world in
  match vault w !! p with
  | Some _ => throw (Error "Folder already exists.")
  | None =>
      set_vault (<[p := Folder]> (with_folders (ancestors p) (vault w))) >>
      emit (CreateFolder p)
  end.

(** Modelled from the spec: [writeBinary(path, bytes)], the adapter's
    [writeBinary]: the file is written at the path, the folders above it
    being created as needed. The specification names no failure of a
    write: what the path held is replaced. *)
Definition adapter_writeBinary (p data : string) : M unit :=
  let* w := get_world in
  set_vault (<[p := File data]> (with_folders (ancestors p) (vault w))) >>
  emit (WriteBinary p data).

(** Modelled from the spec: [create(path, text)]; it fails when the path is
    taken. *)
Definition vault_create (p data : string) : M unit :=
  let* w := get_world in
  match vault w !! p with
  | Some _ => throw (Error "File already exists.")
  | None => set_vault (<[p := File data]> (vault w)) >> emit (Create p data)
  end.

(** Modelled from the spec: [modify(path, text)]. *)
Definition vault_modify (f : TFile) (data : string) : M unit :=
  let* w := get_world in
  set_vault (<[path f := File data]> (vault w)) >> emit (Modify (path f) data).

(** Modelled from the spec: [read] and [readBinary(path) -> bytes]. *)
Definition vault_read (f : TFile) : M string :=
  let* w := get_world in
  match vault w !! path f with
  | Some (File data) => ret data
  | _ => throw (Error "File not found.")
  end.

(** *** The remote collaborators

    The Mistral client, the Text Generator plugin, [Buffer.from(_, 'base64')]
    and the vault's file listing are libraries outside the sources; they are
    parameters. A remote call may answer differently each time: it sees the
    world, log included. *)
Record Services : Type := {
  decodeBase64 : string -> string;
  files_upload : World -> string -> string -> Result string;
  files_getSignedUrl : World -> string -> Result string;
  ocr_process : World -> string -> Result OcrResult;
  textGenerator : option (World -> string -> Result GenResult);
  getFiles : World -> list TFile;
  getActiveFile : World -> option TFile }.

Section Methods.

Variable svc : Services.
Variable settings : PDFToMarkdownSettings.

(** **** combineMarkdownWithImages and saveBase64Image *)

(** [/^data:image\/jpeg;base64,(.+)/] *)
Definition jpegDataUri : regex :=
  [Lit "data:image/jpeg;base64,"; Mark; OneAt dot; GreedyAt dot; Mark].

Definition saveBase64Image (base64 filePath : string) : M unit :=
  match exec_here jpegDataUri base64 with
  | None =>
      emit (ConsoleError ("Invalid Base64 image format (prefix missing or wrong type): "
                          +:+ substring_to 50 base64))
  | Some marks =>
      adapter_writeBinary filePath (decodeBase64 svc (group1 marks))
  end.

(** [Array.prototype.sort] with the comparator [a.index - b.index]: the sort
    is stable, so its result is the one of a stable insertion sort. *)
Fixpoint insert_page (p : Page) (l : list Page) : list Page :=
  match l with
  | [] => [p]
  | q :: l' =>
      if (index q <? index p)%Z then q :: insert_page p l' else p :: q :: l'
  end.

Fixpoint sort_pages (l : list Page) : list Page :=
  match l with
  | [] => []
  | p :: l' => insert_page p (sort_pages l')
  end.

(** [/\.(jpg|jpeg)$/i] *)
Definition jpegExtension : regex := [Lit "."; AltCI ["jpg"; "jpeg"]; Eos].

(** [/[.*+?^${}()|[\]\\]/g] *)
Definition is_syntax_char (c : ascii) : bool :=
  match c with
  | "." | "*" | "+" | "?" | "^" | "$" | "{" | "}" | "(" | ")" | "|" | "["
  | "]" | "\" => true
  | _ => false
  end%char.

Definition escapeRegExp (s : string) : string :=
  replaceAll [One is_syntax_char] "\$&" s.

(** The pattern text that [escapeRegExp] produced, read by the [RegExp]
    constructor: a backslash makes the next character literal. *)
Fixpoint parseEscaped (s : string) : string :=
  match s with
  | String "\" (String c s') => String c (parseEscaped s')
  | String c s' => String c (parseEscaped s')
  | EmptyString => EmptyString
  end.

(** [new RegExp(`\\!\\[[^\\]]*\\]\\((?:.*?)${escapedOriginalId}(?:.*?)\\)`, 'g')] *)
Definition imageReference (escapedOriginalId : string) : regex :=
  [Lit "!["; Greedy not_rbracket; Lit "]("; LazyAt dot;
   Lit (parseEscaped escapedOriginalId); LazyAt dot; Lit ")"].

(** [imageFilePath.replace(/\\/g, '/')] *)
Definition forwardSlashes (p : string) : string := replaceAll [Lit "\"] "/" p.

(** [!base64 || base64.endsWith("...")] *)
Definition is_placeholder (base64 : option string) : bool :=
  match base64 with
  | None => true
  | Some b => String.eqb b "" || endsWith b "..."
  end.

Definition imageFilePathOf (pdfBaseName finalImagesPath originalId : string) : string :=
  let trimmedId := removeFirst jpegExtension originalId in
  let imageFileName := pdfBaseName +:+ "_" +:+ trimmedId +:+ ".jpeg" in
  finalImagesPath +:+ "/" +:+ imageFileName.

(** The body of the loop over a page's images. *)
Definition combineImage (pdfBaseName finalImagesPath : string)
    (md : string) (imgObj : Image) : M string :=
  let originalId := id imgObj in
  if is_placeholder (imageBase64 imgObj) then
    emit (ConsoleWarn ("Skipping empty or placeholder image: " +:+ originalId)) >>
    ret md
  else
    let base64 := default "" (imageBase64 imgObj) in
    let imageFilePath := imageFilePathOf pdfBaseName finalImagesPath originalId in
    saveBase64Image base64 imageFilePath >>
    let escapedOriginalId := escapeRegExp originalId in
    let regex := imageReference escapedOriginalId in
    let obsidianLink := "![[" +:+ forwardSlashes imageFilePath +:+ "]]" in
    ret (replaceAll regex obsidianLink md).

(** The body of the loop over the sorted pages. *)
Definition combinePage (pdfBaseName finalImagesPath : string)
    (combinedMarkdown : string) (page : Page) : M string :=
  let* md := for_each (default [] (images page))
               (combineImage pdfBaseName finalImagesPath)
               (default "" (markdown page)) in
  ret (combinedMarkdown +:+ md +:+ String "010" (String "010" "")).

(** [ocrResult] is a reference into the heap: [sort] reorders the array it
    holds in place. A response whose [pages] is missing or not an array
    gives the notice and the empty document. *)
Definition combineMarkdownWithImages (ocrResult : nat)
    (pdfBaseName finalImagesPath : string) : M string :=
  let* w := get_world in
  match heap w !! ocrResult with
  | None => throw (Error "Cannot read properties of undefined (reading 'pages')")
  | Some o =>
      match pages o with
      | None => emit (Notice "OCR result does not contain pages.") >> ret ""
      | Some ps =>
          let sortedPages := sort_pages ps in
          set_heap (<[ocrResult := {| pages := Some sortedPages |}]> (heap w)) >>
          for_each sortedPages (combinePage pdfBaseName finalImagesPath) ""
      end
  end.

(** **** createFolderIfNotExists *)

(** [folderPath.trim().replace(/^\/|\/$/g, '')] *)
Definition cleanFolderPath (folderPath : string) : string :=
  let t := trim folderPath in
  let t1 := match t with String "/" r => r | _ => t end in
  if endsWith t1 "/" then takeS (String.length t1 - 1) t1 else t1.

Definition createFolderIfNotExists (folderPath : string) : M unit :=
  let cleanPath := cleanFolderPath folderPath in
  if String.eqb cleanPath "" then ret tt
  else
    let* present := adapter_exists cleanPath in
    if present then ret tt else createFolder cleanPath.

(** **** processPDFInternal *)

Definition targetMdPathOf (pdfBaseName : string) : string :=
  let mdFolder := trim (markdownOutputFolder settings) in
  let targetMdName := pdfBaseName +:+ ".md" in
  if String.eqb mdFolder "" then targetMdName else mdFolder +:+ "/" +:+ targetMdName.

Definition finalImagesPathOf : string :=
  let baseFolder := trim (imagesOutputFolder settings) in
  let folderName :=
    let t := trim (imagesFolderName settings) in
    if String.eqb t "" then "pdf-mistral-images" else t in
  if negb (String.eqb baseFolder "") && negb (String.eqb folderName "")
  then baseFolder +:+ "/" +:+ folderName
  else if negb (String.eqb baseFolder "") then baseFolder
  else folderName.

(** An external call inside [try { ... } catch (err) { console.error(...);
    throw err }]; [request] records that the call was made. *)
Definition logged {A} (request : Event) (call : World -> Result A) (msg : string)
  : M A :=
  try_catch (emit request >> let* w := get_world in lift (call w))
            (fun err => emit (ConsoleError msg) >> throw err).

Definition alloc (o : OcrResult) : M nat :=
  let* w := get_world in
  set_heap (heap w ++ [o]) >> ret (length (heap w)).

Definition processPDFInternal (pdfContent pdfBaseName originalFileName : string)
  : M unit :=
  let mdFolder := trim (markdownOutputFolder settings) in
  let targetMdPath := targetMdPathOf pdfBaseName in
  let* existingMdFile := getAbstractFileByPath targetMdPath in
  match existingMdFile with
  | Some _ =>
      emit (Notice ("Error: " +:+ dq +:+ targetMdPath +:+ dq
                    +:+ " already exists. Processing stopped."))
  | None =>
      let apiKey := trim (mistralApiKey settings) in
      if String.eqb apiKey "" then
        throw (Error "Mistral API key is not set in settings.")
      else
        let* uploaded :=
          logged (Upload originalFileName pdfContent)
                 (fun w => files_upload svc w originalFileName pdfContent)
                 ("Error uploading file: " +:+ originalFileName) in
        let* signedUrl :=
          logged (SignedUrl uploaded)
                 (fun w => files_getSignedUrl svc w uploaded)
                 ("Error getting signed URL for file: " +:+ originalFileName) in
        let* ocrValue :=
          logged (OcrProcess signedUrl)
                 (fun w => ocr_process svc w signedUrl)
                 ("Error during OCR process for file: " +:+ originalFileName) in
        let* ocrResponse := alloc ocrValue in
        (if String.eqb mdFolder "" then ret tt
         else createFolderIfNotExists mdFolder) >>
        let finalImagesPath := finalImagesPathOf in
        createFolderIfNotExists finalImagesPath >>
        let* finalMd :=
          combineMarkdownWithImages ocrResponse pdfBaseName finalImagesPath in
        vault_create targetMdPath finalMd
  end.

(** **** processPDFfromTFile *)

Definition processPDFfromTFile (tfile : TFile) : M unit :=
  emit (Notice ("Starting: " +:+ name tfile)) >>
  try_catch
    (let* arrayBuffer := vault_read tfile in
     processPDFInternal arrayBuffer (basename tfile) (name tfile) >>
     emit (Notice ("Success: " +:+ name tfile)))
    (fun err =>
       emit (Notice ("Failed: " +:+ name tfile +:+ ". Check console for details.")) >>
       emit (ConsoleError ("Detailed error for " +:+ name tfile +:+ ":")) >>
       throw err).

(** **** processPdfAndSummarize *)

(** [/<!--\s*([\s\S]*?)\s*-->/g] *)
Definition commentRegex : regex :=
  [Lit "<!--"; Spaces; Mark; Lazy any_char; Mark; Spaces; Lit "-->"].

(** [match[1].trim()] *)
Definition matchKey (m : string * list string) : string := trim (group1 (snd m)).

(** [promptMap] is a plain object used as a dictionary: own string keys in
    insertion order. Assigning a string to [__proto__] reaches the setter
    of the prototype, which ignores it. *)
Definition PromptMap : Type := list (string * string).

Fixpoint set_property (o : PromptMap) (k v : string) : PromptMap :=
  match o with
  | [] => [(k, v)]
  | (k', v') :: o' =>
      if String.eqb k' k then (k', v) :: o' else (k', v') :: set_property o' k v
  end.

Definition buildPromptMap (items : list SummaryPromptItem) : PromptMap :=
  fold_left (fun o item =>
               if String.eqb (keyComment item) "__proto__" then o
               else set_property o (keyComment item) (prompt item))
            items [].

Fixpoint get_property (o : PromptMap) (k : string) : option string :=
  match o with
  | [] => None
  | (k', v') :: o' => if String.eqb k' k then Some v' else get_property o' k
  end.

(** [Object.keys]: the keys that are array indices come first, in ascending
    numeric order, then the other keys in insertion order. *)
Fixpoint digits_value (s : string) (acc : N) : option N :=
  match s with
  | EmptyString => Some acc
  | String c s' =>
      match Ascii.is_nat c with
      | Some d => digits_value s' (10 * acc + N.of_nat d)%N
      | None => None
      end
  end.

Definition array_index (s : string) : option N :=
  match s with
  | EmptyString => None
  | String "0" EmptyString => Some 0%N
  | String "0" _ => None
  | _ => match digits_value s 0 with
         | Some n => if (n <? 2 ^ 32 - 1)%N then Some n else None
         | None => None
         end
  end.

Fixpoint insert_index (k : N * string) (l : list (N * string)) : list (N * string) :=
  match l with
  | [] => [k]
  | k' :: l' => if (fst k' <? fst k)%N then k' :: insert_index k l' else k :: k' :: l'
  end.

Definition Object_keys (o : PromptMap) : list string :=
  let ks := map fst o in
  let indices := omap (fun k => (fun n => (n, k)) <$> array_index k) ks in
  map snd (foldr insert_index [] indices)
  ++ filter (fun k => array_index k = None) ks.

(** [result?.text ?? result?.content ?? result ?? ''], as the string that
    [replace] makes of it. *)
Definition summaryTextOf (result : GenResult) : string :=
  match result with
  | GenNull => ""
  | GenString s => s
  | GenObject (Some t) _ => t
  | GenObject None (Some c) => c
  | GenObject None None => "[object Object]"
  end.

(** [e.message || e] in a message. *)
Definition messageOf (e : Exn) : string :=
  match e with Error msg => if String.eqb msg "" then "Error" else msg end.

Record MatchInfo : Type := { fullMatch : string; key : string }.

(** [`${userInstruction}\n\n---\n\n${srcContent}`] *)
Definition promptTextOf (promptMap : PromptMap) (srcContent : string)
    (matchInfo : MatchInfo) : string :=
  let userInstruction :=
    default "undefined" (get_property promptMap (key matchInfo)) in
  userInstruction +:+ String "010" (String "010" "---")
  +:+ String "010" (String "010" srcContent).

(** The loop over [validMatches]; [None] when a failed generation made the
    method return. *)
Fixpoint summarizeKeys (gen : World -> string -> Result GenResult)
    (promptMap : PromptMap) (srcContent : string)
    (validMatches : list MatchInfo) (noteContent : string) : M (option string) :=
  match validMatches with
  | [] => ret (Some noteContent)
  | matchInfo :: rest =>
      let fullComment := fullMatch matchInfo in
      let promptText := promptTextOf promptMap srcContent matchInfo in
      emit (Generate promptText) >>
      let* w := get_world in
      match gen w promptText with
      | Throw e => emit (Notice ("APIエラー: " +:+ messageOf e)) >> ret None
      | Ok result =>
          let summaryText := summaryTextOf result in
          summarizeKeys gen promptMap srcContent rest
            (replaceString fullComment summaryText noteContent)
      end
  end.

Definition promptMapOf : PromptMap := buildPromptMap (summaryPrompts settings).

Definition allMatchesOf (noteContent : string) : list (string * list string) :=
  matchAll commentRegex noteContent.

Definition keysInNoteOf (noteContent : string) : gset string :=
  list_to_set (map matchKey (allMatchesOf noteContent)).

Definition keysToProcessOf (noteContent : string) : list string :=
  filter (fun k => k ∈ keysInNoteOf noteContent) (Object_keys promptMapOf).

Definition validMatchesOf (noteContent : string) : list MatchInfo :=
  omap (fun k =>
          (fun m => {| fullMatch := fst m; key := matchKey m |})
          <$> find (fun m => String.eqb (matchKey m) k) (allMatchesOf noteContent))
       (keysToProcessOf noteContent).

(** Lines 424-497: from reading the two documents to saving the note. *)
Definition summarizeNote (activeFile srcFile : TFile) : M unit :=
  let* srcContent := vault_read srcFile in
  let* noteContent := vault_read activeFile in
  let promptMap := promptMapOf in
  match keysToProcessOf noteContent with
  | [] =>
      let availableKeys := join ", " (Object_keys promptMap) in
      emit (Notice ("有効なキーが見つかりません。使用可能: " +:+ availableKeys))
  | _ =>
      let validMatches := validMatchesOf noteContent in
      match textGenerator svc with
      | None => emit (Notice "Text Generator プラグインが見つかりません")
      | Some gen =>
          emit (Notice ("AI要約を開始: " +:+ pretty (length validMatches)
                        +:+ "件のキーを処理")) >>
          let* updated :=
            summarizeKeys gen promptMap srcContent validMatches noteContent in
          match updated with
          | None => ret tt
          | Some noteContent' =>
              vault_modify activeFile noteContent' >>
              emit (Notice ("要約が完了しました！（" +:+ pretty (length validMatches)
                            +:+ "件処理）"))
          end
      end
  end.

(** [path.md] as the file handle that [getAbstractFileByPath] returns. *)
Definition fileAt (p : string) : TFile := {| path := p; name := p; basename := p |}.

Definition processPdfAndSummarize : M unit :=
  let* w0 := get_world in
  match getActiveFile svc w0 with
  | None => emit (Notice "アクティブなファイルがありません")
  | Some activeFile =>
      let noteTitle := basename activeFile in
      let srcBaseName := default noteTitle (strip_prefix "【Note】" noteTitle) in
      if String.eqb srcBaseName noteTitle then
        emit (Notice ("【Note】プレフィックスがありません: " +:+ noteTitle))
      else
        let targetPdfName := srcBaseName +:+ ".pdf" in
        let pdfFile :=
          find (fun file => String.eqb (name file) targetPdfName) (getFiles svc w0) in
        let targetMdPath := targetMdPathOf srcBaseName in
        let* srcFile := getAbstractFileByPath targetMdPath in
        match srcFile with
        | Some _ => summarizeNote activeFile (fileAt targetMdPath)
        | None =>
            match pdfFile with
            | None => emit (Notice ("PDF not found: " +:+ targetPdfName))
            | Some pdf =>
                emit (Notice ("OCR処理を開始: " +:+ targetPdfName)) >>
                let* processed :=
                  try_catch (processPDFfromTFile pdf >> ret true)
                    (fun err =>
                       emit (ConsoleError (messageOf err)) >>
                       emit (Notice ("Failed to process: " +:+ targetPdfName)) >>
                       ret false) in
                if processed then
                  let* srcFile' := getAbstractFileByPath targetMdPath in
                  match srcFile' with
                  | None => emit (Notice "OCR処理後もMarkdownファイルが見つかりません")
                  | Some _ => summarizeNote activeFile (fileAt targetMdPath)
                  end
                else ret tt
            end
        end
  end.

End Methods.

End Plugin.

(* ===================================================================== *)
(** ** The batch of PDFSelectionModal.onOpen                              *)
(* ===================================================================== *)

Module Batch.

Section Pool.

(** The selected files. *)
Context {Doc : Type}.

(** A worker is suspended at [await this.plugin.processPDFfromTFile(f)] or
    has left its loop. Between two suspensions a worker runs alone: the
    counter update, the test of the queue and [queue.shift()] are one step. *)
Inductive Worker : Type :=
| Awaiting (fileToProcess : Doc)
| Finished.

Record State : Type := {
  queue : list Doc;
  workers : list Worker;
  successCount : nat;
  failureCount : nat;
  (** The arguments of the calls of [processPDFfromTFile], oldest first. *)
  started : list Doc }.

(** [while (queue.length > 0) { const fileToProcess = queue.shift(); ...]
    up to the [await]. A file object is never falsy, so the [continue]
    after [shift] is not taken. *)
Definition enter_loop (q calls : list Doc) : Worker * list Doc * list Doc :=
  match q with
  | [] => (Finished, [], calls)
  | fileToProcess :: q' => (Awaiting fileToProcess, q', calls ++ [fileToProcess])
  end.

(** [workerPromises.push(worker())]: the new worker runs to its first
    suspension. *)
Definition spawn_worker (s : State) : State :=
  let '(w, q, calls) := enter_loop (queue s) (started s) in
  {| queue := q; workers := workers s ++ [w];
     successCount := successCount s; failureCount := failureCount s;
     started := calls |}.

Fixpoint spawn (concurrencyLimit : nat) (s : State) : State :=
  match concurrencyLimit with
  | O => s
  | S k => spawn k (spawn_worker s)
  end.

Definition start (selectedFiles : list Doc) (concurrencyLimit : nat) : State :=
  spawn concurrencyLimit
    {| queue := selectedFiles; workers := [];
       successCount := 0; failureCount := 0; started := [] |}.

(** The promise that worker [i] awaits settles: resolved ([ok]) or
    rejected; the worker counts it and goes round its loop. *)
Definition settle (i : nat) (ok : bool) (s : State) : option State :=
  match workers s !! i with
  | Some (Awaiting _) =>
      let '(w, q, calls) := enter_loop (queue s) (started s) in
      Some {| queue := q; workers := <[i := w]> (workers s);
              successCount := if ok then S (successCount s) else successCount s;
              failureCount := if ok then failureCount s else S (failureCount s);
              started := calls |}
  | _ => None
  end.

(** A run of the pool: the promises settle in the order and with the
    outcomes that [schedule] lists; [None] when the schedule names a worker
    that awaits nothing. *)
Fixpoint run (schedule : list (nat * bool)) (s : State) : option State :=
  match schedule with
  | [] => Some s
  | (i, ok) :: schedule' =>
      match settle i ok s with
      | Some s' => run schedule' s'
      | None => None
      end
  end.

(** [await Promise.all(workerPromises)] is over. *)
Definition all_finished (s : State) : Prop := Forall (fun w => w = Finished) (workers s).

(** The number of suspended workers. *)
Fixpoint awaiting (ws : list Worker) : nat :=
  match ws with
  | [] => 0
  | Awaiting _ :: ws' => S (awaiting ws')
  | Finished :: ws' => awaiting ws'
  end.

(** Documents not yet counted. *)
Definition pending (s : State) : nat := length (queue s) + awaiting (workers s).

(** What holds of the pool all along a run over [docs]. *)
Record batch_inv (docs : list Doc) (concurrencyLimit : nat) (s : State) : Prop := {
  inv_split : started s ++ queue s = docs;
  inv_counts :
    successCount s + failureCount s + awaiting (workers s) = length (started s);
  inv_drained : Exists (fun w => w = Finished) (workers s) -> queue s = [];
  inv_workers : length (workers s) = concurrencyLimit }.

End Pool.

Arguments Worker : clear implicits.
Arguments State : clear implicits.

End Batch.

(* ===================================================================== *)
(** ** Specification-side notions                                         *)
(* ===================================================================== *)

Module Spec.

Import Plugin.

(** Whether [c] occurs in [s]. *)
Fixpoint contains (c : ascii) (s : string) : bool :=
  match s with
  | EmptyString => false
  | String a s' => Ascii.eqb a c || contains c s'
  end.

Fixpoint mapS (f : ascii -> ascii) (s : string) : string :=
  match s with
  | EmptyString => EmptyString
  | String a s' => String (f a) (mapS f s')
  end.

(** A path with every backslash turned into a forward slash. *)
Definition slashed (p : string) : string :=
  mapS (fun c => if Ascii.eqb c "\" then "/"%char else c) p.

(** [.jpg] or [.jpeg] in any mix of cases. *)
Definition is_jpeg_suffix (ext : string) : Prop :=
  exists e, ext = String "." e /\ (mapS upper e = "JPG" \/ mapS upper e = "JPEG").

(** [needle] occurs in [s] after [n] code units. *)
Definition occurs_at (needle s : string) (n : nat) : Prop :=
  exists before after,
    s = before +:+ needle +:+ after /\ String.length before = n.

(** The log grown by some events. *)
Definition logged_more (w : World) (events : list Event) : World :=
  {| vault := vault w; heap := heap w; log := log w ++ events |}.

Definition by_index (p q : Page) : Prop := (index p <= index q)%Z.

(** The generation requests for some matches, in order. *)
Definition generate_events (promptMap : PromptMap) (srcContent : string)
    (ms : list MatchInfo) : list Event :=
  map (fun m => Generate (promptTextOf promptMap srcContent m)) ms.

(** What the [k]-th generation call (from 0) of a run over [ms] started in
    [w] answers, when the calls before it resolved: the generator sees the
    world with the requests made so far. *)
Definition call_outcome (gen : World -> string -> Result GenResult)
    (promptMap : PromptMap) (srcContent : string) (ms : list MatchInfo)
    (w : World) (k : nat) : option (Result GenResult) :=
  (fun m => gen (logged_more w (generate_events promptMap srcContent (take (S k) ms)))
                (promptTextOf promptMap srcContent m))
  <$> ms !! k.

Definition resolved {A} (r : option (Result A)) : Prop :=
  match r with Some (Ok _) => True | _ => False end.

(** A string with every character of a class escaped by a backslash. *)
Fixpoint escaped (p : ascii -> bool) (s : string) : string :=
  match s with
  | EmptyString => EmptyString
  | String c s' =>
      if p c then String "\" (String c (escaped p s')) else String c (escaped p s')
  end.

(** A pattern that matches exactly one character of the class [p]. *)
Definition one_char (p : ascii -> bool) (r : regex) : Prop :=
  forall s, exec_here r s =
            match s with
            | String c s' => if p c then Some [s'] else None
            | EmptyString => None
            end.

(** The boolean form of [is_jpeg_suffix]. *)
Definition is_jpeg_suffixb (s : string) : bool :=
  match s with
  | String c e =>
      Ascii.eqb "." c
      && (String.eqb (mapS upper e) "JPG" || String.eqb (mapS upper e) "JPEG")
  | EmptyString => false
  end.

(** The markdown that [combineMarkdownWithImages] computes, without the
    effects: the link of an image, a page's text after its images, and the
    pages put together in the order given. *)
Definition imageLink (pdfBaseName finalImagesPath originalId : string) : string :=
  "![[" +:+ forwardSlashes (imageFilePathOf pdfBaseName finalImagesPath originalId)
  +:+ "]]".

Definition rewriteImage (pdfBaseName finalImagesPath : string)
    (md : string) (imgObj : Image) : string :=
  if is_placeholder (imageBase64 imgObj) then md
  else replaceAll (imageReference (escapeRegExp (id imgObj)))
         (imageLink pdfBaseName finalImagesPath (id imgObj)) md.

Definition pageMarkdown (pdfBaseName finalImagesPath : string) (page : Page) : string :=
  fold_left (rewriteImage pdfBaseName finalImagesPath)
    (default [] (images page)) (default "" (markdown page)).

Definition blank_line : string := String "010" (String "010" "").

Definition emitPage (pdfBaseName finalImagesPath : string)
    (combinedMarkdown : string) (page : Page) : string :=
  combinedMarkdown +:+ pageMarkdown pdfBaseName finalImagesPath page +:+ blank_line.

Definition reconciled (pdfBaseName finalImagesPath : string) (emitted : list Page)
  : string :=
  fold_left (emitPage pdfBaseName finalImagesPath) emitted "".

End Spec.

Import Plugin Spec.

(* ===================================================================== *)
(** ** Concrete inputs                                                    *)
(* ===================================================================== *)

Module Examples.

(** Collaborators that always answer; the OCR service returns [o]. *)
Definition services (o : OcrResult) (gen : option (World -> string -> Result GenResult))
    (active : option TFile) : Services :=
  {| decodeBase64 := fun s => s;
     files_upload := fun _ _ _ => Ok "file-1";
     files_getSignedUrl := fun _ _ => Ok "https://signed";
     ocr_process := fun _ _ => Ok o;
     textGenerator := gen;
     getFiles := fun _ => [];
     getActiveFile := fun _ => active |}.

Definition settings_with (mdFolder : string) (prompts : list SummaryPromptItem)
  : PDFToMarkdownSettings :=
  {| markdownOutputFolder := mdFolder;
     imagesOutputFolder := "";
     imagesFolderName := "pdf-mistral-images";
     mistralApiKey := "key";
     parallelProcessingLimit := 3;
     summaryPrompts := prompts |}.

Definition jpeg_payload : string := "data:image/jpeg;base64,AAAA".

(** U+3000, the ideographic space, and U+00A0, the no-break space. *)
Definition ideographic_space : string :=
  String (byte 227) (String (byte 128) (String (byte 128) EmptyString)).
Definition no_break_space : string := String (byte 194) (String (byte 160) EmptyString).

(** The two pages of the specification's scenario, in the order [1, 0]. *)
Definition page_A (payload : option string) : Page :=
  {| index := 0;
     markdown := Some "A ![img](img-0.jpeg)";
     images := Some [ {| id := "img-0.jpeg"; imageBase64 := payload |} ] |}.

Definition page_B (imgs : option (list Image)) : Page :=
  {| index := 1; markdown := Some "B"; images := imgs |}.

Definition scenario_pages (payload : string) (imgs : option (list Image)) : list Page :=
  [page_B imgs; page_A (Some payload)].

Definition world_with_pages (ps : list Page) : World :=
  {| vault := ∅; heap := [ {| pages := Some ps |} ]; log := [] |}.

(** A vault that already holds [out/doc.md], next to the PDF. *)
Definition pdf_file : TFile :=
  {| path := "papers/doc.pdf"; name := "doc.pdf"; basename := "doc" |}.

Definition world_with_markdown : World :=
  {| vault := {[ "out/doc.md" := File "earlier output";
                 "papers/doc.pdf" := File "%PDF" ]};
     heap := [];
     log := [] |}.

(** Two pages with the same index. *)
Definition tie_first : Page := {| index := 0; markdown := Some "A"; images := None |}.
Definition tie_second : Page := {| index := 0; markdown := Some "B"; images := None |}.

(** A page whose image has a PNG payload. *)
Definition png_page : Page :=
  {| index := 0;
     markdown := Some "![fig](img-0.jpeg)";
     images := Some [ {| id := "img-0.jpeg";
                         imageBase64 := Some "data:image/png;base64,AAAA" |} ] |}.

(** A note with one marker, its OCR markdown, and a prompt for the marker. *)
Definition note_file : TFile :=
  {| path := "notes/doc-note.md"; name := "doc-note.md"; basename := "doc-note" |}.

Definition markdown_file : TFile :=
  {| path := "out/doc.md"; name := "doc.md"; basename := "doc" |}.

Definition note_world (noteContent : string) : World :=
  {| vault := {[ "notes/doc-note.md" := File noteContent;
                 "out/doc.md" := File "OCR text" ]};
     heap := [];
     log := [] |}.

Definition summary_prompts : list SummaryPromptItem :=
  [ {| keyComment := "summary"; prompt := "Summarize." |} ].

Definition failing_generator : World -> string -> Result GenResult :=
  fun _ _ => Throw (Error "rate limit").

End Examples.

(* ===================================================================== *)
(** ** The other commands                                                 *)
(* ===================================================================== *)

Module Commands.

(** A file picked in the dialog of [openFileDialogAndProcess]: [name],
    [type], and what [arrayBuffer()] settles to. *)
Record PickedFile : Type := {
  file_name : string;
  file_type : string;
  file_arrayBuffer : Result string }.

Section Methods.

Variable svc : Services.
Variable settings : PDFToMarkdownSettings.

(** [/\.pdf$/i] *)
Definition pdfExtension : regex := [Lit "."; AltCI ["pdf"]; Eos].

(** The body of the loop of [openFileDialogAndProcess] over the picked
    files. *)
Definition processPickedFile (_ : unit) (file : PickedFile) : M unit :=
  if negb (String.eqb (file_type file) "application/pdf") then
    emit (Notice ("Skipping non-PDF file: " +:+ file_name file))
  else
    emit (Notice ("Processing: " +:+ file_name file)) >>
    try_catch
      (let* arrayBuffer := lift (file_arrayBuffer file) in
       let pdfBaseName := removeFirst pdfExtension (file_name file) in
       processPDFInternal svc settings arrayBuffer pdfBaseName (file_name file) >>
       emit (Notice ("Processed: " +:+ file_name file)))
      (fun err =>
         emit (ConsoleError ("Error processing file " +:+ file_name file +:+ ":")) >>
         emit (Notice ("Error processing file: " +:+ file_name file))).

(** The change listener of [openFileDialogAndProcess]; [files] is
    [input.files], [None] when it is null. *)
Definition openFileDialogAndProcess (files : option (list PickedFile)) : M unit :=
  match files with
  | None => ret tt
  | Some files =>
      emit (Notice ("Selected files: " +:+ pretty (length files))) >>
      for_each files processPickedFile tt
  end.

(** The callback of the command [process-pdf-by-note-title] (lines 93-140). *)
Definition processPdfByNoteTitle : M unit :=
  let* w0 := get_world in
  match getActiveFile svc w0 with
  | None => emit (Notice "No active file found.")
  | Some activeFile =>
      let noteTitle := basename activeFile in
      let pdfBaseName := default noteTitle (strip_prefix "【Note】" noteTitle) in
      let targetPdfName := pdfBaseName +:+ ".pdf" in
      let pdfFile :=
        find (fun file => String.eqb (name file) targetPdfName) (getFiles svc w0) in
      match pdfFile with
      | None => emit (Notice ("PDF not found: " +:+ targetPdfName))
      | Some pdf =>
          let targetMdPath := targetMdPathOf settings pdfBaseName in
          let* existingFile := getAbstractFileByPath targetMdPath in
          match existingFile with
          | Some _ => emit (Notice ("Markdown already exists: " +:+ targetMdPath))
          | None =>
              try_catch (processPDFfromTFile svc settings pdf)
                (fun err =>
                   emit (ConsoleError (messageOf err)) >>
                   emit (Notice ("Failed to process: " +:+ targetPdfName)))
          end
      end
  end.

End Methods.

End Commands.

Import Commands.

(* ===================================================================== *)
(** ** Footprints                                                         *)
(* ===================================================================== *)

Module Footprint.

(** A relation between the world before and the world after that a
    computation keeps, whether it returns or throws. *)
Definition keeps (R : World -> World -> Prop) {A} (m : M A) : Prop :=
  forall w, R w (snd (m w)).

(** What a run may do to the vault: a path that was free stays free unless
    it is in [created]; an entry that was there stays as it was unless its
    path is in [overwritten], and then the path still holds something. *)
Definition framed (created overwritten : string -> Prop) (w w' : World) : Prop :=
  (forall p, vault w !! p = None -> ~ created p -> vault w' !! p = None)
  /\ (forall p e, vault w !! p = Some e -> ~ overwritten p -> vault w' !! p = Some e)
  /\ (forall p, is_Some (vault w !! p) -> is_Some (vault w' !! p)).

(** The paths [{imagesFolder}/{baseName}_{stem}.jpeg]. *)
Definition image_path (pdfBaseName finalImagesPath p : string) : Prop :=
  exists stem, p = finalImagesPath +:+ "/" +:+ pdfBaseName +:+ "_" +:+ stem +:+ ".jpeg".

(** [p] is the path [q] or a folder above it. *)
Definition at_or_above (q p : string) : Prop := p = q \/ p ∈ ancestors q.

(** The image paths of a document and the folders above them. *)
Definition image_place (pdfBaseName finalImagesPath p : string) : Prop :=
  exists q, image_path pdfBaseName finalImagesPath q /\ at_or_above q p.

(** The paths an ingestion of [pdfBaseName] may create: the images of the
    document, the two folders, the folders above these, and the markdown
    file. *)
Definition ingestion_path (settings : PDFToMarkdownSettings) (pdfBaseName p : string)
  : Prop :=
  image_place pdfBaseName (finalImagesPathOf settings) p
  \/ p = targetMdPathOf settings pdfBaseName
  \/ at_or_above (cleanFolderPath (trim (markdownOutputFolder settings))) p
  \/ at_or_above (cleanFolderPath (finalImagesPathOf settings)) p.

(** The picked files that pass the test of the media type. *)
Definition picked_pdf (files : option (list PickedFile)) (file : PickedFile) : Prop :=
  file ∈ default [] files /\ file_type file = "application/pdf".

(** The markdown of an OCR response for a document. *)
Definition markdownOf (pdfBaseName finalImagesPath : string) (o : OcrResult) : string :=
  match pages o with
  | None => ""
  | Some ps => reconciled pdfBaseName finalImagesPath (sort_pages ps)
  end.

End Footprint.

Import Footprint.

(** The note after the comments of the matches [ms] have been replaced, in
    order, with the texts [texts]: one [replace] with a string pattern for
    each match. *)
Fixpoint replaced (ms : list MatchInfo) (texts : list string) (note : string)
  : string :=
  match ms, texts with
  | m :: ms', text :: texts' => replaced ms' texts' (replaceString (fullMatch m) text note)
  | _, _ => note
  end.

(** Further concrete inputs. *)
Module Cases.

(** Settings whose API key is blank. *)
Definition settings_without_key : PDFToMarkdownSettings :=
  {| markdownOutputFolder := "out";
     imagesOutputFolder := "";
     imagesFolderName := "";
     mistralApiKey := "  ";
     parallelProcessingLimit := 3;
     summaryPrompts := [] |}.

(** A vault that holds the PDF only. *)
Definition world_with_pdf : World :=
  {| vault := {[ "papers/doc.pdf" := File "%PDF" ]}; heap := []; log := [] |}.

(** Collaborators whose upload is rejected. *)
Definition services_upload_down : Services :=
  {| decodeBase64 := fun s => s;
     files_upload := fun _ _ _ => Throw (Error "network down");
     files_getSignedUrl := fun _ _ => Ok "https://signed";
     ocr_process := fun _ _ => Ok {| pages := None |};
     textGenerator := None;
     getFiles := fun _ => [];
     getActiveFile := fun _ => None |}.

End Cases.


(* ===================================================================== *)
(** ** Properties of the string operations                                *)
(* ===================================================================== *)

#[local] Arguments Ascii.eqb : simpl never.

Section StringFacts.

Lemma append_nil_l (s : string) : "" +:+ s = s.
Proof. reflexivity. Qed.

Lemma append_cons (c : ascii) (a b : string) :
  String c a +:+ b = String c (a +:+ b).
Proof. reflexivity. Qed.

Lemma append_nil_r (s : string) : s +:+ "" = s.
Proof.
  induction s as [|c s IH]; [reflexivity |].
  now rewrite append_cons, IH.
Qed.

Lemma append_assoc (a b c : string) : (a +:+ b) +:+ c = a +:+ (b +:+ c).
Proof.
  induction a as [|x a IH]; [reflexivity |].
  now rewrite !append_cons, IH.
Qed.

Lemma append_snoc (a : string) (c : ascii) (b : string) :
  (a +:+ String c "") +:+ b = a +:+ String c b.
Proof. now rewrite append_assoc. Qed.

Lemma length_append (a b : string) :
  String.length (a +:+ b) = String.length a + String.length b.
Proof.
  induction a as [|x a IH]; [reflexivity |].
  rewrite append_cons; simpl; now rewrite IH.
Qed.

Lemma contains_append (c : ascii) (a b : string) :
  contains c (a +:+ b) = contains c a || contains c b.
Proof.
  induction a as [|x a IH]; [reflexivity |].
  rewrite append_cons; simpl. now rewrite IH, orb_assoc.
Qed.

Lemma mapS_append (f : ascii -> ascii) (a b : string) :
  mapS f (a +:+ b) = mapS f a +:+ mapS f b.
Proof.
  induction a as [|x a IH]; [reflexivity |].
  rewrite append_cons; simpl. now rewrite IH.
Qed.

Lemma strip_prefix_Some (p s r : string) :
  strip_prefix p s = Some r <-> s = p +:+ r.
Proof.
  revert s; induction p as [|a p IH]; intros s; simpl.
  - rewrite append_nil_l. split; [now intros [= ->] | now intros ->].
  - rewrite append_cons. destruct s as [|b s]; [split; discriminate |].
    destruct (Ascii.eqb_spec a b) as [->|Hne].
    + rewrite IH. split; [now intros -> | now intros [= ->]].
    + split; [discriminate | intros [= -> _]; now elim Hne].
Qed.

Lemma strip_prefix_append (p r : string) : strip_prefix p (p +:+ r) = Some r.
Proof. now apply strip_prefix_Some. Qed.

(** A template without dollar sign stands for itself. *)
Lemma GetSubstitution_plain (m b a t : string) :
  contains "$" t = false -> GetSubstitution m b a t = t.
Proof.
  induction t as [|c t IH]; simpl; [reflexivity |].
  intros H. apply orb_false_elim in H as [Hc Ht].
  destruct (Ascii.eqb_spec c "$") as [->|Hne]; [discriminate |].
  assert (E : String c (GetSubstitution m b a t) = String c t)
    by now rewrite IH.
  destruct c as [[] [] [] [] [] [] [] []]; try exact E.
  now elim Hne.
Qed.

Lemma replace_go_ext (r : regex) (f g : string -> string -> string -> string) :
  (forall m b a, f m b a = g m b a) ->
  forall s before skip, replace_go r f before s skip = replace_go r g before s skip.
Proof.
  intros Hfg s; induction s as [|c s IH]; intros before skip; simpl.
  - destruct skip; [| reflexivity].
    destruct (exec_here r ""); [apply Hfg | reflexivity].
  - destruct skip as [|k]; [| apply IH].
    destruct (exec_here r (String c s)) as [marks|]; [| now rewrite IH].
    change (String.length (String c s)) with (S (String.length s)).
    destruct (S (String.length s) - String.length (match_rest marks));
      now rewrite Hfg, IH.
Qed.

(** With a template free of dollar signs every match is replaced by the
    template itself. *)
Lemma replaceAll_plain (r : regex) (t s : string) :
  contains "$" t = false -> replaceAll r t s = replaceAllBy r (fun _ _ _ => t) s.
Proof.
  intros H. unfold replaceAll, replaceAllBy.
  apply replace_go_ext. intros; now apply GetSubstitution_plain.
Qed.

End StringFacts.

Section SingleCharacterPatterns.

Lemma one_char_One (p : ascii -> bool) : one_char p [One p].
Proof. intros [|c s]; simpl; [reflexivity | now destruct (p c)]. Qed.

Lemma one_char_Lit (a : ascii) : one_char (Ascii.eqb a) [Lit (String a "")].
Proof. intros [|c s]; simpl; [reflexivity | now destruct (Ascii.eqb a c)]. Qed.

Lemma sub_succ_self (n : nat) : S n - n = 1.
Proof. lia. Qed.

Lemma replace_go_one_char (p : ascii -> bool) (r : regex)
    (f : string -> string -> string -> string) :
  one_char p r ->
  forall s before,
    replace_go r f before s 0 =
    match s with
    | EmptyString => EmptyString
    | String c s' =>
        (if p c then f (String c "") before s' else String c "")
        +:+ replace_go r f (before +:+ String c "") s' 0
    end.
Proof.
  intros Hr [|c s] before; simpl; rewrite Hr; [reflexivity |].
  destruct (p c); [| reflexivity].
  unfold match_rest; simpl. rewrite sub_succ_self.
  unfold consumed; simpl. now rewrite sub_succ_self.
Qed.

(** [imageFilePath.replace(/\\/g, '/')] turns each backslash into a slash. *)
Lemma forwardSlashes_go (before p : string) :
  replace_go [Lit "\"] (fun m b a => GetSubstitution m b a "/") before p 0
  = slashed p.
Proof.
  revert before; induction p as [|c p IH]; intros before.
  - reflexivity.
  - rewrite (replace_go_one_char _ _ _ (one_char_Lit "\")), IH.
    now destruct c as [[] [] [] [] [] [] [] []].
Qed.

Lemma forwardSlashes_slashed (p : string) : forwardSlashes p = slashed p.
Proof. apply forwardSlashes_go. Qed.

Lemma slashed_cons (c : ascii) (p : string) :
  slashed (String c p) = String (if Ascii.eqb c "\" then "/"%char else c) (slashed p).
Proof. reflexivity. Qed.

Lemma slashed_no_backslash (p : string) : contains "\" (slashed p) = false.
Proof.
  induction p as [|c p IH]; [reflexivity |].
  rewrite slashed_cons; simpl. rewrite IH.
  destruct (Ascii.eqb_spec c "\") as [->|Hne]; [reflexivity |].
  destruct (Ascii.eqb_spec c "\"); [contradiction | reflexivity].
Qed.

Lemma slashed_id (p : string) : contains "\" p = false -> slashed p = p.
Proof.
  induction p as [|c p IH]; [reflexivity |]. simpl.
  intros H; apply orb_false_elim in H as [Hc Hp].
  now rewrite slashed_cons, Hc, IH.
Qed.

Lemma slashed_dollar (p : string) : contains "$" (slashed p) = contains "$" p.
Proof.
  induction p as [|c p IH]; [reflexivity |].
  rewrite slashed_cons; simpl. rewrite IH.
  now destruct (Ascii.eqb_spec c "\") as [->|Hne].
Qed.

Lemma slashed_append (a b : string) : slashed (a +:+ b) = slashed a +:+ slashed b.
Proof. apply mapS_append. Qed.

(** [originalId.replace(/[.*+?^${}()|[\]\\]/g, '\\$&')] puts a backslash
    before each syntax character. *)
Lemma escapeRegExp_go (before s : string) :
  replace_go [One is_syntax_char] (fun m b a => GetSubstitution m b a "\$&")
    before s 0
  = escaped is_syntax_char s.
Proof.
  revert before; induction s as [|c s IH]; intros before.
  - reflexivity.
  - rewrite (replace_go_one_char _ _ _ (one_char_One is_syntax_char)), IH.
    simpl. now destruct (is_syntax_char c).
Qed.

Lemma escapeRegExp_escaped (s : string) : escapeRegExp s = escaped is_syntax_char s.
Proof. apply escapeRegExp_go. Qed.

(** Read back by the [RegExp] constructor, the escaped id is the id. *)
Lemma parseEscaped_escaped (s : string) :
  parseEscaped (escaped is_syntax_char s) = s.
Proof.
  induction s as [|c s IH]; [reflexivity |]. simpl.
  destruct (is_syntax_char c) eqn:E.
  - simpl. now rewrite IH.
  - assert (Hc : c <> "\"%char) by (intros ->; discriminate).
    simpl. rewrite IH.
    destruct c as [[] [] [] [] [] [] [] []]; try reflexivity. now elim Hc.
Qed.

Lemma imageReference_literal (originalId : string) :
  imageReference (escapeRegExp originalId) =
  [Lit "!["; Greedy not_rbracket; Lit "]("; LazyAt dot; Lit originalId; LazyAt dot;
   Lit ")"].
Proof.
  unfold imageReference. now rewrite escapeRegExp_escaped, parseEscaped_escaped.
Qed.

End SingleCharacterPatterns.

Section JpegExtension.

Lemma is_jpeg_suffixb_spec (s : string) : is_jpeg_suffixb s = true <-> is_jpeg_suffix s.
Proof.
  unfold is_jpeg_suffix. destruct s as [|c e]; simpl.
  - split; [discriminate | now intros (e & [=] & _)].
  - rewrite andb_true_iff, orb_true_iff, Ascii.eqb_eq, !String.eqb_eq. split.
    + intros [<- H]. now exists e.
    + intros (e' & [= -> ->] & H). now split.
Qed.

Lemma upper_sym (a c : ascii) :
  Ascii.eqb (upper a) (upper c) = Ascii.eqb (upper c) (upper a).
Proof. apply Ascii.eqb_sym. Qed.

(** At a position, [/\.(jpg|jpeg)$/i] matches exactly when what remains of
    the input is the extension. *)
Lemma exec_jpegExtension (s : string) :
  exec_here jpegExtension s = if is_jpeg_suffixb s then Some [""] else None.
Proof.
  destruct s as [|c e]; [reflexivity |].
  unfold jpegExtension, is_jpeg_suffixb.
  cbn [exec_here strip_prefix].
  destruct (Ascii.eqb "." c); [| reflexivity].
  cbn [andb].
  destruct e as [|c1 [|c2 [|c3 [|c4 [|c5 e]]]]];
    cbn [exec_here first_alt strip_prefix_ci mapS String.eqb orb];
    rewrite ?(upper_sym "j"), ?(upper_sym "p"), ?(upper_sym "g"), ?(upper_sym "e");
    change (upper "j") with "J"%char; change (upper "p") with "P"%char;
    change (upper "g") with "G"%char; change (upper "e") with "E"%char;
    try reflexivity.
  all: repeat match goal with
              | |- context [Ascii.eqb (upper ?x) ?y] =>
                  destruct (Ascii.eqb (upper x) y) eqn:?
              end; try reflexivity; congruence.
Qed.

Lemma length_mapS (f : ascii -> ascii) (s : string) :
  String.length (mapS f s) = String.length s.
Proof. induction s as [|c s IH]; simpl; [reflexivity | now rewrite IH]. Qed.

Lemma jpeg_suffix_not_longer (c : ascii) (stem ext : string) :
  is_jpeg_suffix ext -> ~ is_jpeg_suffix (String c (stem +:+ ext)).
Proof.
  intros (e & -> & He) (e' & [= -> He'] & H).
  assert (Hlen : String.length (mapS upper e') = S (String.length stem + String.length e)).
  { rewrite <- He', length_mapS, length_append. simpl. lia. }
  assert (Le : String.length e = String.length (mapS upper e))
    by now rewrite length_mapS.
  destruct He as [He|He], H as [H|H]; rewrite H in Hlen; rewrite He in Le;
    simpl in Hlen, Le; try lia.
  destruct stem as [|x stem]; [| simpl in Hlen; lia].
  rewrite append_nil_l in He'. subst e'. discriminate H.
Qed.

Lemma removeFirst_eq (r : regex) (s : string) :
  removeFirst r s =
  match exec_here r s with
  | Some marks => match_rest marks
  | None => match s with
            | EmptyString => EmptyString
            | String c s' => String c (removeFirst r s')
            end
  end.
Proof. now destruct s. Qed.

(** [originalId.replace(/\.(jpg|jpeg)$/i, '')] removes the extension... *)
Lemma removeFirst_jpeg_suffix (stem ext : string) :
  is_jpeg_suffix ext -> removeFirst jpegExtension (stem +:+ ext) = stem.
Proof.
  intros Hext. induction stem as [|c stem IH].
  - rewrite append_nil_l, removeFirst_eq, exec_jpegExtension.
    apply is_jpeg_suffixb_spec in Hext. now rewrite Hext.
  - rewrite append_cons, removeFirst_eq, exec_jpegExtension.
    destruct (is_jpeg_suffixb (String c (stem +:+ ext))) eqn:E.
    + apply is_jpeg_suffixb_spec in E.
      now elim (jpeg_suffix_not_longer c stem ext Hext).
    + now rewrite IH.
Qed.

(** ... and leaves an id without it as it is. *)
Lemma removeFirst_no_jpeg_suffix (originalId : string) :
  (forall stem ext, originalId = stem +:+ ext -> ~ is_jpeg_suffix ext) ->
  removeFirst jpegExtension originalId = originalId.
Proof.
  induction originalId as [|c s IH]; intros H.
  - reflexivity.
  - rewrite removeFirst_eq, exec_jpegExtension.
    destruct (is_jpeg_suffixb (String c s)) eqn:E.
    + apply is_jpeg_suffixb_spec in E. now elim (H "" (String c s)).
    + rewrite IH; [reflexivity |].
      intros stem ext -> Hext. now apply (H (String c stem) ext).
Qed.

End JpegExtension.

Section Sorting.

Lemma insert_page_perm (p : Page) (l : list Page) :
  Permutation (insert_page p l) (p :: l).
Proof.
  induction l as [|q l IH]; simpl; [reflexivity |].
  destruct (index q <? index p)%Z; [| reflexivity].
  rewrite IH. apply perm_swap.
Qed.

Lemma sort_pages_perm (l : list Page) : Permutation (sort_pages l) l.
Proof.
  induction l as [|p l IH]; simpl; [reflexivity |].
  now rewrite insert_page_perm, IH.
Qed.

Lemma insert_page_sorted (p : Page) (l : list Page) :
  Sorted by_index l -> Sorted by_index (insert_page p l).
Proof.
  induction l as [|q l IH]; simpl; intros Hs.
  - repeat constructor.
  - destruct (Z.ltb_spec (index q) (index p)) as [Hlt|Hge].
    + apply Sorted_inv in Hs as [Hs Hhd]. constructor; [now apply IH |].
      destruct l as [|r l]; simpl.
      * constructor. unfold by_index; lia.
      * destruct (index r <? index p)%Z.
        -- now inversion Hhd; subst; constructor.
        -- constructor. unfold by_index; lia.
    + constructor; [assumption |]. now constructor.
Qed.

Lemma sort_pages_sorted (l : list Page) : Sorted by_index (sort_pages l).
Proof.
  induction l as [|p l IH]; simpl; [constructor | now apply insert_page_sorted].
Qed.

(** Pages with the same index keep the order they had. *)
Lemma insert_page_stable (k : Z) (p : Page) (l : list Page) :
  filter (fun q => index q = k) (insert_page p l)
  = filter (fun q => index q = k) (p :: l).
Proof.
  induction l as [|q l IH]; simpl; [reflexivity |].
  destruct (Z.ltb_spec (index q) (index p)) as [Hlt|Hge]; [| reflexivity].
  rewrite (filter_cons _ q), IH, !(filter_cons _ p), !(filter_cons _ q).
  repeat case_decide; try reflexivity; lia.
Qed.

Lemma sort_pages_stable (k : Z) (l : list Page) :
  filter (fun q => index q = k) (sort_pages l) = filter (fun q => index q = k) l.
Proof.
  induction l as [|p l IH]; simpl; [reflexivity |].
  rewrite insert_page_stable, !(filter_cons _ p), IH. reflexivity.
Qed.

(** An array in ascending order is left as it is. *)
Lemma sort_pages_sorted_id (l : list Page) : Sorted by_index l -> sort_pages l = l.
Proof.
  induction l as [|p l IH]; simpl; [reflexivity |].
  intros Hs. apply Sorted_inv in Hs as [Hs Hhd]. rewrite (IH Hs).
  destruct Hhd as [|q l' Hpq]; simpl; [reflexivity |].
  unfold by_index in Hpq.
  destruct (Z.ltb_spec (index q) (index p)); [lia | reflexivity].
Qed.

Lemma insert_page_comm (p q : Page) (l : list Page) :
  index p <> index q ->
  insert_page p (insert_page q l) = insert_page q (insert_page p l).
Proof.
  intros Hne. induction l as [|r l IH]; simpl.
  - destruct (Z.ltb_spec (index q) (index p)), (Z.ltb_spec (index p) (index q));
      try reflexivity; lia.
  - destruct (Z.ltb_spec (index r) (index q)), (Z.ltb_spec (index r) (index p));
      simpl;
      repeat match goal with
             | |- context [(?a <? ?b)%Z] => destruct (Z.ltb_spec a b)
             end; try reflexivity; try lia.
    now rewrite IH.
Qed.

(** With pairwise distinct indices the result does not depend on the order
    of the input. *)
Lemma sort_pages_permutation (l1 l2 : list Page) :
  Permutation l1 l2 -> List.NoDup (map index l1) -> sort_pages l1 = sort_pages l2.
Proof.
  induction 1 as [|p l l' Hperm IH|p q l|l l' l'' H1 IH1 H2 IH2]; intros Hnd.
  - reflexivity.
  - simpl. rewrite IH; [reflexivity |]. now apply List.NoDup_cons_iff in Hnd as [_ ?].
  - simpl. apply insert_page_comm.
    simpl in Hnd. apply List.NoDup_cons_iff in Hnd as [Hq _].
    intros E. apply Hq. rewrite E. now left.
  - rewrite IH1 by assumption. apply IH2.
    eapply Permutation_NoDup; [| exact Hnd]. now apply Permutation_map.
Qed.

End Sorting.

Section Reconciliation.

Variable svc : Services.
Variables pdfBaseName finalImagesPath : string.

Lemma for_each_value {A S} (body : S -> A -> M S) (f : S -> A -> S) :
  (forall acc x w, fst (body acc x w) = Ok (f acc x)) ->
  forall l acc w, fst (for_each l body acc w) = Ok (fold_left f l acc).
Proof.
  intros Hbody l; induction l as [|x l IH]; intros acc w; simpl; [reflexivity |].
  unfold bind. specialize (Hbody acc x w).
  destruct (body acc x w) as [[a|e] w']; simpl in Hbody; [| discriminate].
  injection Hbody as ->. apply IH.
Qed.

Lemma for_each_preserves {A S} (R : World -> World -> Prop) (body : S -> A -> M S) :
  (forall w, R w w) -> (forall a b c, R a b -> R b c -> R a c) ->
  (forall acc x w, R w (snd (body acc x w))) ->
  forall l acc w, R w (snd (for_each l body acc w)).
Proof.
  intros Hrefl Htrans Hbody l; induction l as [|x l IH]; intros acc w; simpl.
  - apply Hrefl.
  - unfold bind. specialize (Hbody acc x w).
    destruct (body acc x w) as [[a|e] w']; simpl in *; [| assumption].
    eapply Htrans; [exact Hbody | apply IH].
Qed.

(** What [saveBase64Image] does to the world. *)
Lemma saveBase64Image_run (base64 filePath : string) (w : World) :
  saveBase64Image svc base64 filePath w =
  match exec_here jpegDataUri base64 with
  | None =>
      (Ok tt, logged_more w
                [ConsoleError ("Invalid Base64 image format (prefix missing or wrong type): "
                               +:+ substring_to 50 base64)])
  | Some marks =>
      (Ok tt, {| vault := <[filePath := File (decodeBase64 svc (group1 marks))]>
                            (with_folders (ancestors filePath) (vault w));
                 heap := heap w;
                 log := log w ++ [WriteBinary filePath (decodeBase64 svc (group1 marks))] |})
  end.
Proof.
  unfold saveBase64Image. now destruct (exec_here jpegDataUri base64).
Qed.

(** The markdown a loop body returns does not depend on the world. *)
Lemma combineImage_value (md : string) (imgObj : Image) (w : World) :
  fst (combineImage svc pdfBaseName finalImagesPath md imgObj w)
  = Ok (rewriteImage pdfBaseName finalImagesPath md imgObj).
Proof.
  unfold combineImage, rewriteImage.
  destruct (is_placeholder (imageBase64 imgObj)); [reflexivity |].
  unfold bind. rewrite saveBase64Image_run.
  now destruct (exec_here jpegDataUri _).
Qed.

Lemma combinePage_value (acc : string) (page : Page) (w : World) :
  fst (combinePage svc pdfBaseName finalImagesPath acc page w)
  = Ok (emitPage pdfBaseName finalImagesPath acc page).
Proof.
  unfold combinePage, bind.
  pose proof (for_each_value (combineImage svc pdfBaseName finalImagesPath) 
                (rewriteImage pdfBaseName finalImagesPath) combineImage_value
                (default [] (images page)) (default "" (markdown page)) w) as H.
  destruct (for_each _ _ _ w) as [[md|e] w']; simpl in H; [| discriminate].
  now injection H as ->.
Qed.

(** Neither loop touches the heap. *)
Lemma combineImage_heap (md : string) (imgObj : Image) (w : World) :
  heap (snd (combineImage svc pdfBaseName finalImagesPath md imgObj w)) = heap w.
Proof.
  unfold combineImage.
  destruct (is_placeholder (imageBase64 imgObj)); [reflexivity |].
  unfold bind. rewrite saveBase64Image_run.
  now destruct (exec_here jpegDataUri _).
Qed.

Lemma combinePage_heap (acc : string) (page : Page) (w : World) :
  heap (snd (combinePage svc pdfBaseName finalImagesPath acc page w)) = heap w.
Proof.
  unfold combinePage, bind.
  pose proof (for_each_preserves (fun a b => heap b = heap a)
                (combineImage svc pdfBaseName finalImagesPath)
                (fun _ => eq_refl) (fun a b c H1 H2 => eq_trans H2 H1)
                combineImage_heap
                (default [] (images page)) (default "" (markdown page)) w) as H.
  now destruct (for_each _ _ _ w) as [[md|e] w'].
Qed.

(** [combineMarkdownWithImages] on an array of pages: the markdown is the
    one of the pages emitted in sorted order, and the array in the heap is
    the sorted one. *)
Lemma combineMarkdownWithImages_value (ocrResult : nat) (ps : list Page) (w : World) :
  heap w !! ocrResult = Some {| pages := Some ps |} ->
  fst (combineMarkdownWithImages svc ocrResult pdfBaseName finalImagesPath w)
  = Ok (reconciled pdfBaseName finalImagesPath (sort_pages ps)).
Proof.
  intros Hr. unfold combineMarkdownWithImages, bind, get_world. rewrite Hr. simpl.
  apply for_each_value, combinePage_value.
Qed.

Lemma combineMarkdownWithImages_heap (ocrResult : nat) (ps : list Page) (w : World) :
  heap w !! ocrResult = Some {| pages := Some ps |} ->
  heap (snd (combineMarkdownWithImages svc ocrResult pdfBaseName finalImagesPath w))
  = <[ocrResult := {| pages := Some (sort_pages ps) |}]> (heap w).
Proof.
  intros Hr. unfold combineMarkdownWithImages, bind, get_world. rewrite Hr. simpl.
  apply (for_each_preserves (fun a b => heap b = heap a)
           (combinePage svc pdfBaseName finalImagesPath)
           (fun _ => eq_refl) (fun a b c H1 H2 => eq_trans H2 H1) combinePage_heap).
Qed.

End Reconciliation.

(* ===================================================================== *)
(** ** Properties of the methods                                          *)
(* ===================================================================== *)

Section SkippedImages.

Variable svc : Services.
Variables pdfBaseName finalImagesPath : string.

(** An image without payload, with an empty payload or with one that ends
    in "..." is skipped: nothing is written and the markdown is left as it
    is. *)
Lemma placeholder_image_skipped (md originalId : string) (payload : option string)
    (w : World) :
  match payload with
  | None => True
  | Some b => b = "" \/ endsWith b "..." = true
  end ->
  combineImage svc pdfBaseName finalImagesPath md
    {| id := originalId; imageBase64 := payload |} w
  = (Ok md,
     logged_more w [ConsoleWarn ("Skipping empty or placeholder image: " +:+ originalId)]).
Proof.
  intros H. unfold combineImage; simpl.
  assert (E : is_placeholder payload = true).
  { destruct payload as [b|]; [| reflexivity]. simpl.
    destruct H as [->| ->]; [reflexivity | apply orb_true_r]. }
  now rewrite E.
Qed.

(** A payload without the JPEG data-URI prefix writes no file and does not
    make the method fail. *)
Lemma malformed_image_writes_nothing (md : string) (imgObj : Image) (w : World) :
  exec_here jpegDataUri (default "" (imageBase64 imgObj)) = None ->
  let run := combineImage svc pdfBaseName finalImagesPath md imgObj w in
  vault (snd run) = vault w /\ exists md', fst run = Ok md'.
Proof.
  intros Hbad run. subst run. unfold combineImage.
  destruct (is_placeholder (imageBase64 imgObj)); [simpl; eauto |].
  unfold bind. rewrite saveBase64Image_run, Hbad. simpl. eauto.
Qed.

(** Its reference is rewritten all the same: after [saveBase64Image] has
    returned, the loop body cannot tell that nothing was saved. *)
Lemma malformed_image_reference_rewritten (md : string) (imgObj : Image) (w : World) :
  is_placeholder (imageBase64 imgObj) = false ->
  exec_here jpegDataUri (default "" (imageBase64 imgObj)) = None ->
  combineImage svc pdfBaseName finalImagesPath md imgObj w
  = (Ok (replaceAll (imageReference (escapeRegExp (id imgObj)))
           (imageLink pdfBaseName finalImagesPath (id imgObj)) md),
     logged_more w
       [ConsoleError ("Invalid Base64 image format (prefix missing or wrong type): "
                      +:+ substring_to 50 (default "" (imageBase64 imgObj)))]).
Proof.
  intros Hp Hbad. unfold combineImage. rewrite Hp.
  unfold bind. now rewrite saveBase64Image_run, Hbad.
Qed.

End SkippedImages.

Section Commands.

Variable svc : Services.
Variable settings : PDFToMarkdownSettings.

(** With a note called [【Note】name] and the OCR markdown of [name] in the
    vault, the command goes straight to the summarization. *)
Lemma processPdfAndSummarize_existing_markdown
    (activeFile : TFile) (srcBaseName : string) (w : World) :
  getActiveFile svc w = Some activeFile ->
  basename activeFile = "【Note】" +:+ srcBaseName ->
  is_Some (vault w !! targetMdPathOf settings srcBaseName) ->
  processPdfAndSummarize svc settings w
  = summarizeNote svc settings activeFile
      (fileAt (targetMdPathOf settings srcBaseName)) w.
Proof.
  intros Hactive Hname [entry Hentry].
  unfold processPdfAndSummarize, bind, get_world. rewrite Hactive, Hname.
  rewrite strip_prefix_append.
  change (default ("【Note】" +:+ srcBaseName) (Some srcBaseName)) with srcBaseName.
  assert (Hneq : String.eqb srcBaseName ("【Note】" +:+ srcBaseName) = false).
  { apply String.eqb_neq. intros E. apply (f_equal String.length) in E.
    rewrite length_append in E. simpl in E. lia. }
  rewrite Hneq. unfold getAbstractFileByPath. now rewrite Hentry.
Qed.

Lemma bind_Ok {A B} (m : M A) (k : A -> M B) (w w' : World) (b : B) :
  bind m k w = (Ok b, w') ->
  exists a w1, m w = (Ok a, w1) /\ k a w1 = (Ok b, w').
Proof.
  unfold bind. destruct (m w) as [[a|e] w1]; [eauto | discriminate].
Qed.

(** A call of [processPDFInternal] that returns after passing the guard has
    created the markdown file, last of all, at the guarded path. *)
Lemma processPDFInternal_creates_target
    (pdfContent pdfBaseName originalFileName : string) (w w' : World) :
  vault w !! targetMdPathOf settings pdfBaseName = None ->
  processPDFInternal svc settings pdfContent pdfBaseName originalFileName w
  = (Ok tt, w') ->
  exists finalMd w1,
    vault w' = <[targetMdPathOf settings pdfBaseName := File finalMd]> (vault w1)
    /\ log w' = log w1 ++ [Create (targetMdPathOf settings pdfBaseName) finalMd].
Proof.
  intros Hfree Hrun. unfold processPDFInternal in Hrun.
  apply bind_Ok in Hrun as (existing & w0 & Hget & Hrun).
  unfold getAbstractFileByPath in Hget. injection Hget as <- <-.
  rewrite Hfree in Hrun.
  destruct (String.eqb (trim (mistralApiKey settings)) ""); [discriminate Hrun |].
  do 7 (apply bind_Ok in Hrun as (? & ? & _ & Hrun)).
  unfold vault_create in Hrun.
  apply bind_Ok in Hrun as (wc & w1 & Hget & Hrun).
  unfold get_world in Hget. injection Hget as E1 E2. subst wc w1.
  match type of Hrun with
  | context [vault ?v !! ?p] => destruct (vault v !! p)
  end; [discriminate Hrun |].
  injection Hrun as <-. eauto.
Qed.

End Commands.

Section BatchAccounting.

Import Batch.

Context {Doc : Type}.
Implicit Types (s : State Doc) (ws : list (Worker Doc)) (docs : list Doc).

Lemma awaiting_app ws1 ws2 : awaiting (ws1 ++ ws2) = awaiting ws1 + awaiting ws2.
Proof.
  induction ws1 as [|[d|] ws1 IH]; simpl; [reflexivity | |]; now rewrite IH.
Qed.

Lemma awaiting_insert ws (i : nat) (d : Doc) (w : Worker Doc) :
  ws !! i = Some (Awaiting d) ->
  awaiting (<[i := w]> ws) + 1 = awaiting ws + awaiting [w].
Proof.
  revert i; induction ws as [|x ws IH]; intros [|i] H; simpl in *;
    try discriminate.
  - injection H as ->. destruct w; simpl; lia.
  - specialize (IH i H). destruct x; simpl; lia.
Qed.

Lemma Exists_insert ws (i : nat) (w : Worker Doc) (P : Worker Doc -> Prop) :
  Exists P (<[i := w]> ws) -> P w \/ Exists P ws.
Proof.
  revert i; induction ws as [|x ws IH]; intros [|i] H; simpl in *;
    try (now right).
  - apply Exists_cons in H as [H|H]; [now left | right; now apply Exists_cons_tl].
  - apply Exists_cons in H as [H|H]; [right; now apply Exists_cons_hd |].
    destruct (IH i H) as [?|?]; [now left | right; now apply Exists_cons_tl].
Qed.

Lemma awaiting_zero ws : awaiting ws = 0 <-> Forall (fun w => w = Finished) ws.
Proof.
  induction ws as [|[d|] ws IH]; simpl.
  - split; [constructor | reflexivity].
  - split; [discriminate | intros H; inversion H; discriminate].
  - rewrite IH. split; [now constructor | intros H; now inversion H].
Qed.

Lemma find_awaiting ws :
  ~ Forall (fun w => w = Finished) ws -> exists i d, ws !! i = Some (Awaiting d).
Proof.
  induction ws as [|[d|] ws IH]; intros H.
  - elim H; constructor.
  - now exists 0, d.
  - destruct IH as (i & d & Hi).
    + intros HF. apply H. now constructor.
    + now exists (S i), d.
Qed.

Lemma spawn_worker_inv docs (k : nat) s :
  batch_inv docs k s -> batch_inv docs (S k) (spawn_worker s).
Proof.
  intros [Hsplit Hcount Hdrained Hlen]. unfold spawn_worker, enter_loop.
  destruct (queue s) as [|d q] eqn:Eq; constructor; simpl.
  - now rewrite app_nil_r in *.
  - rewrite awaiting_app; simpl; lia.
  - reflexivity.
  - rewrite length_app; simpl; lia.
  - now rewrite <- app_assoc.
  - rewrite awaiting_app, length_app; simpl; lia.
  - intros H. apply Exists_app in H as [H|H].
    + now specialize (Hdrained H).
    + apply Exists_cons in H as [H|H]; [discriminate | now inversion H].
  - rewrite length_app; simpl; lia.
Qed.

Lemma spawn_inv docs (n k : nat) s :
  batch_inv docs k s -> batch_inv docs (n + k) (spawn n s).
Proof.
  revert k s; induction n as [|n IH]; intros k s H; simpl; [assumption |].
  replace (S (n + k)) with (n + S k) by lia.
  now apply IH, spawn_worker_inv.
Qed.

Lemma start_inv docs (concurrencyLimit : nat) :
  batch_inv docs concurrencyLimit (start docs concurrencyLimit).
Proof.
  unfold start. replace concurrencyLimit with (concurrencyLimit + 0) at 1 by lia.
  apply spawn_inv. constructor; simpl; try reflexivity.
  intros H; now inversion H.
Qed.

Lemma settle_inv docs (k i : nat) (ok : bool) s s' :
  batch_inv docs k s -> settle i ok s = Some s' -> batch_inv docs k s'.
Proof.
  intros [Hsplit Hcount Hdrained Hlen]. unfold settle, enter_loop.
  destruct (workers s !! i) as [[d|]|] eqn:Hi; try discriminate.
  pose proof (awaiting_insert (workers s) i d) as Hins.
  destruct (queue s) as [|d' q] eqn:Eq; intros [= <-]; constructor; simpl.
  - now rewrite app_nil_r in *.
  - specialize (Hins Finished Hi). simpl in Hins. destruct ok; lia.
  - reflexivity.
  - now rewrite length_insert.
  - now rewrite <- app_assoc.
  - specialize (Hins (Awaiting d') Hi). simpl in Hins.
    rewrite length_app; simpl. destruct ok; lia.
  - intros H. apply Exists_insert in H as [H|H]; [discriminate |].
    now specialize (Hdrained H).
  - now rewrite length_insert.
Qed.

Lemma spawn_worker_pending s : pending (spawn_worker s) = pending s.
Proof.
  unfold pending, spawn_worker, enter_loop.
  destruct (queue s); simpl; rewrite awaiting_app; simpl; lia.
Qed.

Lemma spawn_pending (n : nat) s : pending (spawn n s) = pending s.
Proof.
  revert s; induction n as [|n IH]; intros s; simpl; [reflexivity |].
  now rewrite IH, spawn_worker_pending.
Qed.

Lemma spawn_counts (n : nat) s :
  successCount (spawn n s) = successCount s
  /\ failureCount (spawn n s) = failureCount s.
Proof.
  revert s; induction n as [|n IH]; intros s; simpl; [now split |].
  destruct (IH (spawn_worker s)) as [-> ->].
  unfold spawn_worker, enter_loop. now destruct (queue s).
Qed.

(** A settlement counts one document, as a success or as a failure. *)
Lemma settle_counts (i : nat) (ok : bool) s s' :
  settle i ok s = Some s' ->
  pending s' + 1 = pending s
  /\ successCount s' = successCount s + (if ok then 1 else 0)
  /\ failureCount s' = failureCount s + (if ok then 0 else 1).
Proof.
  unfold settle, enter_loop, pending.
  destruct (workers s !! i) as [[d|]|] eqn:Hi; try discriminate.
  pose proof (awaiting_insert (workers s) i d) as Hins.
  destruct (queue s) as [|d' q]; intros [= <-]; simpl.
  - specialize (Hins Finished Hi). simpl in Hins. destruct ok; lia.
  - specialize (Hins (Awaiting d') Hi). simpl in Hins. destruct ok; lia.
Qed.

Lemma run_inv docs (k : nat) (schedule : list (nat * bool)) s s' :
  batch_inv docs k s -> run schedule s = Some s' ->
  batch_inv docs k s'
  /\ pending s' + length schedule = pending s
  /\ successCount s'
     = successCount s + length (filter (fun x => snd x = true) schedule)
  /\ failureCount s'
     = failureCount s + length (filter (fun x => snd x = false) schedule).
Proof.
  revert s; induction schedule as [|[i ok] schedule IH]; intros s Hinv; simpl.
  - intros [= <-]. split; [assumption |]. repeat split; lia.
  - destruct (settle i ok s) as [s1|] eqn:E; [| discriminate].
    intros Hrun. destruct (settle_counts _ _ _ _ E) as (Hp & Hs & Hf).
    destruct (IH s1 (settle_inv _ _ _ _ _ _ Hinv E) Hrun) as (Hinv' & Hp' & Hs' & Hf').
    split; [assumption |]. rewrite !filter_cons; simpl.
    destruct ok; repeat case_decide; try discriminate; try congruence;
      simpl length; repeat split; lia.
Qed.

End BatchAccounting.

Section Summarizer.

Lemma logged_more_more (w : World) (a b : list Event) :
  logged_more (logged_more w a) b = logged_more w (a ++ b).
Proof. unfold logged_more; simpl. now rewrite <- app_assoc. Qed.

Lemma logged_more_nil (w : World) : logged_more w [] = w.
Proof. destruct w. unfold logged_more; simpl. now rewrite app_nil_r. Qed.

Lemma emit_logged (e : Event) (w : World) : emit e w = (Ok tt, logged_more w [e]).
Proof. reflexivity. Qed.

Variable gen : World -> string -> Result GenResult.
Variable promptMap : PromptMap.
Variable srcContent : string.

(** One turn of the loop whose generation call resolves. *)
Lemma summarizeKeys_resolved (m : MatchInfo) (rest : list MatchInfo)
    (noteContent : string) (w : World) (result : GenResult) :
  gen (logged_more w [Generate (promptTextOf promptMap srcContent m)])
      (promptTextOf promptMap srcContent m) = Ok result ->
  summarizeKeys gen promptMap srcContent (m :: rest) noteContent w
  = summarizeKeys gen promptMap srcContent rest
      (replaceString (fullMatch m) (summaryTextOf result) noteContent)
      (logged_more w [Generate (promptTextOf promptMap srcContent m)]).
Proof.
  intros H. simpl. unfold bind. rewrite emit_logged. unfold get_world.
  now rewrite H.
Qed.

(** One turn of the loop whose generation call is rejected. *)
Lemma summarizeKeys_rejected (m : MatchInfo) (rest : list MatchInfo)
    (noteContent : string) (w : World) (e : Exn) :
  gen (logged_more w [Generate (promptTextOf promptMap srcContent m)])
      (promptTextOf promptMap srcContent m) = Throw e ->
  summarizeKeys gen promptMap srcContent (m :: rest) noteContent w
  = (Ok None,
     logged_more w [Generate (promptTextOf promptMap srcContent m);
                    Notice ("APIエラー: " +:+ messageOf e)]).
Proof.
  intros H. simpl. unfold bind. rewrite emit_logged. unfold get_world.
  rewrite H, emit_logged. unfold ret. now rewrite logged_more_more.
Qed.

Lemma call_outcome_head (m : MatchInfo) (rest : list MatchInfo) (w : World) :
  call_outcome gen promptMap srcContent (m :: rest) w 0
  = Some (gen (logged_more w [Generate (promptTextOf promptMap srcContent m)])
              (promptTextOf promptMap srcContent m)).
Proof. reflexivity. Qed.

Lemma call_outcome_tail (m : MatchInfo) (rest : list MatchInfo) (w : World) (k : nat) :
  call_outcome gen promptMap srcContent (m :: rest) w (S k)
  = call_outcome gen promptMap srcContent rest
      (logged_more w [Generate (promptTextOf promptMap srcContent m)]) k.
Proof.
  unfold call_outcome. simpl lookup.
  destruct (rest !! k); [| reflexivity]. simpl. now rewrite logged_more_more.
Qed.

(** The loop stops at the first rejected call: the later matches are not
    processed and nothing but the requests made and the error notice
    happens. *)
Lemma summarizeKeys_first_failure (ms : list MatchInfo) :
  forall (noteContent : string) (w : World) (k : nat) (e : Exn),
    (forall j, j < k -> resolved (call_outcome gen promptMap srcContent ms w j)) ->
    call_outcome gen promptMap srcContent ms w k = Some (Throw e) ->
    summarizeKeys gen promptMap srcContent ms noteContent w
    = (Ok None,
       logged_more w (generate_events promptMap srcContent (take (S k) ms)
                      ++ [Notice ("APIエラー: " +:+ messageOf e)])).
Proof.
  induction ms as [|m rest IH]; intros noteContent w k e Hbefore Hk.
  - discriminate Hk.
  - destruct k as [|k].
    + rewrite call_outcome_head in Hk. injection Hk as Hk.
      now rewrite (summarizeKeys_rejected _ _ _ _ _ Hk).
    + pose proof (Hbefore 0 ltac:(lia)) as H0. rewrite call_outcome_head in H0.
      destruct (gen _ _) as [result|] eqn:E; [| contradiction].
      rewrite (summarizeKeys_resolved _ _ _ _ _ E).
      rewrite call_outcome_tail in Hk.
      rewrite (IH _ _ k e); [now rewrite logged_more_more | | exact Hk].
      intros j Hj. rewrite <- call_outcome_tail. apply Hbefore. lia.
Qed.

(** When every call resolves the loop goes through all the matches. *)
Lemma summarizeKeys_all_resolved (ms : list MatchInfo) :
  forall (noteContent : string) (w : World),
    (forall j, j < length ms ->
               resolved (call_outcome gen promptMap srcContent ms w j)) ->
    exists noteContent',
      summarizeKeys gen promptMap srcContent ms noteContent w
      = (Ok (Some noteContent'),
         logged_more w (generate_events promptMap srcContent ms)).
Proof.
  induction ms as [|m rest IH]; intros noteContent w Hall.
  - exists noteContent. simpl. unfold ret. now rewrite logged_more_nil.
  - pose proof (Hall 0 ltac:(simpl; lia)) as H0. rewrite call_outcome_head in H0.
    destruct (gen _ _) as [result|] eqn:E; [| contradiction].
    rewrite (summarizeKeys_resolved _ _ _ _ _ E).
    destruct (IH (replaceString (fullMatch m) (summaryTextOf result) noteContent)
                 (logged_more w [Generate (promptTextOf promptMap srcContent m)]))
      as [note' Hnote'].
    + intros j Hj. rewrite <- call_outcome_tail. apply Hall. simpl; lia.
    + exists note'. now rewrite Hnote', logged_more_more.
Qed.

End Summarizer.

Section SummarizerRuns.

Lemma vault_read_file (f : TFile) (data : string) (w : World) :
  vault w !! path f = Some (File data) -> vault_read f w = (Ok data, w).
Proof. intros H. unfold vault_read, bind, get_world. now rewrite H. Qed.

Lemma filter_none {A} (P : A -> Prop) `{forall x, Decision (P x)} (l : list A) :
  (forall x, x ∈ l -> ~ P x) -> filter P l = [].
Proof.
  induction l as [|x l IH]; intros Hl; [reflexivity |].
  rewrite filter_cons. case_decide as Hx.
  - elim (Hl x); [left | exact Hx].
  - apply IH. intros y Hy. apply Hl. now right.
Qed.

End SummarizerRuns.

Section PromptKeys.

Lemma set_property_keys (o : PromptMap) (k v k0 : string) :
  k0 ∈ map fst (set_property o k v) <-> k0 = k \/ k0 ∈ map fst o.
Proof.
  induction o as [|[k' v'] o IH]; simpl.
  - rewrite list_elem_of_singleton, elem_of_nil. tauto.
  - destruct (String.eqb_spec k' k) as [->|Hne]; simpl;
      rewrite !elem_of_cons; [tauto |]. rewrite IH. tauto.
Qed.

Lemma buildPromptMap_keys (items : list SummaryPromptItem) (k : string) :
  k ∈ map fst (buildPromptMap items)
  <-> k <> "__proto__" /\ exists item, item ∈ items /\ keyComment item = k.
Proof.
  unfold buildPromptMap.
  assert (G : forall acc,
             k ∈ map fst (fold_left
                            (fun o item =>
                               if String.eqb (keyComment item) "__proto__" then o
                               else set_property o (keyComment item) (prompt item))
                            items acc)
             <-> k ∈ map fst acc
                 \/ (k <> "__proto__"
                     /\ exists item, item ∈ items /\ keyComment item = k)).
  { induction items as [|item items IH]; intros acc; simpl.
    - split; [now left | intros [?|(_ & item & Hin & _)]; [assumption |]].
      now apply elem_of_nil in Hin.
    - rewrite IH. destruct (String.eqb_spec (keyComment item) "__proto__") as [E|E].
      + split.
        * intros [?|(Hk & it & Hin & Hit)]; [now left | right].
          split; [assumption |]. exists it. split; [now right | assumption].
        * intros [?|(Hk & it & Hin & Hit)]; [now left |].
          apply elem_of_cons in Hin as [->|Hin]; [congruence | right].
          split; [assumption |]. now exists it.
      + rewrite set_property_keys. split.
        * intros [[->|?]|(Hk & it & Hin & Hit)].
          -- right. split; [assumption |]. exists item. split; [now left | reflexivity].
          -- now left.
          -- right. split; [assumption |]. exists it. split; [now right | assumption].
        * intros [?|(Hk & it & Hin & Hit)]; [left; now right |].
          apply elem_of_cons in Hin as [->|Hin]; [left; left; now symmetry |].
          right. split; [assumption |]. now exists it. }
  rewrite G. simpl. rewrite elem_of_nil. tauto.
Qed.

Lemma insert_index_perm (k : N * string) (l : list (N * string)) :
  Permutation (insert_index k l) (k :: l).
Proof.
  induction l as [|k' l IH]; simpl; [reflexivity |].
  destruct (fst k' <? fst k)%N; [| reflexivity].
  rewrite IH. apply perm_swap.
Qed.

Lemma sorted_indices_perm (l : list (N * string)) :
  Permutation (foldr insert_index [] l) l.
Proof.
  induction l as [|k l IH]; simpl; [reflexivity |].
  now rewrite insert_index_perm, IH.
Qed.

(** [Object.keys] lists every own key, whatever the order. *)
Lemma Object_keys_elem (o : PromptMap) (k : string) :
  k ∈ Object_keys o <-> k ∈ map fst o.
Proof.
  unfold Object_keys. rewrite elem_of_app, sorted_indices_perm.
  rewrite list_elem_of_filter.
  set (ks := map fst o). split.
  - intros [H|[_ H]]; [| assumption].
    apply list_elem_of_fmap in H as ([n k'] & -> & H).
    apply list_elem_of_omap in H as (k0 & Hk0 & H).
    destruct (array_index k0); simpl in H; [| discriminate].
    now injection H as _ ->.
  - intros H. destruct (array_index k) as [n|] eqn:E; [left | now right].
    apply list_elem_of_fmap. exists (n, k). split; [reflexivity |].
    apply list_elem_of_omap. exists k. split; [assumption |]. now rewrite E.
Qed.

(** The keys of the prompt map are the configured key comments (a key
    comment [__proto__] apart). *)
Lemma configured_keys (settings : PDFToMarkdownSettings) (k : string) :
  k ∈ Object_keys (promptMapOf settings)
  <-> k <> "__proto__"
      /\ exists item, item ∈ summaryPrompts settings /\ keyComment item = k.
Proof. unfold promptMapOf. now rewrite Object_keys_elem, buildPromptMap_keys. Qed.

End PromptKeys.

Section Markers.

Lemma matchAll_go_first_char (c : ascii) (l : string) (r : regex) (s : string) :
  forall (skip : nat) (m : string * list string),
    m ∈ matchAll_go (Lit (String c l) :: r) s skip ->
    fst m = "" \/ exists rest, fst m = String c rest.
Proof.
  induction s as [|x s IH]; intros skip m Hm.
  - destruct skip; simpl in Hm; now apply elem_of_nil in Hm.
  - destruct skip as [|k]; [| exact (IH k m Hm)].
    cbn [matchAll_go] in Hm.
    destruct (exec_here (Lit (String c l) :: r) (String x s)) as [marks|] eqn:E;
      [| exact (IH 0 m Hm)].
    apply elem_of_cons in Hm as [->|Hm]; [| exact (IH _ m Hm)].
    cbn [exec_here strip_prefix] in E.
    destruct (Ascii.eqb_spec c x) as [->|]; [| discriminate E].
    cbn [fst].
    destruct (String.length (String x s) - String.length (match_rest marks));
      [now left | right; simpl; eauto].
Qed.

(** The comment text of a marker starts with [<], so it is not the
    replacement pattern [$&]. *)
Lemma marker_text_is_not_a_pattern (settings : PDFToMarkdownSettings)
    (noteContent : string) (m : MatchInfo) :
  m ∈ validMatchesOf settings noteContent -> fullMatch m <> "$&".
Proof.
  unfold validMatchesOf. intros Hm.
  apply list_elem_of_omap in Hm as (k & _ & Hm).
  destruct (find _ _) as [m0|] eqn:Hfind; [| discriminate Hm].
  injection Hm as <-. cbn [fullMatch].
  apply find_some in Hfind as [Hin _].
  apply list_elem_of_In in Hin.
  destruct (matchAll_go_first_char "<" "!--" _ _ 0 m0 Hin) as [E|[rest E]];
    rewrite E; discriminate.
Qed.

End Markers.

Section FirstOccurrence.

Lemma occurs_at_head (needle rest : string) : occurs_at needle (needle +:+ rest) 0.
Proof. now exists "", rest. Qed.

Lemma occurs_at_skip (needle s : string) (c : ascii) (n : nat) :
  occurs_at needle s n -> occurs_at needle (String c s) (S n).
Proof.
  intros (before & after & -> & <-). now exists (String c before), after.
Qed.

Lemma split_first_eq (needle read s : string) :
  split_first needle read s =
  match strip_prefix needle s with
  | Some after => Some (read, after)
  | None => match s with
            | EmptyString => None
            | String c s' => split_first needle (read +:+ String c "") s'
            end
  end.
Proof. now destruct s. Qed.

(** [split_first] finds the first occurrence. *)
Lemma split_first_first (needle before after : string) :
  (forall n, occurs_at needle (before +:+ needle +:+ after) n ->
             String.length before <= n) ->
  forall read,
    split_first needle read (before +:+ needle +:+ after)
    = Some (read +:+ before, after).
Proof.
  induction before as [|c before IH]; intros Hmin read.
  - now rewrite append_nil_l, split_first_eq, strip_prefix_append, append_nil_r.
  - rewrite append_cons.
    assert (Hnot : strip_prefix needle (String c (before +:+ needle +:+ after)) = None).
    { destruct (strip_prefix needle _) as [rest|] eqn:E; [| reflexivity].
      apply strip_prefix_Some in E.
      specialize (Hmin 0). rewrite append_cons, E in Hmin.
      specialize (Hmin (occurs_at_head needle rest)). simpl in Hmin. lia. }
    rewrite split_first_eq, Hnot, IH.
    + now rewrite append_snoc.
    + intros n Hn. specialize (Hmin (S n)). rewrite append_cons in Hmin.
      specialize (Hmin (occurs_at_skip _ _ c n Hn)). simpl in Hmin. lia.
Qed.

Lemma append_cancel_r (x y b : string) : x +:+ b = y +:+ b -> x = y.
Proof.
  revert y; induction x as [|c x IH]; intros [|d y] H.
  - reflexivity.
  - apply (f_equal String.length) in H.
    rewrite append_nil_l, append_cons in H. simpl in H.
    rewrite length_append in H. lia.
  - apply (f_equal String.length) in H.
    rewrite append_nil_l, append_cons in H. simpl in H.
    rewrite length_append in H. lia.
  - rewrite !append_cons in H. injection H as -> H. f_equal. now apply IH.
Qed.

Lemma GetSubstitution_append_plain (m b a t1 t2 : string) :
  contains "$" t1 = false ->
  GetSubstitution m b a (t1 +:+ t2) = t1 +:+ GetSubstitution m b a t2.
Proof.
  induction t1 as [|c t1 IH]; [reflexivity |]. simpl.
  intros H. apply orb_false_elim in H as [Hc Ht].
  rewrite !append_cons. rewrite <- (IH Ht).
  destruct (Ascii.eqb_spec c "$") as [->|Hne]; [discriminate |].
  simpl.
  destruct c as [[] [] [] [] [] [] [] []]; try reflexivity. now elim Hne.
Qed.

End FirstOccurrence.

(* ===================================================================== *)
(** ** The claims                                                         *)
(* ===================================================================== *)

Section Ingestion.

(** C1. With [out/doc.md] in the vault, [processPDFInternal] shows its own
    notice, [Error: ... already exists. Processing stopped.], and then
    returns normally where the other failures of the method raise: the
    error does not reach the caller, and [processPDFfromTFile] goes on to
    announce success. *)
Lemma C1_existing_markdown_is_not_a_failure :
  is_Some (vault Examples.world_with_markdown
           !! targetMdPathOf (Examples.settings_with "out" []) "doc")
  /\ ~ (exists e,
         fst (processPDFInternal (Examples.services {| pages := None |} None None)
                (Examples.settings_with "out" []) "%PDF" "doc" "doc.pdf"
                Examples.world_with_markdown) = Throw e)
  /\ processPDFfromTFile (Examples.services {| pages := None |} None None)
       (Examples.settings_with "out" []) Examples.pdf_file
       Examples.world_with_markdown
     = (Ok tt,
        logged_more Examples.world_with_markdown
          [Notice "Starting: doc.pdf";
           Notice ("Error: " +:+ dq +:+ "out/doc.md" +:+ dq
                   +:+ " already exists. Processing stopped.");
           Notice "Success: doc.pdf"]).
Proof.
  split; [| split].
  - vm_compute. eauto.
  - intros [e He]. vm_compute in He. discriminate He.
  - vm_compute. reflexivity.
Qed.

(** The rest of what is asked of the guard holds. When the destination
    path, built from the trimmed folder setting, already holds something,
    [processPDFInternal] stops before any other effect: the vault is
    unchanged (no image written, nothing overwritten), and the only new
    event is the notice (no upload, no OCR request, no folder created). *)
Lemma existing_markdown_stops_ingestion
    (svc : Services) (settings : PDFToMarkdownSettings)
    (pdfContent pdfBaseName originalFileName : string)
    (w : World) (existing : Entry) :
  let mdFolder := trim (markdownOutputFolder settings) in
  let targetMdPath :=
    if String.eqb mdFolder "" then pdfBaseName +:+ ".md"
    else mdFolder +:+ "/" +:+ pdfBaseName +:+ ".md" in
  vault w !! targetMdPath = Some existing ->
  let run := processPDFInternal svc settings pdfContent pdfBaseName originalFileName w in
  run = (Ok tt,
         logged_more w
           [Notice ("Error: " +:+ dq +:+ targetMdPath +:+ dq
                    +:+ " already exists. Processing stopped.")])
  /\ vault (snd run) = vault w
  /\ vault (snd run) !! targetMdPath = Some existing.
Proof.
  intros mdFolder targetMdPath Hex run.
  assert (E : run = (Ok tt,
                     logged_more w
                       [Notice ("Error: " +:+ dq +:+ targetMdPath +:+ dq
                                +:+ " already exists. Processing stopped.")])).
  { subst run. unfold processPDFInternal, bind, getAbstractFileByPath.
    change (targetMdPathOf settings pdfBaseName) with targetMdPath.
    now rewrite Hex. }
  rewrite E. repeat split. exact Hex.
Qed.

End Ingestion.

Section Scenario.

(** C2, as stated, fails for an images folder written with a backslash: the
    link carries the path with forward slashes. (A folder name with [$$]
    does not come out as it is either: the link is expanded as a
    replacement pattern.) *)
Lemma C2_backslash_folder_differs :
  fst (combineMarkdownWithImages (Examples.services {| pages := None |} None None)
         0 "doc" "assets\img"
         (Examples.world_with_pages
            (Examples.scenario_pages Examples.jpeg_payload None)))
  <> Ok ("A ![[" +:+ "assets\img" +:+ "/doc_img-0.jpeg]]" +:+ blank_line
         +:+ "B" +:+ blank_line)
  /\ fst (combineMarkdownWithImages (Examples.services {| pages := None |} None None)
            0 "doc" "cost$$"
            (Examples.world_with_pages
               (Examples.scenario_pages Examples.jpeg_payload None)))
     = Ok ("A ![[" +:+ "cost$" +:+ "/doc_img-0.jpeg]]" +:+ blank_line
           +:+ "B" +:+ blank_line).
Proof. split; vm_compute; [intros [=] | reflexivity]. Qed.

Lemma scenario_link (finalImagesPath : string) :
  imageLink "doc" finalImagesPath "img-0.jpeg"
  = "![[" +:+ slashed finalImagesPath +:+ "/doc_img-0.jpeg]]".
Proof.
  unfold imageLink, imageFilePathOf.
  rewrite forwardSlashes_slashed, slashed_append, append_assoc.
  reflexivity.
Qed.

Lemma scenario_rewrite (link : string) :
  replaceAllBy (imageReference (escapeRegExp "img-0.jpeg")) (fun _ _ _ => link)
    "A ![img](img-0.jpeg)"
  = "A " +:+ link.
Proof.
  rewrite imageReference_literal.
  unfold replaceAllBy. cbv - [String.append].
  now rewrite append_nil_r.
Qed.

(** C2 (amended). The scenario of the specification: pages given in the
    order [1, 0], page 0 holding one image whose payload is not a
    placeholder (a valid JPEG data URI is not). For an images folder
    without dollar sign the result is "A ![[P/doc_img-0.jpeg]]\n\nB\n\n"
    with P the images folder, its backslashes turned into forward slashes;
    so P is the images folder itself when that has no backslash. *)
Theorem C2_scenario_output
    (svc : Services) (finalImagesPath payload : string)
    (imgs : option (list Image)) (ocrResult : nat) (w : World) :
  heap w !! ocrResult
  = Some {| pages := Some (Examples.scenario_pages payload imgs) |} ->
  default [] imgs = [] ->
  is_placeholder (Some payload) = false ->
  contains "$" finalImagesPath = false ->
  fst (combineMarkdownWithImages svc ocrResult "doc" finalImagesPath w)
  = Ok ("A ![[" +:+ slashed finalImagesPath +:+ "/doc_img-0.jpeg]]" +:+ blank_line
        +:+ "B" +:+ blank_line)
  /\ (contains "\" finalImagesPath = false ->
      fst (combineMarkdownWithImages svc ocrResult "doc" finalImagesPath w)
      = Ok ("A ![[" +:+ finalImagesPath +:+ "/doc_img-0.jpeg]]" +:+ blank_line
            +:+ "B" +:+ blank_line)).
Proof.
  intros Hheap Himgs Hpayload Hdollar.
  assert (E : fst (combineMarkdownWithImages svc ocrResult "doc" finalImagesPath w)
              = Ok ("A ![[" +:+ slashed finalImagesPath +:+ "/doc_img-0.jpeg]]"
                    +:+ blank_line +:+ "B" +:+ blank_line)).
  { rewrite (combineMarkdownWithImages_value _ _ _ _ _ _ Hheap).
    f_equal.
    change (sort_pages (Examples.scenario_pages payload imgs))
      with [Examples.page_A (Some payload); Examples.page_B imgs].
    unfold reconciled, emitPage, pageMarkdown; simpl.
    rewrite Himgs; simpl.
    unfold rewriteImage; cbn [id imageBase64]. rewrite Hpayload.
    rewrite replaceAll_plain, scenario_rewrite, scenario_link.
    - now rewrite !append_assoc.
    - rewrite scenario_link, !contains_append, slashed_dollar, Hdollar. reflexivity. }
  split; [exact E |].
  intros Hplain. now rewrite E, (slashed_id _ Hplain).
Qed.

Lemma C2_scenario_output_witness :
  fst (combineMarkdownWithImages (Examples.services {| pages := None |} None None)
         0 "doc" "pdf-mistral-images"
         (Examples.world_with_pages
            (Examples.scenario_pages Examples.jpeg_payload None)))
  = Ok ("A ![[" +:+ "pdf-mistral-images" +:+ "/doc_img-0.jpeg]]" +:+ blank_line
        +:+ "B" +:+ blank_line).
Proof.
  apply (C2_scenario_output (Examples.services {| pages := None |} None None)
           "pdf-mistral-images" Examples.jpeg_payload None 0
           (Examples.world_with_pages
              (Examples.scenario_pages Examples.jpeg_payload None)));
    reflexivity.
Defined.

End Scenario.

Section PageOrder.

(** C3, as stated, fails: two pages with the same index come out in the
    order they came in, so exchanging them changes the result. *)
Lemma C3_tied_pages_follow_input_order :
  Permutation [Examples.tie_first; Examples.tie_second]
              [Examples.tie_second; Examples.tie_first]
  /\ fst (combineMarkdownWithImages (Examples.services {| pages := None |} None None)
            0 "doc" "imgs"
            (Examples.world_with_pages [Examples.tie_first; Examples.tie_second]))
     <> fst (combineMarkdownWithImages (Examples.services {| pages := None |} None None)
               0 "doc" "imgs"
               (Examples.world_with_pages [Examples.tie_second; Examples.tie_first])).
Proof.
  split; [apply perm_swap |]. vm_compute. intros [=].
Qed.

(** C3 (amended). The pages are emitted sorted by index, pages of equal
    index in their input order; when the indices are pairwise distinct, the
    reconciled markdown is the same for every permutation of the input. *)
Theorem C3_sorted_emission_and_order_invariance
    (svc : Services) (pdfBaseName finalImagesPath : string)
    (ps1 : list Page) (r1 : nat) (w1 : World) :
  heap w1 !! r1 = Some {| pages := Some ps1 |} ->
  (exists emitted,
      fst (combineMarkdownWithImages svc r1 pdfBaseName finalImagesPath w1)
      = Ok (reconciled pdfBaseName finalImagesPath emitted)
      /\ Sorted by_index emitted
      /\ Permutation emitted ps1
      /\ forall k, filter (fun p => index p = k) emitted
                   = filter (fun p => index p = k) ps1)
  /\ (forall (ps2 : list Page) (r2 : nat) (w2 : World),
         heap w2 !! r2 = Some {| pages := Some ps2 |} ->
         Permutation ps1 ps2 ->
         List.NoDup (map index ps1) ->
         fst (combineMarkdownWithImages svc r1 pdfBaseName finalImagesPath w1)
         = fst (combineMarkdownWithImages svc r2 pdfBaseName finalImagesPath w2)).
Proof.
  intros H1. split.
  - exists (sort_pages ps1). split; [| split; [| split]].
    + now apply combineMarkdownWithImages_value.
    + apply sort_pages_sorted.
    + apply sort_pages_perm.
    + intros k. apply sort_pages_stable.
  - intros ps2 r2 w2 H2 Hperm Hnd.
    rewrite (combineMarkdownWithImages_value _ _ _ _ _ _ H1),
            (combineMarkdownWithImages_value _ _ _ _ _ _ H2).
    now rewrite (sort_pages_permutation _ _ Hperm Hnd).
Qed.

Lemma C3_sorted_emission_and_order_invariance_witness :
  fst (combineMarkdownWithImages (Examples.services {| pages := None |} None None)
         0 "doc" "imgs"
         (Examples.world_with_pages
            (Examples.scenario_pages Examples.jpeg_payload None)))
  = fst (combineMarkdownWithImages (Examples.services {| pages := None |} None None)
           0 "doc" "imgs"
           (Examples.world_with_pages
              (rev (Examples.scenario_pages Examples.jpeg_payload None)))).
Proof.
  refine (proj2 (C3_sorted_emission_and_order_invariance
                   (Examples.services {| pages := None |} None None) "doc" "imgs"
                   (Examples.scenario_pages Examples.jpeg_payload None) 0
                   (Examples.world_with_pages
                      (Examples.scenario_pages Examples.jpeg_payload None))
                   eq_refl)
                (rev (Examples.scenario_pages Examples.jpeg_payload None)) 0
                (Examples.world_with_pages
                   (rev (Examples.scenario_pages Examples.jpeg_payload None)))
                eq_refl _ _).
  - apply perm_swap.
  - repeat constructor; simpl; intuition discriminate.
Defined.

End PageOrder.

Section MalformedPayload.

(** C4 at the failing input: an image whose payload has a PNG prefix. No
    file is written and the method returns, but the reference in the
    markdown is rewritten all the same, to a file that does not exist. *)
Theorem C4_malformed_payload_reference_is_rewritten :
  let run :=
    combineMarkdownWithImages (Examples.services {| pages := None |} None None)
      0 "doc" "imgs" (Examples.world_with_pages [Examples.png_page]) in
  exec_here jpegDataUri "data:image/png;base64,AAAA" = None
  /\ fst run = Ok ("![[imgs/doc_img-0.jpeg]]" +:+ blank_line)
  /\ vault (snd run) = ∅
  /\ log (snd run)
     = [ConsoleError ("Invalid Base64 image format (prefix missing or wrong type): "
                      +:+ "data:image/png;base64,AAAA")].
Proof. vm_compute. repeat split. Qed.

End MalformedPayload.

Section BatchClaim.

Import Batch.

(** C5. A batch over [selectedFiles] with at least one worker, whatever the
    order in which the ingestions settle and whatever their outcomes: once
    every worker has left its loop, [successCount + failureCount] is the
    number of selected files and [processPDFfromTFile] has been called on
    each selected file exactly once, in queue order. That moment comes
    exactly when as many ingestions have settled as files were selected;
    until then some worker is suspended and can be resumed; the two
    counters count the resolved and the rejected ingestions. *)
Theorem C5_batch_accounting {Doc : Type}
    (selectedFiles : list Doc) (concurrencyLimit : nat)
    (schedule : list (nat * bool)) (s : State Doc) :
  1 <= concurrencyLimit ->
  run schedule (start selectedFiles concurrencyLimit) = Some s ->
  (all_finished s ->
   successCount s + failureCount s = length selectedFiles
   /\ started s = selectedFiles)
  /\ (all_finished s <-> length schedule = length selectedFiles)
  /\ successCount s = length (filter (fun x => snd x = true) schedule)
  /\ failureCount s = length (filter (fun x => snd x = false) schedule)
  /\ (exists rest, selectedFiles = started s ++ rest)
  /\ (~ all_finished s ->
      exists i d, workers s !! i = Some (Awaiting d)
                  /\ forall ok, is_Some (settle i ok s)).
Proof.
  intros HK Hrun.
  pose proof (start_inv selectedFiles concurrencyLimit) as Hstart.
  destruct (run_inv _ _ _ _ _ Hstart Hrun) as ([Hsplit Hcount Hdrained Hlen] & Hp & Hs & Hf).
  assert (Hp0 : pending (start selectedFiles concurrencyLimit) = length selectedFiles).
  { unfold start. rewrite spawn_pending. unfold pending; simpl. lia. }
  destruct (spawn_counts concurrencyLimit
              {| queue := selectedFiles; workers := [];
                 successCount := 0; failureCount := 0; started := [] |})
    as [Hs0 Hf0].
  fold (start selectedFiles concurrencyLimit) in Hs0, Hf0. simpl in Hs0, Hf0.
  rewrite Hp0 in Hp. rewrite Hs0 in Hs. rewrite Hf0 in Hf.
  assert (Hfin : all_finished s -> queue s = [] /\ awaiting (workers s) = 0).
  { intros Hall. split; [| now apply awaiting_zero].
    apply Hdrained. unfold all_finished in Hall.
    destruct (workers s) as [|w ws]; [simpl in Hlen; lia |].
    apply Exists_cons_hd. now inversion Hall. }
  split; [| split; [| split; [| split; [| split]]]].
  - intros Hall. destruct (Hfin Hall) as [Hq Ha].
    rewrite Hq, app_nil_r in Hsplit. subst selectedFiles. split; [lia | reflexivity].
  - split.
    + intros Hall. destruct (Hfin Hall) as [Hq Ha].
      unfold pending in Hp. rewrite Hq, Ha in Hp. simpl in Hp. lia.
    + intros Hl. apply awaiting_zero. unfold pending in Hp. lia.
  - lia.
  - lia.
  - exists (queue s). now rewrite Hsplit.
  - intros Hnot. destruct (find_awaiting _ Hnot) as (i & d & Hi).
    exists i, d. split; [assumption |].
    intros ok. unfold settle. rewrite Hi.
    destruct (enter_loop (queue s) (started s)) as [[w q] calls]. eauto.
Qed.

Lemma C5_batch_accounting_witness :
  exists s : State string,
    run [(0, true); (1, false); (0, true)] (start ["a.pdf"; "b.pdf"; "c.pdf"] 2) = Some s
    /\ successCount s + failureCount s = 3
    /\ started s = ["a.pdf"; "b.pdf"; "c.pdf"].
Proof.
  eexists. split; [reflexivity |].
  refine (proj1 (C5_batch_accounting ["a.pdf"; "b.pdf"; "c.pdf"] 2
                   [(0, true); (1, false); (0, true)] _ _ eq_refl) _).
  - lia.
  - repeat constructor.
Defined.

End BatchClaim.

Section FileNaming.

(** C6. For the base name [a$$b] (a PDF called [a$$b.pdf]) the image is
    written at the path of the contract, [imgs/a$$b_img-0.jpeg], but the
    reference is rewritten to a link that names another path: the link is
    handed to [replace] as a replacement pattern, in which [$$] stands for
    one dollar sign. *)
Lemma C6_dollar_in_base_name_breaks_the_link :
  let image := {| id := "img-0.jpeg"; imageBase64 := Some Examples.jpeg_payload |} in
  let page := {| index := 0; markdown := Some "![x](img-0.jpeg)";
                 images := Some [image] |} in
  let run :=
    combineMarkdownWithImages (Examples.services {| pages := None |} None None) 0
      "a$$b" "imgs" (Examples.world_with_pages [page]) in
  imageFilePathOf "a$$b" "imgs" "img-0.jpeg" = "imgs/a$$b_img-0.jpeg"
  /\ vault (snd run) !! "imgs/a$$b_img-0.jpeg" = Some (File "AAAA")
  /\ vault (snd run) !! "imgs/a$b_img-0.jpeg" = None
  /\ fst run = Ok ("![[imgs/a$b_img-0.jpeg]]" +:+ blank_line)
  /\ "![[imgs/a$b_img-0.jpeg]]" <> "![[" +:+ "imgs/a$$b_img-0.jpeg" +:+ "]]"
  /\ fst (combineImage (Examples.services {| pages := None |} None None) "a$$b"
            "imgs" "![x](img-0.jpeg)" image (Examples.world_with_pages [page]))
     = Ok "![[imgs/a$b_img-0.jpeg]]".
Proof.
  vm_compute. repeat split. intros [=].
Qed.

(** The rest of the naming contract holds. For every base name, images
    folder and placeholder id: an image with a JPEG payload is written at
    [{imagesFolder}/{baseName}_{trimmedId}.jpeg], where the trimmed id is
    the id without its trailing [.jpg] or [.jpeg] (in any case), or the id
    itself when it has no such ending; the markdown path is
    [{folder}/{baseName}.md] for the trimmed folder setting [folder], or
    [{baseName}.md] when that is empty, and an ingestion that returns after
    its guard has created the markdown file there; and when the image path
    holds no dollar sign, every reference that the pattern matches is
    replaced by [![[path]]], the image path with forward slashes in place
    of backslashes. *)
Lemma file_naming
    (svc : Services) (settings : PDFToMarkdownSettings)
    (pdfBaseName finalImagesPath originalId : string) :
  let trimmedId := removeFirst jpegExtension originalId in
  let imageFilePath :=
    finalImagesPath +:+ "/" +:+ pdfBaseName +:+ "_" +:+ trimmedId +:+ ".jpeg" in
  let mdFolder := trim (markdownOutputFolder settings) in
  let targetMdPath :=
    if String.eqb mdFolder "" then pdfBaseName +:+ ".md"
    else mdFolder +:+ "/" +:+ pdfBaseName +:+ ".md" in
  (forall payload marks md w,
      is_placeholder (Some payload) = false ->
      exec_here jpegDataUri payload = Some marks ->
      snd (combineImage svc pdfBaseName finalImagesPath md
             {| id := originalId; imageBase64 := Some payload |} w)
      = {| vault := <[imageFilePath := File (decodeBase64 svc (group1 marks))]>
                      (with_folders (ancestors imageFilePath) (vault w));
           heap := heap w;
           log := log w ++ [WriteBinary imageFilePath (decodeBase64 svc (group1 marks))] |})
  /\ (forall stem ext,
         originalId = stem +:+ ext -> is_jpeg_suffix ext -> trimmedId = stem)
  /\ ((forall stem ext, originalId = stem +:+ ext -> ~ is_jpeg_suffix ext) ->
      trimmedId = originalId)
  /\ targetMdPathOf settings pdfBaseName = targetMdPath
  /\ (forall pdfContent originalFileName w w',
         vault w !! targetMdPath = None ->
         processPDFInternal svc settings pdfContent pdfBaseName originalFileName w
         = (Ok tt, w') ->
         exists finalMd w1,
           vault w' = <[targetMdPath := File finalMd]> (vault w1)
           /\ log w' = log w1 ++ [Create targetMdPath finalMd])
  /\ (forall payload md w,
         is_placeholder (Some payload) = false ->
         contains "$" imageFilePath = false ->
         fst (combineImage svc pdfBaseName finalImagesPath md
                {| id := originalId; imageBase64 := Some payload |} w)
         = Ok (replaceAllBy
                 [Lit "!["; Greedy not_rbracket; Lit "]("; LazyAt dot; Lit originalId;
                  LazyAt dot; Lit ")"]
                 (fun _ _ _ => "![[" +:+ slashed imageFilePath +:+ "]]") md)
         /\ contains "\" ("![[" +:+ slashed imageFilePath +:+ "]]") = false).
Proof.
  intros trimmedId imageFilePath mdFolder targetMdPath.
  split; [| split; [| split; [| split; [| split]]]].
  - intros payload marks md w Hp Hm.
    unfold combineImage; cbn [id imageBase64]. rewrite Hp.
    unfold bind. rewrite saveBase64Image_run.
    change (default "" (Some payload)) with payload. now rewrite Hm.
  - intros stem ext -> Hext. now apply removeFirst_jpeg_suffix.
  - apply removeFirst_no_jpeg_suffix.
  - reflexivity.
  - intros pdfContent originalFileName w w' Hfree Hrun.
    exact (processPDFInternal_creates_target svc settings pdfContent pdfBaseName
             originalFileName w w' Hfree Hrun).
  - intros payload md w Hp Hd. split.
    + rewrite combineImage_value. unfold rewriteImage; cbn [id imageBase64].
      rewrite Hp, imageReference_literal. f_equal.
      unfold imageLink. rewrite forwardSlashes_slashed.
      apply replaceAll_plain.
      change (imageFilePathOf pdfBaseName finalImagesPath originalId) with imageFilePath.
      now rewrite !contains_append, slashed_dollar, Hd.
    + now rewrite !contains_append, slashed_no_backslash.
Qed.

End FileNaming.

Section GenerationFailure.

Variable svc : Services.
Variable settings : PDFToMarkdownSettings.
Variables activeFile srcFile : TFile.

(** C7. In a run of the summarizer that reaches the generation loop: if
    the call for the [k]-th matched key is the first to fail, the later keys
    are not processed (no further request is made), the vault is left as it
    was and the only events are the requests made and the error notice, so
    the note is not saved; if every call resolves, the note is saved once,
    after the request for the last matched key. *)
Theorem C7_generation_failure_writes_nothing
    (gen : World -> string -> Result GenResult)
    (srcContent noteContent : string) (w : World) :
  vault w !! path srcFile = Some (File srcContent) ->
  vault w !! path activeFile = Some (File noteContent) ->
  textGenerator svc = Some gen ->
  keysToProcessOf settings noteContent <> [] ->
  let ms := validMatchesOf settings noteContent in
  let promptMap := promptMapOf settings in
  let w1 :=
    logged_more w [Notice ("AI要約を開始: " +:+ pretty (length ms)
                           +:+ "件のキーを処理")] in
  (forall (k : nat) (e : Exn),
      (forall j, j < k -> resolved (call_outcome gen promptMap srcContent ms w1 j)) ->
      call_outcome gen promptMap srcContent ms w1 k = Some (Throw e) ->
      summarizeNote svc settings activeFile srcFile w
      = (Ok tt,
         logged_more w1 (generate_events promptMap srcContent (take (S k) ms)
                         ++ [Notice ("APIエラー: " +:+ messageOf e)])))
  /\ ((forall j, j < length ms ->
                 resolved (call_outcome gen promptMap srcContent ms w1 j)) ->
      exists noteContent',
        summarizeNote svc settings activeFile srcFile w
        = (Ok tt,
           {| vault := <[path activeFile := File noteContent']> (vault w);
              heap := heap w;
              log := log w1 ++ generate_events promptMap srcContent ms
                     ++ [Modify (path activeFile) noteContent';
                         Notice ("要約が完了しました！（" +:+ pretty (length ms)
                                 +:+ "件処理）")] |})).
Proof.
  intros Hsrc Hnote Hgen Hkeys ms promptMap w1.
  assert (Hrun : summarizeNote svc settings activeFile srcFile w
                 = match summarizeKeys gen promptMap srcContent ms noteContent w1 with
                   | (Ok (Some noteContent'), w') =>
                       (vault_modify activeFile noteContent' >>
                        emit (Notice ("要約が完了しました！（" +:+ pretty (length ms)
                                      +:+ "件処理）"))) w'
                   | (Ok None, w') => (Ok tt, w')
                   | (Throw e, w') => (Throw e, w')
                   end).
  { unfold summarizeNote, bind.
    rewrite (vault_read_file _ _ _ Hsrc), (vault_read_file _ _ _ Hnote).
    destruct (keysToProcessOf settings noteContent) as [|k0 ks]; [now elim Hkeys |].
    rewrite Hgen, emit_logged.
    fold ms promptMap w1.
    now destruct (summarizeKeys gen promptMap srcContent ms noteContent w1)
      as [[[note'|]|e] w']. }
  split.
  - intros k e Hbefore Hk.
    now rewrite Hrun, (summarizeKeys_first_failure gen promptMap srcContent ms
                         noteContent w1 k e Hbefore Hk).
  - intros Hall.
    destruct (summarizeKeys_all_resolved gen promptMap srcContent ms noteContent w1 Hall)
      as [note' Hnote'].
    exists note'. rewrite Hrun, Hnote'.
    unfold vault_modify, bind, get_world, set_vault, emit, logged_more; simpl.
    now rewrite <- !app_assoc.
Qed.

End GenerationFailure.

Section GenerationFailureWitness.

Lemma C7_generation_failure_writes_nothing_witness :
  vault (snd (summarizeNote
                (Examples.services {| pages := None |}
                   (Some Examples.failing_generator) None)
                (Examples.settings_with "out" Examples.summary_prompts)
                Examples.note_file Examples.markdown_file
                (Examples.note_world "Intro <!-- summary --> end")))
  = vault (Examples.note_world "Intro <!-- summary --> end").
Proof.
  rewrite (proj1 (C7_generation_failure_writes_nothing
                    (Examples.services {| pages := None |}
                       (Some Examples.failing_generator) None)
                    (Examples.settings_with "out" Examples.summary_prompts)
                    Examples.note_file Examples.markdown_file
                    Examples.failing_generator "OCR text"
                    "Intro <!-- summary --> end"
                    (Examples.note_world "Intro <!-- summary --> end")
                    eq_refl eq_refl eq_refl ltac:(vm_compute; discriminate))
             0 (Error "rate limit") ltac:(intros j Hj; lia) eq_refl).
  reflexivity.
Defined.

End GenerationFailureWitness.

Section NoMatchingKeys.

Variable svc : Services.
Variable settings : PDFToMarkdownSettings.
Variables activeFile srcFile : TFile.

(** C8. When no key of the prompt map is among the keys of the note's
    comment markers, the summarizer shows the notice that lists the
    configured keys and returns: no generation is requested and the vault,
    the note included, is left as it was. *)
Theorem C8_no_matching_keys
    (srcContent noteContent : string) (w : World) :
  vault w !! path srcFile = Some (File srcContent) ->
  vault w !! path activeFile = Some (File noteContent) ->
  keysInNoteOf noteContent ∩ list_to_set (Object_keys (promptMapOf settings)) = ∅ ->
  summarizeNote svc settings activeFile srcFile w
  = (Ok tt,
     logged_more w
       [Notice ("有効なキーが見つかりません。使用可能: "
                +:+ join ", " (Object_keys (promptMapOf settings)))]).
Proof.
  intros Hsrc Hnote Hdisjoint.
  unfold summarizeNote, bind.
  rewrite (vault_read_file _ _ _ Hsrc), (vault_read_file _ _ _ Hnote).
  assert (E : keysToProcessOf settings noteContent = []).
  { apply filter_none. intros k Hk Hin.
    assert (Hboth : k ∈ keysInNoteOf noteContent
                        ∩ list_to_set (Object_keys (promptMapOf settings)))
      by (apply elem_of_intersection; split;
          [exact Hin | now apply elem_of_list_to_set]).
    rewrite Hdisjoint in Hboth. now apply not_elem_of_empty in Hboth. }
  now rewrite E.
Qed.

End NoMatchingKeys.

Section NoMatchingKeysWitness.

Lemma C8_no_matching_keys_witness :
  vault (snd (summarizeNote
                (Examples.services {| pages := None |}
                   (Some Examples.failing_generator) None)
                (Examples.settings_with "out" Examples.summary_prompts)
                Examples.note_file Examples.markdown_file
                (Examples.note_world "Intro <!-- other --> end")))
  = vault (Examples.note_world "Intro <!-- other --> end").
Proof.
  rewrite (C8_no_matching_keys
             (Examples.services {| pages := None |}
                (Some Examples.failing_generator) None)
             (Examples.settings_with "out" Examples.summary_prompts)
             Examples.note_file Examples.markdown_file
             "OCR text" "Intro <!-- other --> end"
             (Examples.note_world "Intro <!-- other --> end")
             eq_refl eq_refl ltac:(vm_compute; reflexivity)).
  reflexivity.
Defined.

End NoMatchingKeysWitness.

Section InputArray.

(** C9, as stated, fails: after the call the array of the scenario, given
    in the order [1, 0], is in the order [0, 1]. *)
Lemma C9_pages_array_is_reordered :
  let w := Examples.world_with_pages
             (Examples.scenario_pages Examples.jpeg_payload None) in
  let w' := snd (combineMarkdownWithImages
                   (Examples.services {| pages := None |} None None)
                   0 "doc" "imgs" w) in
  heap w !! 0 = Some {| pages := Some [Examples.page_B None;
                                        Examples.page_A (Some Examples.jpeg_payload)] |}
  /\ heap w' !! 0 = Some {| pages := Some [Examples.page_A (Some Examples.jpeg_payload);
                                            Examples.page_B None] |}
  /\ heap w' !! 0 <> heap w !! 0.
Proof. vm_compute. repeat split. intros [=]. Qed.

(** C9 (amended). [combineMarkdownWithImages] sorts the pages array of its
    argument in place: afterwards the array holds the same pages, unchanged
    themselves, in ascending order of index, pages of equal index in their
    former order; no other object of the heap changes, and an array that
    was in ascending order (or a response without pages) is left as it
    was. *)
Theorem C9_pages_array_sorted_in_place
    (svc : Services) (pdfBaseName finalImagesPath : string)
    (ocrResult : nat) (o : OcrResult) (w : World) :
  heap w !! ocrResult = Some o ->
  let w' := snd (combineMarkdownWithImages svc ocrResult pdfBaseName finalImagesPath w) in
  match pages o with
  | None => heap w' = heap w
  | Some ps =>
      exists sorted,
        heap w' = <[ocrResult := {| pages := Some sorted |}]> (heap w)
        /\ Permutation sorted ps
        /\ Sorted by_index sorted
        /\ (forall k, filter (fun p => index p = k) sorted
                      = filter (fun p => index p = k) ps)
        /\ (Sorted by_index ps -> heap w' = heap w)
  end.
Proof.
  intros Hr w'. destruct o as [[ps|]]; simpl.
  - exists (sort_pages ps).
    assert (E : heap w' = <[ocrResult := {| pages := Some (sort_pages ps) |}]> (heap w))
      by now apply combineMarkdownWithImages_heap.
    split; [exact E |].
    split; [apply sort_pages_perm |].
    split; [apply sort_pages_sorted |].
    split; [intros k; apply sort_pages_stable |].
    intros Hs. rewrite E, (sort_pages_sorted_id _ Hs).
    now apply list_insert_id.
  - subst w'. unfold combineMarkdownWithImages, bind, get_world. now rewrite Hr.
Qed.

Lemma C9_pages_array_sorted_in_place_witness :
  let ps := Examples.scenario_pages Examples.jpeg_payload None in
  let w := Examples.world_with_pages ps in
  exists sorted,
    heap (snd (combineMarkdownWithImages
                 (Examples.services {| pages := None |} None None) 0 "doc" "imgs" w))
    = <[0 := {| pages := Some sorted |}]> (heap w)
    /\ Permutation sorted ps
    /\ Sorted by_index sorted
    /\ (forall k, filter (fun p => index p = k) sorted
                  = filter (fun p => index p = k) ps).
Proof.
  intros ps w.
  destruct (C9_pages_array_sorted_in_place
              (Examples.services {| pages := None |} None None) "doc" "imgs" 0
              {| pages := Some ps |} w eq_refl)
    as (sorted & Hheap & Hperm & Hsorted & Hstable & _).
  exists sorted. repeat split; assumption.
Defined.

End InputArray.

Section MarkerReplacement.

Variable svc : Services.
Variable settings : PDFToMarkdownSettings.
Variables activeFile srcFile : TFile.

(** When the calls resolve to [results], the loop returns the note with the
    comment of each match replaced in turn. *)
Lemma summarizeKeys_replaced (gen : World -> string -> Result GenResult)
    (promptMap : PromptMap) (srcContent : string) (ms : list MatchInfo) :
  forall (results : list GenResult) (noteContent : string) (w : World),
    length results = length ms ->
    (forall j r, results !! j = Some r ->
                 call_outcome gen promptMap srcContent ms w j = Some (Ok r)) ->
    summarizeKeys gen promptMap srcContent ms noteContent w
    = (Ok (Some (replaced ms (map summaryTextOf results) noteContent)),
       logged_more w (generate_events promptMap srcContent ms)).
Proof.
  induction ms as [|m rest IH]; intros results noteContent w Hlen Hres.
  - destruct results; [| discriminate Hlen].
    simpl. unfold ret. now rewrite logged_more_nil.
  - destruct results as [|r results]; [discriminate Hlen |].
    pose proof (Hres 0 r eq_refl) as H0. rewrite call_outcome_head in H0.
    injection H0 as H0.
    rewrite (summarizeKeys_resolved _ _ _ _ _ _ _ _ H0).
    rewrite (IH results).
    + now rewrite logged_more_more.
    + simpl in Hlen. lia.
    + intros j r' Hj. rewrite <- call_outcome_tail. now apply Hres.
Qed.

Lemma replaced_step (ms : list MatchInfo) (texts : list string) :
  forall (j : nat) (m : MatchInfo) (text note : string),
    ms !! j = Some m -> texts !! j = Some text ->
    replaced (take (S j) ms) (take (S j) texts) note
    = replaceString (fullMatch m) text (replaced (take j ms) (take j texts) note).
Proof.
  revert texts. induction ms as [|m0 ms IH]; intros texts j m text note Hm Ht.
  - discriminate Hm.
  - destruct texts as [|t0 texts]; [discriminate Ht |].
    destruct j as [|j].
    + injection Hm as <-. injection Ht as <-. now destruct ms, texts.
    + simpl in Hm, Ht. cbn [take replaced]. now apply IH.
Qed.

(** C10. When the generation calls of a run resolve, the note that the
    summarizer saves is the note it read with the comment of each processed
    marker replaced in turn: the step of a marker is
    [noteContent.replace(fullComment, summaryText)] on the note as it
    stands. That step replaces the first occurrence of the marker's comment
    text by the expansion of the generated text as a replacement pattern: a
    generated text without dollar sign is inserted as it is; in a generated
    text [a$&b] (no other dollar sign) the marker's own comment text takes
    the place of [$&], so that the text is not inserted as it is (the
    comment text of a marker is never [$&] itself). *)
Theorem C10_marker_replacement
    (gen : World -> string -> Result GenResult)
    (srcContent noteContent : string) (results : list GenResult) (w : World) :
  vault w !! path srcFile = Some (File srcContent) ->
  vault w !! path activeFile = Some (File noteContent) ->
  textGenerator svc = Some gen ->
  keysToProcessOf settings noteContent <> [] ->
  let ms := validMatchesOf settings noteContent in
  let promptMap := promptMapOf settings in
  let w1 :=
    logged_more w [Notice ("AI要約を開始: " +:+ pretty (length ms)
                           +:+ "件のキーを処理")] in
  length results = length ms ->
  (forall j r, results !! j = Some r ->
               call_outcome gen promptMap srcContent ms w1 j = Some (Ok r)) ->
  let texts := map summaryTextOf results in
  let saved := replaced ms texts noteContent in
  summarizeNote svc settings activeFile srcFile w
  = (Ok tt,
     {| vault := <[path activeFile := File saved]> (vault w);
        heap := heap w;
        log := log w1 ++ generate_events promptMap srcContent ms
               ++ [Modify (path activeFile) saved;
                   Notice ("要約が完了しました！（" +:+ pretty (length ms)
                           +:+ "件処理）")] |})
  /\ (forall j m summaryText,
         ms !! j = Some m -> texts !! j = Some summaryText ->
         let fullComment := fullMatch m in
         let current := replaced (take j ms) (take j texts) noteContent in
         replaced (take (S j) ms) (take (S j) texts) noteContent
         = replaceString fullComment summaryText current
         /\ fullComment <> "$&"
         /\ forall before after,
              current = before +:+ fullComment +:+ after ->
              (forall n, occurs_at fullComment current n -> String.length before <= n) ->
              replaceString fullComment summaryText current
              = before +:+ GetSubstitution fullComment before after summaryText
                +:+ after
              /\ (contains "$" summaryText = false ->
                  replaceString fullComment summaryText current
                  = before +:+ summaryText +:+ after)
              /\ (forall a b,
                     summaryText = a +:+ "$&" +:+ b ->
                     contains "$" a = false -> contains "$" b = false ->
                     replaceString fullComment summaryText current
                     = before +:+ (a +:+ fullComment +:+ b) +:+ after
                     /\ a +:+ fullComment +:+ b <> summaryText)).
Proof.
  intros Hsrc Hnote Hgen Hkeys ms promptMap w1 Hlen Hres texts saved.
  split.
  - assert (Hrun : summarizeNote svc settings activeFile srcFile w
                   = match summarizeKeys gen promptMap srcContent ms noteContent w1 with
                     | (Ok (Some noteContent'), w') =>
                         (vault_modify activeFile noteContent' >>
                          emit (Notice ("要約が完了しました！（" +:+ pretty (length ms)
                                        +:+ "件処理）"))) w'
                     | (Ok None, w') => (Ok tt, w')
                     | (Throw e, w') => (Throw e, w')
                     end).
    { unfold summarizeNote, bind.
      rewrite (vault_read_file _ _ _ Hsrc), (vault_read_file _ _ _ Hnote).
      destruct (keysToProcessOf settings noteContent) as [|k0 ks]; [now elim Hkeys |].
      rewrite Hgen, emit_logged.
      fold ms promptMap w1.
      now destruct (summarizeKeys gen promptMap srcContent ms noteContent w1)
        as [[[note'|]|e] w']. }
    rewrite Hrun, (summarizeKeys_replaced gen promptMap srcContent ms results
                     noteContent w1 Hlen Hres).
    fold texts saved.
    unfold vault_modify, bind, get_world, set_vault, emit, logged_more; simpl.
    now rewrite <- !app_assoc.
  - intros j m summaryText Hm Ht fullComment current.
    assert (Hpattern : fullComment <> "$&").
    { apply (marker_text_is_not_a_pattern settings noteContent m).
      now apply list_elem_of_lookup_2 with j. }
    split; [now apply replaced_step |]. split; [exact Hpattern |].
    intros before after Hcurrent Hfirst.
    assert (E : replaceString fullComment summaryText current
                = before +:+ GetSubstitution fullComment before after summaryText
                  +:+ after).
    { unfold replaceString. rewrite Hcurrent, split_first_first.
      - now rewrite append_nil_l.
      - now rewrite <- Hcurrent. }
    split; [exact E |]. split.
    + intros Hplain. now rewrite E, GetSubstitution_plain.
    + intros a b Htext Ha Hb. split.
      * rewrite E, Htext, GetSubstitution_append_plain by assumption.
        change ("$&" +:+ b) with (String "$" (String "&" b)).
        cbn [GetSubstitution]. simpl.
        now rewrite (GetSubstitution_plain _ _ _ b Hb).
      * intros Heq. apply Hpattern. rewrite Htext in Heq.
        apply (inj (String.app a)) in Heq. now apply append_cancel_r in Heq.
Qed.

End MarkerReplacement.

Lemma C10_marker_replacement_witness :
  vault (snd (summarizeNote
                (Examples.services {| pages := None |}
                   (Some (fun _ _ => Ok (GenString "cost: $&"))) None)
                (Examples.settings_with "out" Examples.summary_prompts)
                Examples.note_file Examples.markdown_file
                (Examples.note_world "Intro <!-- summary --> end")))
  !! "notes/doc-note.md"
  = Some (File "Intro cost: <!-- summary --> end").
Proof.
  rewrite (proj1 (C10_marker_replacement
                    (Examples.services {| pages := None |}
                       (Some (fun _ _ => Ok (GenString "cost: $&"))) None)
                    (Examples.settings_with "out" Examples.summary_prompts)
                    Examples.note_file Examples.markdown_file
                    (fun _ _ => Ok (GenString "cost: $&"))
                    "OCR text" "Intro <!-- summary --> end"
                    [GenString "cost: $&"]
                    (Examples.note_world "Intro <!-- summary --> end")
                    eq_refl eq_refl eq_refl ltac:(vm_compute; discriminate)
                    eq_refl
                    ltac:(intros [|j] r Hr; [injection Hr as <-; reflexivity
                                            | discriminate Hr]))).
  reflexivity.
Defined.

(* ===================================================================== *)
(** ** What the methods keep                                              *)
(* ===================================================================== *)

Section Keeps.

Variable R : World -> World -> Prop.
Hypothesis R_refl : forall w, R w w.
Hypothesis R_trans : forall a b c, R a b -> R b c -> R a c.

Lemma keeps_ret {A} (a : A) : keeps R (ret a).
Proof. intros w; apply R_refl. Qed.

Lemma keeps_throw {A} (e : Exn) : keeps R (@throw A e).
Proof. intros w; apply R_refl. Qed.

Lemma keeps_lift {A} (r : Result A) : keeps R (lift r).
Proof. intros w; apply R_refl. Qed.

Lemma keeps_get_world : keeps R get_world.
Proof. intros w; apply R_refl. Qed.

Lemma keeps_bind {A B} (m : M A) (k : A -> M B) :
  keeps R m -> (forall a, keeps R (k a)) -> keeps R (bind m k).
Proof.
  intros Hm Hk w. unfold bind. specialize (Hm w).
  destruct (m w) as [[a|e] w1]; simpl in *; [| assumption].
  eapply R_trans; [exact Hm | apply Hk].
Qed.

Lemma keeps_try_catch {A} (m : M A) (h : Exn -> M A) :
  keeps R m -> (forall e, keeps R (h e)) -> keeps R (try_catch m h).
Proof.
  intros Hm Hh w. unfold try_catch. specialize (Hm w).
  destruct (m w) as [[a|e] w1]; simpl in *; [assumption |].
  eapply R_trans; [exact Hm | apply Hh].
Qed.

Lemma keeps_for_each {A S} (body : S -> A -> M S) (l : list A) :
  (forall acc x, keeps R (body acc x)) -> forall acc, keeps R (for_each l body acc).
Proof.
  intros Hbody. induction l as [|x l IH]; intros acc; simpl.
  - apply keeps_ret.
  - apply keeps_bind; [apply Hbody | exact IH].
Qed.

Lemma keeps_if {A} (b : bool) (m1 m2 : M A) :
  keeps R m1 -> keeps R m2 -> keeps R (if b then m1 else m2).
Proof. now destruct b. Qed.

End Keeps.

Section Storage.

Lemma with_folders_Some (ps : list string) (v : gmap string Entry) (p : string)
    (e : Entry) :
  v !! p = Some e -> with_folders ps v !! p = Some e.
Proof.
  intros H. induction ps as [|q ps IH]; simpl; [exact H |].
  destruct (with_folders ps v !! q) eqn:E; [exact IH |].
  rewrite lookup_insert_ne; [exact IH | congruence].
Qed.

Lemma with_folders_None (ps : list string) (v : gmap string Entry) (p : string) :
  v !! p = None -> p ∉ ps -> with_folders ps v !! p = None.
Proof.
  intros H Hnot. induction ps as [|q ps IH]; simpl; [exact H |].
  apply not_elem_of_cons in Hnot as [Hne Hnot].
  destruct (with_folders ps v !! q) eqn:E; [now apply IH |].
  rewrite lookup_insert_ne; [now apply IH | congruence].
Qed.

Lemma with_folders_is_Some (ps : list string) (v : gmap string Entry) (p : string) :
  p ∈ ps -> is_Some (with_folders ps v !! p).
Proof.
  induction ps as [|q ps IH]; intros Hin; [now apply elem_of_nil in Hin |].
  simpl. destruct (with_folders ps v !! q) eqn:E.
  - apply elem_of_cons in Hin as [->|Hin]; [rewrite E; eauto | now apply IH].
  - destruct (decide (q = p)) as [->|Hne].
    + rewrite lookup_insert_eq. eauto.
    + rewrite lookup_insert_ne by exact Hne.
      apply elem_of_cons in Hin as [->|Hin]; [now elim Hne | now apply IH].
Qed.

(** A folder above a path is a proper prefix of it that a slash follows. *)
Lemma ancestors_go_prefix (s before a : string) :
  a ∈ ancestors_go before s ->
  exists x rest, s = x +:+ "/" +:+ rest /\ a = before +:+ x /\ a <> "".
Proof.
  revert before. induction s as [|c s IH]; intros before Ha;
    [now apply elem_of_nil in Ha |].
  simpl in Ha. apply elem_of_app in Ha as [Ha|Ha].
  - destruct (Ascii.eqb_spec c "/") as [->|]; [| now apply elem_of_nil in Ha].
    destruct (String.eqb_spec before "") as [|Hne]; [now apply elem_of_nil in Ha |].
    simpl in Ha. apply list_elem_of_singleton in Ha as ->.
    exists "", s. now rewrite append_nil_l, append_nil_r.
  - apply IH in Ha as (x & rest & -> & -> & Hne).
    exists (String c x), rest. repeat split; [| exact Hne].
    now rewrite append_snoc.
Qed.

Lemma ancestors_prefix (p a : string) :
  a ∈ ancestors p -> exists rest, p = a +:+ "/" +:+ rest.
Proof.
  intros Ha. apply ancestors_go_prefix in Ha as (x & rest & -> & -> & _).
  exists rest. now rewrite append_nil_l.
Qed.

Lemma ancestors_shorter (p a : string) :
  a ∈ ancestors p -> String.length a < String.length p.
Proof.
  intros Ha. apply ancestors_prefix in Ha as (rest & ->).
  rewrite !length_append. simpl. lia.
Qed.

End Storage.

Section Frame.

Variables created overwritten : string -> Prop.

Lemma framed_refl (w : World) : framed created overwritten w w.
Proof. now repeat split. Qed.

Lemma framed_trans (a b c : World) :
  framed created overwritten a b -> framed created overwritten b c ->
  framed created overwritten a c.
Proof.
  intros (N1 & K1 & M1) (N2 & K2 & M2). repeat split.
  - intros p Hp Hc. now apply N2; [apply N1 |].
  - intros p e Hp Ho. now apply K2; [apply K1 |].
  - intros p Hp. now apply M2, M1.
Qed.

Lemma framed_same_vault (w w' : World) :
  vault w' = vault w -> framed created overwritten w w'.
Proof. intros E. unfold framed. rewrite E. now repeat split. Qed.

Lemma framed_insert_free (w w' : World) (p : string) (e : Entry) :
  created p -> vault w !! p = None -> vault w' = <[p := e]> (vault w) ->
  framed created overwritten w w'.
Proof.
  intros Hc Hfree E. unfold framed. rewrite E. repeat split.
  - intros q Hq Hn. rewrite lookup_insert_ne; [exact Hq | now intros ->].
  - intros q x Hq _. rewrite lookup_insert_ne; [exact Hq | congruence].
  - intros q Hq. rewrite lookup_insert_ne; [exact Hq |].
    intros ->. rewrite Hfree in Hq. now destruct Hq.
Qed.

Lemma framed_insert (w w' : World) (p : string) (e : Entry) :
  created p -> overwritten p -> vault w' = <[p := e]> (vault w) ->
  framed created overwritten w w'.
Proof.
  intros Hc Ho E. unfold framed. rewrite E. repeat split.
  - intros q Hq Hn. rewrite lookup_insert_ne; [exact Hq | now intros ->].
  - intros q x Hq Hn. rewrite lookup_insert_ne; [exact Hq | now intros ->].
  - intros q Hq. destruct (decide (p = q)) as [->|Hne].
    + rewrite lookup_insert_eq. eauto.
    + now rewrite lookup_insert_ne.
Qed.

Lemma framed_folders (w w' : World) (ps : list string) :
  (forall q, q ∈ ps -> created q) -> vault w' = with_folders ps (vault w) ->
  framed created overwritten w w'.
Proof.
  intros Hps E. unfold framed. rewrite E. repeat split.
  - intros p Hp Hn. apply with_folders_None; [exact Hp |].
    intros Hin. now apply Hn, Hps.
  - intros p e Hp _. now apply with_folders_Some.
  - intros p [e Hp]. exists e. now apply with_folders_Some.
Qed.

(** A write at [p] that creates the folders above [p] as needed. *)
Lemma framed_write (w w' : World) (p : string) (e : Entry) :
  (forall q, at_or_above p q -> created q) -> overwritten p ->
  vault w' = <[p := e]> (with_folders (ancestors p) (vault w)) ->
  framed created overwritten w w'.
Proof.
  intros Hc Ho E.
  apply (framed_trans w {| vault := with_folders (ancestors p) (vault w);
                           heap := heap w; log := log w |}).
  - apply (framed_folders _ _ (ancestors p)); [| reflexivity].
    intros q Hq. apply Hc. now right.
  - apply (framed_insert _ _ p e); [apply Hc; now left | exact Ho | exact E].
Qed.

Lemma framed_write_free (w w' : World) (p : string) (e : Entry) :
  (forall q, at_or_above p q -> created q) -> vault w !! p = None ->
  vault w' = <[p := e]> (with_folders (ancestors p) (vault w)) ->
  framed created overwritten w w'.
Proof.
  intros Hc Hfree E. unfold framed. rewrite E. repeat split.
  - intros q Hq Hn. rewrite lookup_insert_ne.
    + apply with_folders_None; [exact Hq |]. intros Hin. apply Hn, Hc. now right.
    + intros ->. apply Hn, Hc. now left.
  - intros q x Hq _. rewrite lookup_insert_ne; [now apply with_folders_Some | congruence].
  - intros q [x Hq]. exists x.
    rewrite lookup_insert_ne; [now apply with_folders_Some | congruence].
Qed.

Local Abbreviation keeps_frame := (keeps (framed created overwritten)).

Lemma keeps_frame_bind {A B} (m : M A) (k : A -> M B) :
  keeps_frame m -> (forall a, keeps_frame (k a)) -> keeps_frame (bind m k).
Proof. apply keeps_bind. exact framed_trans. Qed.

Lemma keeps_frame_try_catch {A} (m : M A) (h : Exn -> M A) :
  keeps_frame m -> (forall e, keeps_frame (h e)) -> keeps_frame (try_catch m h).
Proof. apply keeps_try_catch. exact framed_trans. Qed.

Lemma keeps_frame_for_each {A S} (body : S -> A -> M S) (l : list A) :
  (forall acc x, keeps_frame (body acc x)) ->
  forall acc, keeps_frame (for_each l body acc).
Proof. apply keeps_for_each; [exact framed_refl | exact framed_trans]. Qed.

Lemma keeps_frame_pure {A} (m : M A) :
  (forall w, vault (snd (m w)) = vault w) -> keeps_frame m.
Proof. intros H w. apply framed_same_vault, H. Qed.

Lemma keeps_frame_emit (e : Event) : keeps_frame (emit e).
Proof. now apply keeps_frame_pure. Qed.

Lemma keeps_frame_ret {A} (a : A) : keeps_frame (ret a).
Proof. now apply keeps_frame_pure. Qed.

Lemma keeps_frame_throw {A} (e : Exn) : keeps_frame (@throw A e).
Proof. now apply keeps_frame_pure. Qed.

Lemma keeps_frame_logged {A} (request : Event) (call : World -> Result A)
    (msg : string) :
  keeps_frame (logged request call msg).
Proof.
  unfold logged. apply keeps_frame_try_catch.
  - apply keeps_frame_bind; [apply keeps_frame_emit |].
    intros _. now apply keeps_frame_pure.
  - intros e. apply keeps_frame_bind; [apply keeps_frame_emit |].
    intros _. apply keeps_frame_throw.
Qed.

Lemma keeps_frame_alloc (o : OcrResult) : keeps_frame (alloc o).
Proof. now apply keeps_frame_pure. Qed.

Lemma keeps_frame_vault_read (f : TFile) : keeps_frame (vault_read f).
Proof.
  apply keeps_frame_pure. intros w. unfold vault_read, bind, get_world.
  now destruct (vault w !! path f) as [[data|]|].
Qed.

Lemma keeps_frame_writeBinary (p data : string) :
  (forall q, at_or_above p q -> created q) -> overwritten p ->
  keeps_frame (adapter_writeBinary p data).
Proof. intros Hc Ho w. now apply (framed_write w _ p (File data)). Qed.

Lemma keeps_frame_vault_modify (f : TFile) (data : string) :
  created (path f) -> overwritten (path f) -> keeps_frame (vault_modify f data).
Proof. intros Hc Ho w. now apply (framed_insert w _ (path f) (File data)). Qed.

Lemma keeps_frame_createFolder (p : string) :
  (forall q, at_or_above p q -> created q) -> keeps_frame (createFolder p).
Proof.
  intros Hp w. unfold createFolder, bind, get_world.
  destruct (vault w !! p) eqn:E; [apply framed_refl |].
  now apply (framed_write_free w _ p Folder).
Qed.

Lemma keeps_frame_vault_create (p data : string) :
  created p -> keeps_frame (vault_create p data).
Proof.
  intros Hp w. unfold vault_create, bind, get_world.
  destruct (vault w !! p) eqn:E; [apply framed_refl |].
  now apply (framed_insert_free w _ p (File data)).
Qed.

Lemma keeps_frame_createFolderIfNotExists (folderPath : string) :
  (forall q, at_or_above (cleanFolderPath folderPath) q -> created q) ->
  keeps_frame (createFolderIfNotExists folderPath).
Proof.
  intros Hp. unfold createFolderIfNotExists.
  destruct (String.eqb (cleanFolderPath folderPath) ""); [apply keeps_frame_ret |].
  apply keeps_frame_bind; [now apply keeps_frame_pure |].
  intros [|]; [apply keeps_frame_ret | now apply keeps_frame_createFolder].
Qed.

Variable svc : Services.
Variables pdfBaseName finalImagesPath : string.
Hypothesis created_images :
  forall p, image_place pdfBaseName finalImagesPath p -> created p.
Hypothesis overwritten_images :
  forall p, image_path pdfBaseName finalImagesPath p -> overwritten p.

Lemma keeps_frame_combineImage (md : string) (imgObj : Image) :
  keeps_frame (combineImage svc pdfBaseName finalImagesPath md imgObj).
Proof.
  unfold combineImage.
  destruct (is_placeholder (imageBase64 imgObj)).
  - apply keeps_frame_bind; [apply keeps_frame_emit | intros _; apply keeps_frame_ret].
  - apply keeps_frame_bind; [| intros _; apply keeps_frame_ret].
    unfold saveBase64Image. destruct (exec_here jpegDataUri _).
    + assert (Himg : image_path pdfBaseName finalImagesPath
                       (imageFilePathOf pdfBaseName finalImagesPath (id imgObj)))
        by now exists (removeFirst jpegExtension (id imgObj)).
      apply keeps_frame_writeBinary; [| now apply overwritten_images].
      intros q Hq. apply created_images. now exists
        (imageFilePathOf pdfBaseName finalImagesPath (id imgObj)).
    + apply keeps_frame_emit.
Qed.

Lemma keeps_frame_combineMarkdownWithImages (ocrResult : nat) :
  keeps_frame (combineMarkdownWithImages svc ocrResult pdfBaseName finalImagesPath).
Proof.
  assert (Hloop : forall ps acc,
             keeps_frame (for_each ps (combinePage svc pdfBaseName finalImagesPath) acc)).
  { intros ps. apply keeps_frame_for_each. intros acc page. unfold combinePage.
    apply keeps_frame_bind; [| intros md; apply keeps_frame_ret].
    apply keeps_frame_for_each. intros md imgObj. apply keeps_frame_combineImage. }
  intros w. unfold combineMarkdownWithImages, bind, get_world.
  destruct (heap w !! ocrResult) as [[[ps|]]|]; try apply framed_refl.
  - eapply framed_trans; [| apply Hloop]. now apply framed_same_vault.
  - now apply framed_same_vault.
Qed.

End Frame.

Section IngestionFrame.

Variable svc : Services.
Variable settings : PDFToMarkdownSettings.

Lemma keeps_frame_processPDFInternal (created overwritten : string -> Prop)
    (pdfContent pdfBaseName originalFileName : string) :
  (forall p, ingestion_path settings pdfBaseName p -> created p) ->
  (forall p, image_path pdfBaseName (finalImagesPathOf settings) p -> overwritten p) ->
  keeps (framed created overwritten)
    (processPDFInternal svc settings pdfContent pdfBaseName originalFileName).
Proof.
  intros Hw Ho. unfold processPDFInternal.
  apply keeps_frame_bind; [now apply keeps_frame_pure |].
  intros [existing|]; [apply keeps_frame_emit |].
  destruct (String.eqb (trim (mistralApiKey settings)) ""); [apply keeps_frame_throw |].
  do 3 (apply keeps_frame_bind; [apply keeps_frame_logged | intros ?]).
  apply keeps_frame_bind; [apply keeps_frame_alloc | intros ocrResponse].
  apply keeps_frame_bind.
  { destruct (String.eqb (trim (markdownOutputFolder settings)) "");
      [apply keeps_frame_ret |].
    apply keeps_frame_createFolderIfNotExists. intros q Hq. apply Hw.
    unfold ingestion_path. tauto. }
  intros _. apply keeps_frame_bind.
  { apply keeps_frame_createFolderIfNotExists. intros q Hq. apply Hw.
    unfold ingestion_path. tauto. }
  intros _. apply keeps_frame_bind.
  { apply keeps_frame_combineMarkdownWithImages; [| exact Ho].
    intros p Hp. apply Hw. now left. }
  intros finalMd. apply keeps_frame_vault_create, Hw. unfold ingestion_path. tauto.
Qed.

Lemma keeps_frame_processPDFfromTFile (created overwritten : string -> Prop)
    (tfile : TFile) :
  (forall p, ingestion_path settings (basename tfile) p -> created p) ->
  (forall p, image_path (basename tfile) (finalImagesPathOf settings) p ->
             overwritten p) ->
  keeps (framed created overwritten) (processPDFfromTFile svc settings tfile).
Proof.
  intros Hw Ho. unfold processPDFfromTFile.
  apply keeps_frame_bind; [apply keeps_frame_emit | intros _].
  apply keeps_frame_try_catch.
  - apply keeps_frame_bind; [apply keeps_frame_vault_read | intros arrayBuffer].
    apply keeps_frame_bind; [now apply keeps_frame_processPDFInternal |].
    intros _. apply keeps_frame_emit.
  - intros err. do 2 (apply keeps_frame_bind; [apply keeps_frame_emit | intros _]).
    apply keeps_frame_throw.
Qed.

End IngestionFrame.

(* ===================================================================== *)
(** ** Further properties of the methods                                  *)
(* ===================================================================== *)

Section Footprints.

Variable svc : Services.
Variable settings : PDFToMarkdownSettings.



End Footprints.

Section Folders.


Variable settings : PDFToMarkdownSettings.

(** X4 (processPDFInternal, lines 255-264): the images path is never empty.
    It is the folder name, which is the trimmed setting or
    [pdf-mistral-images] and never empty, alone when the trimmed base folder
    is empty and after the base folder and a slash otherwise; the branch
    that would return the base folder alone is never taken. *)
Theorem X4_images_path_shape :
  let baseFolder := trim (imagesOutputFolder settings) in
  let folderName :=
    if String.eqb (trim (imagesFolderName settings)) "" then "pdf-mistral-images"
    else trim (imagesFolderName settings) in
  folderName <> ""
  /\ finalImagesPathOf settings
     = (if String.eqb baseFolder "" then folderName
        else baseFolder +:+ "/" +:+ folderName)
  /\ finalImagesPathOf settings <> "".
Proof.
  intros baseFolder folderName.
  assert (Hname : folderName <> "").
  { subst folderName.
    destruct (String.eqb (trim (imagesFolderName settings)) "") eqn:E;
      [discriminate | now apply String.eqb_neq]. }
  assert (Hshape : finalImagesPathOf settings
                   = (if String.eqb baseFolder "" then folderName
                      else baseFolder +:+ "/" +:+ folderName)).
  { unfold finalImagesPathOf. fold baseFolder. fold folderName.
    apply String.eqb_neq in Hname. rewrite Hname.
    now destruct (String.eqb baseFolder ""). }
  repeat split; [exact Hname | exact Hshape |].
  rewrite Hshape. destruct (String.eqb baseFolder "") eqn:E; [exact Hname |].
  apply String.eqb_neq in E. destruct baseFolder; [congruence | discriminate].
Qed.

End Folders.

Section RemoteCalls.

Lemma logged_Ok {A} (request : Event) (call : World -> Result A) (msg : string)
    (w : World) (a : A) :
  call (logged_more w [request]) = Ok a ->
  logged request call msg w = (Ok a, logged_more w [request]).
Proof.
  intros H. unfold logged, try_catch, bind, get_world, lift.
  rewrite emit_logged. now rewrite H.
Qed.

Lemma logged_Throw {A} (request : Event) (call : World -> Result A) (msg : string)
    (w : World) (e : Exn) :
  call (logged_more w [request]) = Throw e ->
  logged request call msg w
  = (@Throw A e, logged_more w [request; ConsoleError msg]).
Proof.
  intros H. unfold logged, try_catch, bind, get_world, lift, throw.
  rewrite emit_logged, H, emit_logged. now rewrite logged_more_more.
Qed.

Variable svc : Services.
Variable settings : PDFToMarkdownSettings.

(** The run of [processPDFfromTFile] around a failing [processPDFInternal]. *)
Lemma processPDFfromTFile_rethrows (tfile : TFile) (data : string) (w : World)
    (e : Exn) (events : list Event) :
  vault w !! path tfile = Some (File data) ->
  (forall w0, vault w0 = vault w -> heap w0 = heap w ->
     processPDFInternal svc settings data (basename tfile) (name tfile) w0
     = (Throw e, logged_more w0 events)) ->
  processPDFfromTFile svc settings tfile w
  = (Throw e,
     logged_more w
       ([Notice ("Starting: " +:+ name tfile)] ++ events
        ++ [Notice ("Failed: " +:+ name tfile +:+ ". Check console for details.");
            ConsoleError ("Detailed error for " +:+ name tfile +:+ ":")])).
Proof.
  intros Hpdf Hrun. unfold processPDFfromTFile, try_catch, bind.
  rewrite emit_logged. unfold vault_read, bind, get_world.
  cbn [vault logged_more]. rewrite Hpdf. unfold ret.
  rewrite Hrun by reflexivity. rewrite !emit_logged. unfold throw.
  now rewrite !logged_more_more.
Qed.

(** X5 (processPDFInternal, lines 214-217): past the guard, an API key
    setting that is empty or blank makes [processPDFInternal] raise before
    anything is done: the world is unchanged, no request is made. Around it
    [processPDFfromTFile] shows the start and failure notices, logs the
    error and raises the same error. *)
Theorem X5_missing_api_key (tfile : TFile) (data : string) (w : World) :
  vault w !! path tfile = Some (File data) ->
  vault w !! targetMdPathOf settings (basename tfile) = None ->
  trim (mistralApiKey settings) = "" ->
  let err := Error "Mistral API key is not set in settings." in
  processPDFInternal svc settings data (basename tfile) (name tfile) w = (Throw err, w)
  /\ processPDFfromTFile svc settings tfile w
     = (Throw err,
        logged_more w
          [Notice ("Starting: " +:+ name tfile);
           Notice ("Failed: " +:+ name tfile +:+ ". Check console for details.");
           ConsoleError ("Detailed error for " +:+ name tfile +:+ ":")]).
Proof.
  intros Hpdf Hfree Hkey err.
  assert (Hrun : forall w0, vault w0 = vault w ->
            processPDFInternal svc settings data (basename tfile) (name tfile) w0
            = (Throw err, w0)).
  { intros w0 Hv. unfold processPDFInternal, bind, getAbstractFileByPath.
    now rewrite Hv, Hfree, Hkey. }
  split; [now apply Hrun |].
  apply (processPDFfromTFile_rethrows tfile data w err []); [exact Hpdf |].
  intros w0 Hv _. now rewrite logged_more_nil, Hrun.
Qed.

(** X6 (processPDFInternal, lines 219-250): past the guard and with an API
    key, the three remote calls are made in order, each seeing the requests
    made so far. When the upload, the signed URL request or the OCR request
    is rejected, [processPDFInternal] logs that step's error message once
    and raises the very error it caught; the later requests are not made
    and the vault and the heap are unchanged. *)
Theorem X6_remote_failure (pdfContent pdfBaseName originalFileName : string)
    (w : World) (e : Exn) :
  vault w !! targetMdPathOf settings pdfBaseName = None ->
  trim (mistralApiKey settings) <> "" ->
  let run := processPDFInternal svc settings pdfContent pdfBaseName originalFileName w in
  let upload := Upload originalFileName pdfContent in
  (files_upload svc (logged_more w [upload]) originalFileName pdfContent = Throw e ->
   run = (Throw e,
          logged_more w
            [upload; ConsoleError ("Error uploading file: " +:+ originalFileName)]))
  /\ (forall uploaded,
        files_upload svc (logged_more w [upload]) originalFileName pdfContent
        = Ok uploaded ->
        (files_getSignedUrl svc (logged_more w [upload; SignedUrl uploaded]) uploaded
         = Throw e ->
         run = (Throw e,
                logged_more w
                  [upload; SignedUrl uploaded;
                   ConsoleError ("Error getting signed URL for file: "
                                 +:+ originalFileName)]))
        /\ (forall signedUrl,
              files_getSignedUrl svc (logged_more w [upload; SignedUrl uploaded])
                uploaded = Ok signedUrl ->
              ocr_process svc
                (logged_more w [upload; SignedUrl uploaded; OcrProcess signedUrl])
                signedUrl = Throw e ->
              run = (Throw e,
                     logged_more w
                       [upload; SignedUrl uploaded; OcrProcess signedUrl;
                        ConsoleError ("Error during OCR process for file: "
                                      +:+ originalFileName)]))).
Proof.
  intros Hfree Hkey run upload.
  assert (Hstart : run
            = (let* uploaded :=
                 logged upload
                   (fun w => files_upload svc w originalFileName pdfContent)
                   ("Error uploading file: " +:+ originalFileName) in
               let* signedUrl :=
                 logged (SignedUrl uploaded)
                   (fun w => files_getSignedUrl svc w uploaded)
                   ("Error getting signed URL for file: " +:+ originalFileName) in
               let* ocrValue :=
                 logged (OcrProcess signedUrl)
                   (fun w => ocr_process svc w signedUrl)
                   ("Error during OCR process for file: " +:+ originalFileName) in
               let* ocrResponse := alloc ocrValue in
               (if String.eqb (trim (markdownOutputFolder settings)) "" then ret tt
                else createFolderIfNotExists (trim (markdownOutputFolder settings))) >>
               createFolderIfNotExists (finalImagesPathOf settings) >>
               let* finalMd :=
                 combineMarkdownWithImages svc ocrResponse pdfBaseName
                   (finalImagesPathOf settings) in
               vault_create (targetMdPathOf settings pdfBaseName) finalMd) w).
  { subst run. unfold processPDFInternal at 1.
    unfold bind at 1, getAbstractFileByPath. rewrite Hfree.
    apply String.eqb_neq in Hkey. now rewrite Hkey. }
  rewrite Hstart. split; [| intros uploaded Hup; split].
  - intros Hfail. unfold bind at 1.
    now rewrite (logged_Throw _ _ _ _ e Hfail).
  - intros Hfail. unfold bind at 1. rewrite (logged_Ok _ _ _ _ uploaded Hup).
    unfold bind at 1.
    rewrite (logged_Throw _ _ _ (logged_more w [upload]) e)
      by now rewrite logged_more_more.
    now rewrite logged_more_more.
  - intros signedUrl Hurl Hfail. unfold bind at 1.
    rewrite (logged_Ok _ _ _ _ uploaded Hup). unfold bind at 1.
    rewrite (logged_Ok _ _ _ (logged_more w [upload]) signedUrl)
      by now rewrite logged_more_more.
    unfold bind at 1. rewrite logged_more_more.
    rewrite (logged_Throw _ _ _ _ e) by now rewrite logged_more_more.
    now rewrite logged_more_more.
Qed.

End RemoteCalls.

Section RemoteCallsWitnesses.

Lemma X5_missing_api_key_witness :
  processPDFInternal (Examples.services {| pages := None |} None None)
    Cases.settings_without_key "%PDF" "doc" "doc.pdf" Cases.world_with_pdf
  = (Throw (Error "Mistral API key is not set in settings."), Cases.world_with_pdf).
Proof.
  apply (X5_missing_api_key (Examples.services {| pages := None |} None None)
           Cases.settings_without_key Examples.pdf_file "%PDF" Cases.world_with_pdf);
    reflexivity.
Defined.

Lemma X6_remote_failure_witness :
  processPDFInternal Cases.services_upload_down (Examples.settings_with "out" [])
    "%PDF" "doc" "doc.pdf" Cases.world_with_pdf
  = (Throw (Error "network down"),
     logged_more Cases.world_with_pdf
       [Upload "doc.pdf" "%PDF"; ConsoleError "Error uploading file: doc.pdf"]).
Proof.
  apply (X6_remote_failure Cases.services_upload_down (Examples.settings_with "out" [])
           "%PDF" "doc" "doc.pdf" Cases.world_with_pdf (Error "network down")).
  - reflexivity.
  - discriminate.
  - reflexivity.
Defined.

End RemoteCallsWitnesses.

Section CommandsNeverRaise.

Variable svc : Services.
Variable settings : PDFToMarkdownSettings.

Lemma for_each_returns {A S} (body : S -> A -> M S) :
  (forall acc x w, exists acc', fst (body acc x w) = Ok acc') ->
  forall l acc w, exists acc', fst (for_each l body acc w) = Ok acc'.
Proof.
  intros Hbody l. induction l as [|x l IH]; intros acc w; simpl.
  - now exists acc.
  - unfold bind. destruct (Hbody acc x w) as [acc' H].
    destruct (body acc x w) as [[a|e] w']; simpl in H; [apply IH | discriminate].
Qed.

Lemma try_catch_returns {A} (m : M A) (h : Exn -> M A) (w : World) :
  (forall e w', exists a, fst (h e w') = Ok a) ->
  exists a, fst (try_catch m h w) = Ok a.
Proof.
  intros Hh. unfold try_catch. destruct (m w) as [[a|e] w']; [now exists a |].
  apply Hh.
Qed.

Lemma bind_get_world {B} (k : World -> M B) (w : World) :
  bind get_world k w = k w w.
Proof. reflexivity. Qed.

Lemma processPickedFile_returns (file : PickedFile) (w : World) :
  exists u, fst (processPickedFile svc settings tt file w) = Ok u.
Proof.
  unfold processPickedFile.
  destruct (negb (String.eqb (file_type file) "application/pdf")); [now exists tt |].
  unfold bind at 1. rewrite emit_logged.
  apply try_catch_returns. intros e w'. now exists tt.
Qed.



End CommandsNeverRaise.

Section Reingestion.

Variable svc : Services.
Variable settings : PDFToMarkdownSettings.

(** X9 (processPDFInternal): when an ingestion returns normally, the
    destination markdown path holds something afterwards, so that a second
    ingestion of a document of the same base name, with whatever content
    and collaborators, does nothing but show the notice that the markdown
    already exists. *)
Theorem X9_second_ingestion_is_stopped
    (pdfContent pdfBaseName originalFileName : string) (w : World) :
  let run := processPDFInternal svc settings pdfContent pdfBaseName originalFileName w in
  let targetMdPath := targetMdPathOf settings pdfBaseName in
  fst run = Ok tt ->
  is_Some (vault (snd run) !! targetMdPath)
  /\ forall (svc' : Services) (pdfContent' originalFileName' : string),
       processPDFInternal svc' settings pdfContent' pdfBaseName originalFileName'
         (snd run)
       = (Ok tt,
          logged_more (snd run)
            [Notice ("Error: " +:+ dq +:+ targetMdPath +:+ dq
                     +:+ " already exists. Processing stopped.")]).
Proof.
  intros run targetMdPath Hok.
  assert (Hthere : is_Some (vault (snd run) !! targetMdPath)).
  { destruct (vault w !! targetMdPath) as [existing|] eqn:Hlook.
    - subst run. unfold processPDFInternal, bind, getAbstractFileByPath.
      fold targetMdPath. rewrite Hlook. cbn [snd emit vault]. rewrite Hlook. eauto.
    - destruct run as [r w'] eqn:Hrun. cbn [fst] in Hok. subst r. cbn [snd].
      destruct (processPDFInternal_creates_target svc settings pdfContent pdfBaseName
                  originalFileName w w' Hlook Hrun) as (finalMd & w1 & Hv & _).
      rewrite Hv. fold targetMdPath. rewrite lookup_insert_eq. eauto. }
  split; [exact Hthere |].
  intros svc' pdfContent' originalFileName'.
  destruct Hthere as [entry Hentry].
  unfold processPDFInternal, bind, getAbstractFileByPath.
  fold targetMdPath. now rewrite Hentry.
Qed.

End Reingestion.

Lemma X9_second_ingestion_is_stopped_witness :
  is_Some (vault (snd (processPDFInternal
                         (Examples.services {| pages := None |} None None)
                         (Examples.settings_with "out" []) "%PDF" "doc" "doc.pdf"
                         Cases.world_with_pdf))
           !! "out/doc.md").
Proof.
  apply (X9_second_ingestion_is_stopped
           (Examples.services {| pages := None |} None None)
           (Examples.settings_with "out" []) "%PDF" "doc" "doc.pdf"
           Cases.world_with_pdf).
  reflexivity.
Defined.

Section SummarizerFootprint.

Variable svc : Services.
Variable settings : PDFToMarkdownSettings.

(** The loop over the matches never raises and leaves the vault and the
    heap alone. *)
Lemma summarizeKeys_logs (gen : World -> string -> Result GenResult)
    (promptMap : PromptMap) (srcContent : string) (ms : list MatchInfo) :
  forall noteContent w,
    exists updated events,
      summarizeKeys gen promptMap srcContent ms noteContent w
      = (Ok updated, logged_more w events).
Proof.
  induction ms as [|m ms IH]; intros noteContent w.
  - exists (Some noteContent), []. now rewrite logged_more_nil.
  - destruct (gen (logged_more w [Generate (promptTextOf promptMap srcContent m)])
                (promptTextOf promptMap srcContent m)) as [result|e] eqn:Hgen.
    + rewrite (summarizeKeys_resolved _ _ _ _ _ _ _ _ Hgen).
      destruct (IH (replaceString (fullMatch m) (summaryTextOf result) noteContent)
                  (logged_more w [Generate (promptTextOf promptMap srcContent m)]))
        as (updated & events & E).
      rewrite E, logged_more_more. eauto.
    + simpl. unfold bind. rewrite emit_logged. unfold get_world.
      rewrite Hgen, emit_logged, logged_more_more. unfold ret. eauto.
Qed.

(** The three ways in which the summarization phase ends. *)
Lemma summarizeNote_shape (activeFile srcFile : TFile) (w w' : World)
    (r : Result unit) :
  summarizeNote svc settings activeFile srcFile w = (r, w') ->
  (exists e, r = Throw e /\ w' = w
             /\ ((forall data, vault w !! path srcFile <> Some (File data))
                 \/ (forall data, vault w !! path activeFile <> Some (File data))))
  \/ (r = Ok tt /\ exists events, w' = logged_more w events)
  \/ (r = Ok tt
      /\ exists old new events,
           vault w !! path activeFile = Some (File old)
           /\ w' = {| vault := <[path activeFile := File new]> (vault w);
                      heap := heap w;
                      log := log w ++ events |}).
Proof.
  intros Hrun. unfold summarizeNote in Hrun.
  unfold bind at 1 in Hrun. unfold vault_read at 1 in Hrun.
  rewrite bind_get_world in Hrun.
  destruct (vault w !! path srcFile) as [[srcContent|]|] eqn:Hsrc;
    try (injection Hrun as <- <-; left; eexists; repeat split; left; congruence).
  unfold ret at 1 in Hrun. unfold bind at 1 in Hrun.
  unfold vault_read at 1 in Hrun. rewrite bind_get_world in Hrun.
  destruct (vault w !! path activeFile) as [[noteContent|]|] eqn:Hnote;
    try (injection Hrun as <- <-; left; eexists; repeat split; right; congruence).
  unfold ret at 1 in Hrun.
  destruct (keysToProcessOf settings noteContent) as [|k ks].
  { rewrite emit_logged in Hrun. injection Hrun as <- <-. right; left. eauto. }
  destruct (textGenerator svc) as [gen|].
  2: { rewrite emit_logged in Hrun. injection Hrun as <- <-. right; left. eauto. }
  unfold bind at 1 in Hrun. rewrite emit_logged in Hrun. unfold bind at 1 in Hrun.
  destruct (summarizeKeys_logs gen (promptMapOf settings) srcContent
              (validMatchesOf settings noteContent) noteContent
              (logged_more w
                 [Notice ("AI要約を開始: "
                          +:+ pretty (length (validMatchesOf settings noteContent))
                          +:+ "件のキーを処理")]))
    as ([noteContent'|] & events & E); rewrite E in Hrun.
  - right; right. injection Hrun as <- <-. split; [reflexivity |].
    exists noteContent, noteContent'. eexists. split; [reflexivity |].
    unfold logged_more. cbn [vault heap log]. rewrite <- !app_assoc. reflexivity.
  - right; left. injection Hrun as <- <-. rewrite logged_more_more. eauto.
Qed.

(** X10 (processPdfAndSummarize, lines 424-497): the summarization phase
    never touches the heap; it leaves the vault as it was or replaces the
    content of the active note, a file that was there, and nothing else;
    and it raises only when the OCR markdown or the note cannot be read,
    before any effect. A failure of the generator is not raised. *)
Theorem X10_summarization_footprint (activeFile srcFile : TFile) (w : World) :
  let run := summarizeNote svc settings activeFile srcFile w in
  heap (snd run) = heap w
  /\ (vault (snd run) = vault w
      \/ exists old new,
           vault w !! path activeFile = Some (File old)
           /\ vault (snd run) = <[path activeFile := File new]> (vault w))
  /\ forall e, fst run = Throw e ->
       snd run = w
       /\ ((forall data, vault w !! path srcFile <> Some (File data))
           \/ (forall data, vault w !! path activeFile <> Some (File data))).
Proof.
  intros run. destruct run as [r w'] eqn:Hrun. subst run. cbn [fst snd].
  destruct (summarizeNote_shape _ _ _ _ _ Hrun)
    as [(e & -> & -> & Hread) | [(-> & events & ->) | (-> & old & new & events & Hold & ->)]].
  - split; [reflexivity | split; [now left | now intros e' _]].
  - split; [reflexivity | split; [now left | intros e He; discriminate He]].
  - split; [reflexivity | split; [| intros e He; discriminate He]].
    right. now exists old, new.
Qed.

End SummarizerFootprint.

Section SummarizeCommand.

Variable svc : Services.
Variable settings : PDFToMarkdownSettings.

Lemma framed_overwrite (created overwritten : string -> Prop) (w w' : World)
    (p : string) (old new : Entry) :
  overwritten p -> vault w !! p = Some old -> vault w' = <[p := new]> (vault w) ->
  framed created overwritten w w'.
Proof.
  intros Ho Hold E. unfold framed. rewrite E. repeat split.
  - intros q Hq _. rewrite lookup_insert_ne; [exact Hq | congruence].
  - intros q x Hq Hn. rewrite lookup_insert_ne; [exact Hq | now intros ->].
  - intros q Hq. destruct (decide (p = q)) as [->|Hne].
    + rewrite lookup_insert_eq. eauto.
    + now rewrite lookup_insert_ne.
Qed.

Lemma keeps_frame_summarizeNote (created overwritten : string -> Prop)
    (activeFile srcFile : TFile) :
  overwritten (path activeFile) ->
  keeps (framed created overwritten) (summarizeNote svc settings activeFile srcFile).
Proof.
  intros Ho w.
  destruct (summarizeNote svc settings activeFile srcFile w) as [r w'] eqn:Hrun.
  destruct (summarizeNote_shape _ _ _ _ _ _ _ Hrun)
    as [(e & -> & -> & _) | [(-> & events & ->) | (-> & old & new & events & Hold & ->)]].
  - apply framed_refl.
  - now apply framed_same_vault.
  - now apply (framed_overwrite _ _ _ _ (path activeFile) (File old) (File new)).
Qed.


Lemma strip_prefix_None (p s : string) :
  (forall rest, s <> p +:+ rest) -> strip_prefix p s = None.
Proof.
  intros H. destruct (strip_prefix p s) as [rest|] eqn:E; [| reflexivity].
  apply strip_prefix_Some in E. now elim (H rest).
Qed.

(** X12 (processPdfAndSummarize, lines 373-382): a note whose title does
    not start with the prefix is refused: the command shows one notice that
    names the title and does nothing else; no file is searched, read or
    written and no request is made. *)
Theorem X12_note_without_prefix_is_refused (activeFile : TFile) (w : World) :
  getActiveFile svc w = Some activeFile ->
  (forall rest, basename activeFile <> "【Note】" +:+ rest) ->
  processPdfAndSummarize svc settings w
  = (Ok tt,
     logged_more w
       [Notice ("【Note】プレフィックスがありません: " +:+ basename activeFile)]).
Proof.
  intros Hactive Hprefix. unfold processPdfAndSummarize. rewrite bind_get_world.
  rewrite Hactive, (strip_prefix_None _ _ Hprefix). cbn [default].
  now rewrite String.eqb_refl.
Qed.

End SummarizeCommand.

Lemma X12_note_without_prefix_is_refused_witness :
  processPdfAndSummarize
    (Examples.services {| pages := None |} None (Some Examples.note_file))
    (Examples.settings_with "out" []) (Examples.note_world "text")
  = (Ok tt,
     logged_more (Examples.note_world "text")
       [Notice ("【Note】プレフィックスがありません: " +:+ "doc-note")]).
Proof.
  apply (X12_note_without_prefix_is_refused
           (Examples.services {| pages := None |} None (Some Examples.note_file))
           (Examples.settings_with "out" []) Examples.note_file
           (Examples.note_world "text")).
  - reflexivity.
  - intros rest H. cbv in H. discriminate H.
Defined.

Section WhiteSpace.

Lemma string_length_ind (P : string -> Prop) :
  (forall s, (forall t, String.length t < String.length s -> P t) -> P s) ->
  forall s, P s.
Proof.
  intros H s. remember (String.length s) as n eqn:E. revert s E.
  induction n as [n IH] using lt_wf_ind. intros s ->.
  apply H. intros t Ht. now apply (IH (String.length t)).
Qed.

(** A white space character is a prefix of one to three bytes. *)
Lemma white_space_split (s s' : string) :
  white_space s = Some s' -> exists c w, s = String c w +:+ s'.
Proof.
  destruct s as [|c1 [|c2 [|c3 s3]]]; cbn [white_space]; try discriminate.
  - destruct (ws1 c1); [| discriminate]. intros [= <-]. now exists c1, "".
  - destruct (ws1 c1); [intros [= <-]; now exists c1, "" |].
    destruct (ws2 c1 c2); [| discriminate]. intros [= <-].
    now exists c1, (String c2 "").
  - destruct (ws1 c1); [intros [= <-]; now exists c1, "" |].
    destruct (ws2 c1 c2); [intros [= <-]; now exists c1, (String c2 "") |].
    destruct (ws3 c1 c2 c3); [| discriminate]. intros [= <-].
    now exists c1, (String c2 (String c3 "")).
Qed.

Lemma white_space_shorter (s s' : string) :
  white_space s = Some s' -> String.length s' < String.length s.
Proof.
  intros H. apply white_space_split in H as (c & w & ->).
  rewrite length_append. simpl. lia.
Qed.

Lemma trimStart_eq (s : string) :
  trimStart s = match white_space s with Some s' => trimStart s' | None => s end.
Proof.
  destruct s as [|c1 [|c2 [|c3 s3]]]; [reflexivity | | |];
    cbn [white_space]; cbn [trimStart];
    destruct (ws1 c1); try reflexivity;
    destruct (ws2 c1 c2); try reflexivity;
    destruct (ws3 c1 c2 c3); reflexivity.
Qed.

Lemma all_ws_eq (s : string) :
  all_ws s = match s with
             | EmptyString => true
             | _ => match white_space s with Some s' => all_ws s' | None => false end
             end.
Proof.
  destruct s as [|c1 [|c2 [|c3 s3]]]; [reflexivity | | |];
    cbn [white_space]; cbn [all_ws];
    destruct (ws1 c1); try reflexivity;
    destruct (ws2 c1 c2); try reflexivity;
    destruct (ws3 c1 c2 c3); reflexivity.
Qed.

Lemma greedy_ws_eq (k : cont) (s : string) :
  greedy_ws k s
  = match white_space s with
    | Some s' => match greedy_ws k s' with Some r => Some r | None => k s end
    | None => k s
    end.
Proof.
  destruct s as [|c1 [|c2 [|c3 s3]]]; [reflexivity | | |];
    cbn [white_space]; cbn [greedy_ws];
    destruct (ws1 c1); try reflexivity;
    destruct (ws2 c1 c2); try reflexivity;
    destruct (ws3 c1 c2 c3); reflexivity.
Qed.

Lemma white_space_app_Some (a a' b : string) :
  white_space a = Some a' -> white_space (a +:+ b) = Some (a' +:+ b).
Proof.
  destruct a as [|c1 [|c2 [|c3 a3]]]; cbn [white_space]; try discriminate;
    rewrite ?append_cons, ?append_nil_l; cbn [white_space].
  - destruct (ws1 c1); [| discriminate]. now intros [= <-].
  - destruct (ws1 c1); [now intros [= <-] |].
    destruct (ws2 c1 c2); [| discriminate]. now intros [= <-].
  - destruct (ws1 c1); [now intros [= <-] |].
    destruct (ws2 c1 c2); [now intros [= <-] |].
    destruct (ws3 c1 c2 c3); [| discriminate]. now intros [= <-].
Qed.

(** No white space character begins a text of which a longer text does not
    begin with one. *)
Lemma white_space_prefix_None (a b : string) :
  white_space (a +:+ b) = None -> white_space a = None.
Proof.
  destruct a as [|c1 [|c2 [|c3 a3]]]; [reflexivity | | |];
    rewrite ?append_cons, ?append_nil_l; cbn [white_space].
  - destruct (ws1 c1); [discriminate | reflexivity].
  - destruct (ws1 c1); [discriminate |].
    destruct b as [|d b]; [now rewrite ?append_nil_r |].
    destruct (ws2 c1 c2); [discriminate | reflexivity].
  - destruct (ws1 c1); [discriminate |].
    destruct (ws2 c1 c2); [discriminate |].
    now destruct (ws3 c1 c2 c3).
Qed.

Lemma all_ws_app (a b : string) : all_ws a = true -> all_ws (a +:+ b) = all_ws b.
Proof.
  induction a as [a IH] using string_length_ind. intros Ha.
  destruct a as [|c a]; [now rewrite append_nil_l |].
  rewrite all_ws_eq in Ha.
  destruct (white_space (String c a)) as [a'|] eqn:E; [| discriminate Ha].
  rewrite all_ws_eq, append_cons. rewrite <- append_cons.
  rewrite (white_space_app_Some _ _ b E).
  apply IH; [now apply white_space_shorter | exact Ha].
Qed.

Lemma white_space_trimStart (s : string) : white_space (trimStart s) = None.
Proof.
  induction s as [s IH] using string_length_ind.
  rewrite trimStart_eq. destruct (white_space s) as [s'|] eqn:E; [| exact E].
  apply IH. now apply white_space_shorter.
Qed.

Lemma length_trimStart (s : string) : String.length (trimStart s) <= String.length s.
Proof.
  induction s as [s IH] using string_length_ind.
  rewrite trimStart_eq. destruct (white_space s) as [s'|] eqn:E; [| lia].
  pose proof (white_space_shorter _ _ E). specialize (IH s' H). lia.
Qed.

Lemma trimStart_fixed (s : string) : white_space s = None -> trimStart s = s.
Proof. intros H. now rewrite trimStart_eq, H. Qed.

Lemma trimEnd_cons (c : ascii) (s : string) :
  trimEnd (String c s)
  = if all_ws (String c s) then EmptyString else String c (trimEnd s).
Proof. reflexivity. Qed.

(** [trimEnd] cuts off white space and nothing else. *)
Lemma trimEnd_split (s : string) :
  exists z, s = trimEnd s +:+ z /\ all_ws z = true.
Proof.
  induction s as [|c s (z & Hs & Hz)]; [now exists "" |].
  rewrite trimEnd_cons. destruct (all_ws (String c s)) eqn:E.
  - exists (String c s). now rewrite append_nil_l.
  - exists z. split; [| exact Hz]. now rewrite append_cons, <- Hs.
Qed.

Lemma length_trimEnd (s : string) : String.length (trimEnd s) <= String.length s.
Proof.
  destruct (trimEnd_split s) as (z & Hs & _). rewrite Hs at 2.
  rewrite length_append. lia.
Qed.

Lemma trimEnd_idempotent (s : string) : trimEnd (trimEnd s) = trimEnd s.
Proof.
  induction s as [|c s IH]; [reflexivity |].
  rewrite trimEnd_cons. destruct (all_ws (String c s)) eqn:E; [reflexivity |].
  rewrite trimEnd_cons, IH.
  destruct (all_ws (String c (trimEnd s))) eqn:E'; [| reflexivity].
  destruct (trimEnd_split s) as (z & Hs & Hz).
  rewrite Hs, <- append_cons, (all_ws_app _ z E'), Hz in E. discriminate E.
Qed.

(** A text that [trimEnd] leaves as it is has no end made of white space. *)
Lemma trimEnd_fixed (s : string) :
  trimEnd s = s ->
  forall a b, s = a +:+ b -> b <> "" -> all_ws b = false.
Proof.
  intros Hs a. revert s Hs. induction a as [|c a IH]; intros s Hs b E Hb.
  - rewrite append_nil_l in E. subst b. destruct s as [|c s]; [now elim Hb |].
    rewrite trimEnd_cons in Hs. now destruct (all_ws (String c s)).
  - rewrite append_cons in E. subst s. rewrite trimEnd_cons in Hs.
    destruct (all_ws (String c (a +:+ b))); [discriminate Hs |].
    injection Hs as Hs. now apply (IH _ Hs).
Qed.

Lemma trim_idempotent (s : string) : trim (trim s) = trim s.
Proof.
  unfold trim. destruct (trimEnd_split (trimStart s)) as (z & Hs & _).
  rewrite (trimStart_fixed (trimEnd (trimStart s))).
  - apply trimEnd_idempotent.
  - apply (white_space_prefix_None _ z). rewrite <- Hs. apply white_space_trimStart.
Qed.

(** A text that [trim] leaves as it is begins with no white space and has
    no end made of white space. *)
Lemma trim_fixed (s : string) :
  trim s = s -> white_space s = None /\ trimEnd s = s.
Proof.
  intros H. unfold trim in H.
  assert (Hstart : trimStart s = s).
  { pose proof (length_trimStart s) as H1.
    pose proof (length_trimEnd (trimStart s)) as H2. rewrite H in H2.
    rewrite trimStart_eq in H1 |- *.
    destruct (white_space s) as [s'|] eqn:E; [| reflexivity].
    pose proof (white_space_shorter _ _ E). rewrite trimStart_eq, E in H2.
    pose proof (length_trimStart s'). lia. }
  rewrite Hstart in H. split; [| exact H].
  rewrite <- Hstart. apply white_space_trimStart.
Qed.

Lemma length_trim (s : string) : String.length (trim s) <= String.length s.
Proof.
  unfold trim. pose proof (length_trimEnd (trimStart s)).
  pose proof (length_trimStart s). lia.
Qed.

End WhiteSpace.

Section TrimmedKeys.

Variable settings : PDFToMarkdownSettings.

(** X13 (processPdfAndSummarize, lines 431-444): a key that the command
    processes is a configured key comment, other than [__proto__], that is
    equal to its own trimmed form, since the keys of the note are trimmed
    and the configured ones are not. So a prompt whose key comment was
    saved with white space around it is never used, whatever the note
    holds. *)
Theorem X13_processed_keys_are_trimmed (noteContent k : string) :
  k ∈ keysToProcessOf settings noteContent ->
  trim k = k
  /\ k <> "__proto__"
  /\ exists item, item ∈ summaryPrompts settings /\ keyComment item = k.
Proof.
  unfold keysToProcessOf, keysInNoteOf. intros Hk.
  apply list_elem_of_filter in Hk as [Hnote Hconf].
  apply configured_keys in Hconf. split; [| exact Hconf].
  apply elem_of_list_to_set in Hnote.
  apply list_elem_of_fmap in Hnote as (m & -> & _).
  unfold matchKey. apply trim_idempotent.
Qed.

End TrimmedKeys.

Lemma X13_processed_keys_are_trimmed_witness :
  trim "summary" = "summary"
  /\ "summary" <> "__proto__"
  /\ exists item, item ∈ Examples.summary_prompts /\ keyComment item = "summary".
Proof.
  apply (X13_processed_keys_are_trimmed
           (Examples.settings_with "out" Examples.summary_prompts)
           ("A note. <!--" +:+ Examples.ideographic_space +:+ "summary"
            +:+ Examples.no_break_space +:+ "-->")
           "summary").
  vm_compute. constructor.
Defined.

Section PromptMapFacts.

Lemma set_property_NoDup (o : PromptMap) (k v : string) :
  NoDup (map fst o) -> NoDup (map fst (set_property o k v)).
Proof.
  induction o as [|[k' v'] o IH]; simpl; intros H.
  - apply NoDup_singleton.
  - apply NoDup_cons in H as [Hnot H].
    destruct (String.eqb_spec k' k) as [->|Hne]; simpl.
    + now apply NoDup_cons.
    + apply NoDup_cons. split; [| now apply IH].
      rewrite set_property_keys. intros [E|Hin]; [now elim Hne | now elim Hnot].
Qed.

Lemma buildPromptMap_NoDup (items : list SummaryPromptItem) :
  NoDup (map fst (buildPromptMap items)).
Proof.
  unfold buildPromptMap.
  assert (G : forall acc : PromptMap,
             NoDup (map fst acc) ->
             NoDup (map fst (fold_left
                               (fun o item =>
                                  if String.eqb (keyComment item) "__proto__" then o
                                  else set_property o (keyComment item) (prompt item))
                               items acc))).
  { induction items as [|item items IH]; intros acc Hacc; simpl; [exact Hacc |].
    apply IH. destruct (String.eqb (keyComment item) "__proto__"); [exact Hacc |].
    now apply set_property_NoDup. }
  apply G. constructor.
Qed.

Lemma Object_keys_perm (o : PromptMap) : Object_keys o ≡ₚ map fst o.
Proof.
  unfold Object_keys. generalize (map fst o) as ks.
  induction ks as [|k ks IH]; [reflexivity |].
  rewrite filter_cons. cbn [omap list_omap].
  destruct (array_index k) as [n|] eqn:E; cbn [fmap option_fmap option_map].
  - case_decide as Hd; [discriminate Hd |].
    cbn [foldr]. rewrite insert_index_perm. cbn [map app snd]. now rewrite IH.
  - case_decide as Hd; [| now elim Hd].
    rewrite <- Permutation_middle. now rewrite IH.
Qed.

Lemma get_set_same (o : PromptMap) (k v : string) :
  get_property (set_property o k v) k = Some v.
Proof.
  induction o as [|[k' v'] o IH]; simpl.
  - now rewrite String.eqb_refl.
  - destruct (String.eqb k' k) eqn:E; simpl; rewrite E; [reflexivity | exact IH].
Qed.

Lemma get_set_other (o : PromptMap) (k v k0 : string) :
  k0 <> k -> get_property (set_property o k v) k0 = get_property o k0.
Proof.
  intros Hne. induction o as [|[k' v'] o IH]; simpl.
  - apply String.eqb_neq in Hne. now rewrite String.eqb_sym, Hne.
  - destruct (String.eqb_spec k' k) as [->|Hk]; simpl.
    + apply String.eqb_neq in Hne. now rewrite String.eqb_sym, Hne.
    + now rewrite IH.
Qed.

Variable settings : PDFToMarkdownSettings.

(** X14 (processPdfAndSummarize, lines 438-459): the keys to process are
    pairwise distinct, and the matches to replace are one per key, in the
    order of the keys, each one a marker found in the note. So a key is
    sent to the generator at most once, however often its marker or its
    prompt is repeated. *)
Theorem X14_one_match_per_key (noteContent : string) :
  NoDup (keysToProcessOf settings noteContent)
  /\ map key (validMatchesOf settings noteContent)
     = keysToProcessOf settings noteContent
  /\ forall m, m ∈ validMatchesOf settings noteContent ->
       exists found, found ∈ allMatchesOf noteContent
                     /\ fullMatch m = fst found /\ key m = matchKey found.
Proof.
  split; [| split].
  - unfold keysToProcessOf. apply NoDup_filter.
    rewrite Object_keys_perm. apply buildPromptMap_NoDup.
  - unfold validMatchesOf.
    assert (G : forall ks,
               (forall k, k ∈ ks -> k ∈ keysInNoteOf noteContent) ->
               map key
                 (omap (fun k =>
                          (fun m => {| fullMatch := fst m; key := matchKey m |})
                          <$> find (fun m => String.eqb (matchKey m) k)
                                (allMatchesOf noteContent)) ks)
               = ks).
    { induction ks as [|k ks IH]; intros Hks; [reflexivity |].
      cbn [omap list_omap].
      assert (Hk : k ∈ keysInNoteOf noteContent) by (apply Hks; left).
      unfold keysInNoteOf in Hk. apply elem_of_list_to_set in Hk.
      apply list_elem_of_fmap in Hk as (m & Hm & Hin).
      destruct (find _ (allMatchesOf noteContent)) as [m0|] eqn:Hfind.
      - apply find_some in Hfind as [_ Hm0]. apply String.eqb_eq in Hm0.
        cbn [fmap option_fmap option_map map key]. rewrite Hm0. f_equal.
        apply IH. intros k' Hk'. apply Hks. now right.
      - apply list_elem_of_In in Hin.
        pose proof (find_none _ _ Hfind m Hin) as Hno. cbn beta in Hno.
        rewrite <- Hm, String.eqb_refl in Hno. discriminate Hno. }
    apply G. unfold keysToProcessOf. intros k Hk.
    now apply list_elem_of_filter in Hk as [Hk _].
  - unfold validMatchesOf. intros m Hm.
    apply list_elem_of_omap in Hm as (k & _ & Hm).
    destruct (find _ (allMatchesOf noteContent)) as [m0|] eqn:Hfind;
      [| discriminate Hm].
    injection Hm as <-. apply find_some in Hfind as [Hin _].
    exists m0. split; [now apply list_elem_of_In | now split].
Qed.

(** X15 (processPdfAndSummarize, lines 438-441 and 474-477): when several
    prompts are configured with the same key comment, the prompt of the last
    one is the one sent to the generator, before the separator and the OCR
    text. *)
Theorem X15_last_prompt_wins (before : list SummaryPromptItem)
    (item : SummaryPromptItem) (after : list SummaryPromptItem) :
  summaryPrompts settings = before ++ item :: after ->
  keyComment item <> "__proto__" ->
  (forall later, later ∈ after -> keyComment later <> keyComment item) ->
  get_property (promptMapOf settings) (keyComment item) = Some (prompt item)
  /\ forall srcContent m,
       key m = keyComment item ->
       promptTextOf (promptMapOf settings) srcContent m
       = prompt item +:+ String "010" (String "010" "---")
         +:+ String "010" (String "010" srcContent).
Proof.
  intros Hitems Hproto Hlast.
  assert (Hget : get_property (promptMapOf settings) (keyComment item)
                 = Some (prompt item)).
  { unfold promptMapOf, buildPromptMap. rewrite Hitems, fold_left_app. simpl.
    apply String.eqb_neq in Hproto. rewrite Hproto.
    generalize (fold_left
                  (fun o item0 =>
                     if String.eqb (keyComment item0) "__proto__" then o
                     else set_property o (keyComment item0) (prompt item0))
                  before []) as acc.
    intros acc.
    assert (G : forall o,
               get_property o (keyComment item) = Some (prompt item) ->
               get_property
                 (fold_left
                    (fun o item0 =>
                       if String.eqb (keyComment item0) "__proto__" then o
                       else set_property o (keyComment item0) (prompt item0))
                    after o) (keyComment item) = Some (prompt item)).
    { clear Hitems. induction after as [|later after' IH]; intros o Ho; [exact Ho |].
      simpl. apply IH.
      - intros l Hl. apply Hlast. now right.
      - destruct (String.eqb (keyComment later) "__proto__"); [exact Ho |].
        rewrite get_set_other; [exact Ho |].
        intros E. apply (Hlast later); [left | now symmetry]. }
    apply G, get_set_same. }
  split; [exact Hget |].
  intros srcContent m Hm. unfold promptTextOf. now rewrite Hm, Hget.
Qed.

End PromptMapFacts.

Lemma X15_last_prompt_wins_witness :
  get_property
    (promptMapOf
       (Examples.settings_with "out"
          [ {| keyComment := "summary"; prompt := "Old." |};
            {| keyComment := "summary"; prompt := "Summarize." |} ]))
    "summary"
  = Some "Summarize.".
Proof.
  apply (X15_last_prompt_wins
           (Examples.settings_with "out"
              [ {| keyComment := "summary"; prompt := "Old." |};
                {| keyComment := "summary"; prompt := "Summarize." |} ])
           [ {| keyComment := "summary"; prompt := "Old." |} ]
           {| keyComment := "summary"; prompt := "Summarize." |} []).
  - reflexivity.
  - discriminate.
  - intros later Hlater. now apply elem_of_nil in Hlater.
Defined.

Section BatchInFlight.

Import Batch.

Context {Doc : Type}.

Lemma awaiting_le (ws : list (Worker Doc)) : awaiting ws <= length ws.
Proof. induction ws as [|[d|] ws IH]; simpl; lia. Qed.

Lemma awaiting_full (ws : list (Worker Doc)) :
  awaiting ws = length ws \/ Exists (fun w => w = Finished) ws.
Proof.
  induction ws as [|[d|] ws IH]; simpl.
  - now left.
  - destruct IH as [->|H]; [now left | right; now apply Exists_cons_tl].
  - right. now apply Exists_cons_hd.
Qed.

(** X16 (PDFSelectionModal.onOpen, lines 603-631): the pool keeps as many
    ingestions in flight as it can. After any number of settlements, in any
    order and with any outcomes, the number of suspended workers is the
    smaller of the limit and the number of documents not yet settled, and
    the number of calls of [processPDFfromTFile] made so far is the smaller
    of the number of selected files and the limit plus the number of
    settlements. With a limit of 0 no worker is created: the batch is over
    at once and no file is processed. *)
Theorem X16_pool_keeps_limit_in_flight
    (selectedFiles : list Doc) (concurrencyLimit : nat)
    (schedule : list (nat * bool)) (s : State Doc) :
  run schedule (start selectedFiles concurrencyLimit) = Some s ->
  length schedule <= length selectedFiles
  /\ awaiting (workers s)
     = Nat.min concurrencyLimit (length selectedFiles - length schedule)
  /\ length (started s)
     = Nat.min (length selectedFiles) (concurrencyLimit + length schedule)
  /\ (concurrencyLimit = 0 ->
      schedule = [] /\ all_finished s /\ started s = [] /\ queue s = selectedFiles).
Proof.
  intros Hrun.
  pose proof (start_inv selectedFiles concurrencyLimit) as Hstart.
  destruct (run_inv _ _ _ _ _ Hstart Hrun)
    as ([Hsplit Hcount Hdrained Hlen] & Hp & _ & _).
  assert (Hp0 : pending (start selectedFiles concurrencyLimit) = length selectedFiles).
  { unfold start. rewrite spawn_pending. unfold pending; simpl. lia. }
  rewrite Hp0 in Hp. unfold pending in Hp.
  pose proof (awaiting_le (workers s)) as Hle.
  assert (Hstarted : length (started s) + length (queue s) = length selectedFiles).
  { now rewrite <- Hsplit, length_app. }
  assert (Hflight : awaiting (workers s)
                    = Nat.min concurrencyLimit
                        (length selectedFiles - length schedule)).
  { destruct (awaiting_full (workers s)) as [Hfull|Hfin].
    - lia.
    - rewrite (Hdrained Hfin) in Hp. simpl in Hp. lia. }
  split; [lia |]. split; [exact Hflight |]. split; [lia |].
  intros ->. rewrite Nat.min_0_l in Hflight.
  assert (Hnil : workers s = []) by (destruct (workers s); [reflexivity | discriminate]).
  assert (Hsched : schedule = []).
  { destruct schedule as [|[i ok] schedule]; [reflexivity |].
    simpl in Hrun. unfold settle in Hrun. simpl in Hrun. discriminate Hrun. }
  subst schedule. simpl in Hrun. injection Hrun as <-.
  repeat split. constructor.
Qed.

End BatchInFlight.

Lemma X16_pool_keeps_limit_in_flight_witness :
  exists s : Batch.State string,
    Batch.run [(1, true)] (Batch.start ["a.pdf"; "b.pdf"; "c.pdf"; "d.pdf"] 2) = Some s
    /\ Batch.awaiting (Batch.workers s) = 2
    /\ length (Batch.started s) = 3.
Proof.
  eexists. split; [reflexivity |].
  refine ((fun H => conj (proj1 (proj2 H)) (proj1 (proj2 (proj2 H))))
            (X16_pool_keeps_limit_in_flight ["a.pdf"; "b.pdf"; "c.pdf"; "d.pdf"] 2
               [(1, true)] _ eq_refl)).
Defined.

Section ReferenceRewriting.

Variable r : regex.
Variable f : string -> string -> string -> string.
Variable l : string.

(** The patterns that start with a literal exclamation mark. *)
Local Abbreviation bang := (Lit (String "!" l) :: r).

Lemma exec_here_bang_other (s : string) :
  match s with String "!" _ => False | _ => True end -> exec_here bang s = None.
Proof.
  destruct s as [|c s]; [reflexivity |]. intros H. cbn [exec_here strip_prefix].
  destruct (Ascii.eqb_spec "!" c) as [<-|Hne]; [now elim H | reflexivity].
Qed.

Lemma replace_go_without_bang (pre s before : string) :
  contains "!" pre = false ->
  replace_go bang f before (pre +:+ s) 0
  = pre +:+ replace_go bang f (before +:+ pre) s 0.
Proof.
  revert before; induction pre as [|c pre IH]; intros before Hpre.
  - now rewrite !append_nil_l, append_nil_r.
  - simpl in Hpre. apply orb_false_elim in Hpre as [Hc Hpre].
    rewrite !append_cons. cbn [replace_go].
    rewrite exec_here_bang_other.
    + now rewrite IH, append_snoc.
    + destruct (Ascii.eqb_spec c "!") as [->|Hne]; [discriminate Hc |].
      destruct c as [[] [] [] [] [] [] [] []]; try exact I. now elim Hne.
Qed.

Lemma replace_go_text_without_bang (s before : string) :
  contains "!" s = false -> replace_go bang f before s 0 = s.
Proof.
  intros Hs. rewrite <- (append_nil_r s) at 1.
  rewrite replace_go_without_bang by exact Hs.
  cbn [replace_go]. rewrite exec_here_bang_other by exact I. apply append_nil_r.
Qed.

Lemma replace_go_skip (a b before : string) :
  replace_go bang f before (a +:+ b) (String.length a)
  = replace_go bang f (before +:+ a) b 0.
Proof.
  revert before; induction a as [|c a IH]; intros before.
  - now rewrite append_nil_l, append_nil_r.
  - rewrite append_cons. cbn [replace_go String.length]. now rewrite IH, append_snoc.
Qed.

Lemma replace_go_match (c : ascii) (s before : string) (marks : list string)
    (k : nat) :
  exec_here bang (String c s) = Some marks ->
  String.length (String c s) - String.length (match_rest marks) = S k ->
  replace_go bang f before (String c s) 0
  = f (consumed (String c s) (match_rest marks)) before (match_rest marks)
    +:+ replace_go bang f (before +:+ String c "") s k.
Proof.
  intros Hexec Hlen. cbn [replace_go]. rewrite Hexec. cbv zeta. now rewrite Hlen.
Qed.

End ReferenceRewriting.

Section References.

Variable svc : Services.
Variables pdfBaseName finalImagesPath : string.

Lemma rewriteImage_without_bang (md : string) (imgObj : Image) :
  contains "!" md = false -> rewriteImage pdfBaseName finalImagesPath md imgObj = md.
Proof.
  intros Hmd. unfold rewriteImage.
  destruct (is_placeholder (imageBase64 imgObj)); [reflexivity |].
  unfold replaceAll, replaceAllBy, imageReference.
  now apply replace_go_text_without_bang.
Qed.

Lemma pageMarkdown_without_bang (page : Page) :
  contains "!" (default "" (markdown page)) = false ->
  pageMarkdown pdfBaseName finalImagesPath page = default "" (markdown page).
Proof.
  intros Hmd. unfold pageMarkdown.
  induction (default [] (images page)) as [|imgObj imgs IH]; [reflexivity |].
  simpl. now rewrite rewriteImage_without_bang.
Qed.

(** X17 (combineMarkdownWithImages): pages whose markdown holds no
    exclamation mark come out as they are, whatever images the response
    lists for them and whatever their ids: the result is the text of the
    pages in sorted order, each followed by a blank line. *)
Theorem X17_pages_without_references_are_kept
    (ocrResult : nat) (ps : list Page) (w : World) :
  heap w !! ocrResult = Some {| pages := Some ps |} ->
  (forall page, page ∈ ps -> contains "!" (default "" (markdown page)) = false) ->
  fst (combineMarkdownWithImages svc ocrResult pdfBaseName finalImagesPath w)
  = Ok (fold_left (fun acc page => acc +:+ default "" (markdown page) +:+ blank_line)
          (sort_pages ps) "").
Proof.
  intros Href Hplain. rewrite (combineMarkdownWithImages_value _ _ _ _ ps) by exact Href.
  f_equal. unfold reconciled.
  assert (Hsorted : forall page, page ∈ sort_pages ps ->
            contains "!" (default "" (markdown page)) = false).
  { intros page Hin. apply Hplain. now rewrite <- (sort_pages_perm ps). }
  assert (G : forall l acc,
             (forall page, page ∈ l ->
                contains "!" (default "" (markdown page)) = false) ->
             fold_left (emitPage pdfBaseName finalImagesPath) l acc
             = fold_left
                 (fun acc page => acc +:+ default "" (markdown page) +:+ blank_line)
                 l acc).
  { induction l as [|page l IH]; intros acc Hl; [reflexivity |].
    simpl. unfold emitPage at 2. rewrite pageMarkdown_without_bang by (apply Hl; left).
    apply IH. intros p Hp. apply Hl. now right. }
  now apply G.
Qed.

Lemma greedy_star_run (k : cont) (alt t : string) (res : list string) :
  contains "]" alt = false ->
  k (String "]" t) = Some res ->
  greedy_star not_rbracket k (alt +:+ String "]" t) = Some res.
Proof.
  intros Halt Hk. induction alt as [|c alt IH].
  - rewrite append_nil_l. simpl. exact Hk.
  - simpl in Halt. apply orb_false_elim in Halt as [Hc Halt].
    rewrite append_cons. cbn [greedy_star]. unfold not_rbracket at 1.
    rewrite Hc. cbn [negb]. now rewrite (IH Halt).
Qed.

Lemma lazy_star_here (p : ascii -> bool) (k : cont) (s : string) (res : list string) :
  k s = Some res -> lazy_star p k s = Some res.
Proof. intros H. destruct s; simpl; now rewrite H. Qed.

Lemma lazy_at_here (p : string -> bool) (k : cont) (s : string) (res : list string) :
  k s = Some res -> lazy_at p k s = Some res.
Proof. intros H. destruct s; simpl; now rewrite H. Qed.

(** The pattern of an id matches a reference to that id, up to its closing
    parenthesis. *)
Lemma exec_here_reference (alt originalId post : string) :
  contains "]" alt = false ->
  exec_here
    [Lit "!["; Greedy not_rbracket; Lit "]("; LazyAt dot; Lit originalId; LazyAt dot;
     Lit ")"]
    ("![" +:+ alt +:+ "](" +:+ originalId +:+ ")" +:+ post)
  = Some [post].
Proof.
  intros Halt. cbn [exec_here]. rewrite strip_prefix_append.
  change ("](" +:+ originalId +:+ ")" +:+ post)
    with (String "]" ("(" +:+ originalId +:+ ")" +:+ post)).
  apply greedy_star_run; [exact Halt |].
  change (String "]" ("(" +:+ originalId +:+ ")" +:+ post))
    with ("](" +:+ originalId +:+ ")" +:+ post).
  cbn [exec_here]. rewrite strip_prefix_append.
  apply lazy_at_here. cbn [exec_here]. rewrite strip_prefix_append.
  apply lazy_at_here. cbn [exec_here]. now rewrite strip_prefix_append.
Qed.

(** X18 (combineMarkdownWithImages, lines 316-322): a reference
    [![alt](id)] to an image that is not skipped is replaced by the link to
    the image file, whatever characters the id holds (the characters that
    are special in a pattern included), and the text around the reference
    is kept: for a text with no exclamation mark before and after the
    reference, an alternative text without a closing bracket and an image
    path without a dollar sign, the result is the text before, the link
    [![[path]]] with forward slashes, and the text after. *)
Theorem X18_reference_is_rewritten
    (before alt after : string) (imgObj : Image) (w : World) :
  is_placeholder (imageBase64 imgObj) = false ->
  contains "!" before = false ->
  contains "]" alt = false ->
  contains "!" after = false ->
  contains "$" (imageFilePathOf pdfBaseName finalImagesPath (id imgObj)) = false ->
  fst (combineImage svc pdfBaseName finalImagesPath
         (before +:+ "![" +:+ alt +:+ "](" +:+ id imgObj +:+ ")" +:+ after) imgObj w)
  = Ok (before +:+ "![["
        +:+ slashed (imageFilePathOf pdfBaseName finalImagesPath (id imgObj))
        +:+ "]]" +:+ after).
Proof.
  intros Hpayload Hbefore Halt Hafter Hdollar.
  rewrite combineImage_value. f_equal. unfold rewriteImage. rewrite Hpayload.
  rewrite imageReference_literal. unfold imageLink. rewrite forwardSlashes_slashed.
  set (link := "![[" +:+ slashed (imageFilePathOf pdfBaseName finalImagesPath (id imgObj))
               +:+ "]]").
  assert (Hlink : contains "$" link = false).
  { subst link. rewrite !contains_append, slashed_dollar, Hdollar. reflexivity. }
  rewrite (replaceAll_plain _ _ _ Hlink). unfold replaceAllBy.
  rewrite replace_go_without_bang by exact Hbefore.
  set (tail := "[" +:+ alt +:+ "](" +:+ id imgObj +:+ ")").
  assert (Hshape : "![" +:+ alt +:+ "](" +:+ id imgObj +:+ ")" +:+ after
                   = String "!" (tail +:+ after)).
  { subst tail. now rewrite !append_assoc. }
  pose proof (exec_here_reference alt (id imgObj) after Halt) as Hexec.
  rewrite Hshape in Hexec |- *.
  rewrite (replace_go_match _ _ _ _ _ _ [after] (String.length tail) Hexec).
  - cbn [match_rest List.last]. rewrite replace_go_skip.
    rewrite replace_go_text_without_bang by exact Hafter.
    subst link. now rewrite !append_assoc.
  - cbn [match_rest List.last String.length]. rewrite length_append. lia.
Qed.

End References.

Lemma X17_pages_without_references_are_kept_witness :
  fst (combineMarkdownWithImages (Examples.services {| pages := None |} None None) 0
         "doc" "imgs"
         (Examples.world_with_pages
            [Examples.page_B
               (Some [ {| id := "img-0.jpeg";
                          imageBase64 := Some Examples.jpeg_payload |} ]);
             Examples.tie_first]))
  = Ok ("A" +:+ blank_line +:+ "B" +:+ blank_line).
Proof.
  apply (X17_pages_without_references_are_kept
           (Examples.services {| pages := None |} None None) "doc" "imgs" 0
           [Examples.page_B
              (Some [ {| id := "img-0.jpeg";
                         imageBase64 := Some Examples.jpeg_payload |} ]);
            Examples.tie_first]).
  - reflexivity.
  - intros page Hpage.
    apply elem_of_cons in Hpage as [->|Hpage]; [reflexivity |].
    apply elem_of_cons in Hpage as [->|Hpage]; [reflexivity |].
    now apply elem_of_nil in Hpage.
Defined.

Lemma X18_reference_is_rewritten_witness :
  fst (combineImage (Examples.services {| pages := None |} None None) "doc" "imgs"
         "See ![fig. 1](img(0).jpeg)."
         {| id := "img(0).jpeg"; imageBase64 := Some Examples.jpeg_payload |}
         (Examples.world_with_pages []))
  = Ok "See ![[imgs/doc_img(0).jpeg]].".
Proof.
  apply (X18_reference_is_rewritten
           (Examples.services {| pages := None |} None None) "doc" "imgs"
           "See " "fig. 1" "."
           {| id := "img(0).jpeg"; imageBase64 := Some Examples.jpeg_payload |}
           (Examples.world_with_pages []));
    reflexivity.
Defined.

Section Payloads.

Variable svc : Services.

Lemma takeS_append (a b : string) : takeS (String.length a) (a +:+ b) = a.
Proof.
  induction a as [|c a IH]; [now destruct b |].
  rewrite append_cons. simpl. now rewrite IH.
Qed.

(** An ASCII character that is no line terminator is in the class of [.]. *)
Lemma dot_ascii (c : ascii) (s : string) :
  is_line_terminator c = false -> nat_of_ascii c < 128 -> dot (String c s) = true.
Proof.
  intros Hc Hascii. unfold dot, line_end. rewrite Hc. cbn [orb negb].
  destruct s as [|c2 [|c3 s]]; try reflexivity.
  destruct (Ascii.eqb_spec c (byte 226)) as [->|]; [| reflexivity].
  vm_compute in Hascii. lia.
Qed.

Lemma greedy_at_line (k : cont) (body rest : string) (res : list string) :
  (forall c, contains c body = true ->
             is_line_terminator c = false /\ nat_of_ascii c < 128) ->
  match rest with String c _ => is_line_terminator c = true | EmptyString => True end ->
  k rest = Some res ->
  greedy_at dot k (body +:+ rest) = Some res.
Proof.
  intros Hbody Hrest Hk. induction body as [|c body IH].
  - rewrite append_nil_l. destruct rest as [|c t]; simpl; [exact Hk |].
    unfold dot, line_end. now rewrite Hrest.
  - rewrite append_cons. cbn [greedy_at].
    destruct (Hbody c) as [Hc Hascii]; [simpl; now rewrite Ascii.eqb_refl |].
    rewrite (dot_ascii _ _ Hc Hascii).
    rewrite IH; [reflexivity |].
    intros x Hx. apply Hbody. simpl. rewrite Hx. apply orb_true_r.
Qed.

(** X19 (saveBase64Image): of a payload that starts with the JPEG data URI
    prefix, the text up to the end of the first line is decoded and written
    to the image path, as one binary write: what follows a line terminator
    is dropped without a message. *)
Theorem X19_payload_is_read_up_to_line_end
    (first : ascii) (body rest filePath : string) (w : World) :
  (forall c, contains c (String first body) = true ->
             is_line_terminator c = false /\ nat_of_ascii c < 128) ->
  match rest with String c _ => is_line_terminator c = true | EmptyString => True end ->
  let data := decodeBase64 svc (String first body) in
  saveBase64Image svc ("data:image/jpeg;base64," +:+ String first body +:+ rest)
    filePath w
  = (Ok tt,
     {| vault := <[filePath := File data]>
                   (with_folders (ancestors filePath) (vault w));
        heap := heap w;
        log := log w ++ [WriteBinary filePath data] |}).
Proof.
  intros Hbody Hrest data.
  assert (Hexec : exec_here jpegDataUri
                    ("data:image/jpeg;base64," +:+ String first body +:+ rest)
                  = Some [String first body +:+ rest; rest; rest]).
  { unfold jpegDataUri. cbn [exec_here]. rewrite strip_prefix_append.
    rewrite append_cons. cbn [exec_here option_map].
    destruct (Hbody first) as [Hc Hascii]; [simpl; now rewrite Ascii.eqb_refl |].
    rewrite (dot_ascii _ _ Hc Hascii).
    rewrite (greedy_at_line _ body rest [rest; rest]); [reflexivity | | exact Hrest |].
    - intros c Hc'. apply Hbody. simpl. rewrite Hc'. apply orb_true_r.
    - cbn [exec_here option_map]. reflexivity. }
  rewrite saveBase64Image_run, Hexec. cbn [group1]. unfold consumed.
  rewrite length_append, Nat.add_sub, takeS_append. reflexivity.
Qed.

End Payloads.

Lemma X19_payload_is_read_up_to_line_end_witness :
  saveBase64Image (Examples.services {| pages := None |} None None)
    ("data:image/jpeg;base64," +:+ "AAAA" +:+ String "010" "BBBB")
    "imgs/doc_img-0.jpeg" (Examples.world_with_pages [])
  = (Ok tt,
     {| vault := <["imgs/doc_img-0.jpeg" := File "AAAA"]> (<["imgs" := Folder]> ∅);
        heap := [ {| pages := Some [] |} ];
        log := [WriteBinary "imgs/doc_img-0.jpeg" "AAAA"] |}).
Proof.
  apply (X19_payload_is_read_up_to_line_end
           (Examples.services {| pages := None |} None None)
           "A" "AAA" (String "010" "BBBB") "imgs/doc_img-0.jpeg"
           (Examples.world_with_pages [])).
  - intros c Hc. simpl in Hc. rewrite !orb_false_r, !orb_diag in Hc.
    apply Ascii.eqb_eq in Hc. subst c.
    split; [reflexivity | apply Nat.ltb_lt; reflexivity].
  - reflexivity.
Defined.

Section SuccessfulIngestion.

Lemma length_takeS (n : nat) (s : string) : String.length (takeS n s) <= String.length s.
Proof.
  revert n; induction s as [|c s IH]; intros [|n]; simpl; try lia.
  specialize (IH n). lia.
Qed.

Lemma length_cleanFolderPath (s : string) :
  String.length (cleanFolderPath s) <= String.length s.
Proof.
  unfold cleanFolderPath.
  assert (Ht : String.length (trim s) <= String.length s).
  { unfold trim. pose proof (length_trimEnd (trimStart s)).
    pose proof (length_trimStart s). lia. }
  revert Ht. generalize (trim s) as t. intros t Ht.
  set (t1 := match t with String "/" r => r | _ => t end).
  assert (Ht1 : String.length t1 <= String.length t).
  { subst t1. destruct t as [|c r]; [simpl; lia |].
    destruct c as [[] [] [] [] [] [] [] []]; simpl; lia. }
  destruct (endsWith t1 "/"); [| lia].
  pose proof (length_takeS (String.length t1 - 1) t1). lia.
Qed.

Variable svc : Services.
Variable settings : PDFToMarkdownSettings.

Lemma target_is_no_markdown_folder (base : string) :
  String.eqb (trim (markdownOutputFolder settings)) "" = false ->
  ~ at_or_above (cleanFolderPath (trim (markdownOutputFolder settings)))
      (targetMdPathOf settings base).
Proof.
  intros Hne Habove.
  assert (Hlen : String.length (targetMdPathOf settings base)
                 <= String.length
                      (cleanFolderPath (trim (markdownOutputFolder settings)))).
  { destruct Habove as [-> | Hin]; [lia |]. apply ancestors_shorter in Hin. lia. }
  revert Hlen. unfold targetMdPathOf. rewrite Hne, !length_append.
  pose proof (length_cleanFolderPath (trim (markdownOutputFolder settings))).
  simpl. lia.
Qed.

Lemma createFolderIfNotExists_returns (folderPath : string) (w : World) :
  exists w', createFolderIfNotExists folderPath w = (Ok tt, w')
             /\ heap w' = heap w
             /\ forall q, vault w !! q = None ->
                          ~ at_or_above (cleanFolderPath folderPath) q ->
                          vault w' !! q = None.
Proof.
  unfold createFolderIfNotExists.
  destruct (String.eqb (cleanFolderPath folderPath) ""); [now exists w |].
  unfold adapter_exists, createFolder, get_world, set_vault, emit, ret, bind.
  destruct (vault w !! cleanFolderPath folderPath) as [entry|] eqn:Hlook.
  - rewrite bool_decide_eq_true_2 by eauto. now exists w.
  - rewrite bool_decide_eq_false_2 by (intros [? ?]; discriminate).
    rewrite Hlook. eexists. split; [reflexivity |]. split; [reflexivity |].
    intros q Hfree Hq. cbn [vault]. rewrite lookup_insert_ne.
    + apply with_folders_None; [exact Hfree |]. intros Hin. apply Hq. now right.
    + intros E. apply Hq. now left.
Qed.

Lemma alloc_run (o : OcrResult) (w : World) :
  alloc o w
  = (Ok (length (heap w)),
     {| vault := vault w; heap := heap w ++ [o]; log := log w |}).
Proof. reflexivity. Qed.

Lemma combineMarkdownWithImages_returns (ocrResult : nat) (o : OcrResult)
    (pdfBaseName finalImagesPath : string) (w : World) :
  heap w !! ocrResult = Some o ->
  fst (combineMarkdownWithImages svc ocrResult pdfBaseName finalImagesPath w)
  = Ok (markdownOf pdfBaseName finalImagesPath o).
Proof.
  intros Href. destruct o as [[ps|]].
  - now apply combineMarkdownWithImages_value.
  - unfold combineMarkdownWithImages. rewrite bind_get_world, Href. reflexivity.
Qed.


End SuccessfulIngestion.


(** Without the conditions on folders the ingestion can fail at its last
    step: with the images folder [out/doc.md/imgs], creating it creates the
    folder [out/doc.md] above it, which is the destination of the markdown. *)
Lemma images_folder_below_destination :
  let settings := {| markdownOutputFolder := "out";
                     imagesOutputFolder := "out/doc.md";
                     imagesFolderName := "imgs";
                     mistralApiKey := "key";
                     parallelProcessingLimit := 3;
                     summaryPrompts := [] |} in
  let run := processPDFInternal (Examples.services {| pages := Some [] |} None None)
               settings "%PDF" "doc" "doc.pdf" Cases.world_with_pdf in
  targetMdPathOf settings "doc" = "out/doc.md"
  /\ vault Cases.world_with_pdf !! "out/doc.md" = None
  /\ cleanFolderPath (finalImagesPathOf settings) = "out/doc.md/imgs"
  /\ fst run = Throw (Error "File already exists.")
  /\ vault (snd run) !! "out/doc.md" = Some Folder.
Proof. vm_compute. repeat split. Qed.

Section MarkerRecognition.

Local Abbreviation marker_end := [Mark; Spaces; Lit "-->"].

Lemma ws2_tail (c1 c2 : ascii) : ws2 c1 c2 = true -> starts_char c2 = false.
Proof.
  unfold ws2. intros H. apply andb_prop in H as [_ H].
  apply Ascii.eqb_eq in H. now subst c2.
Qed.

Lemma ws3_tail (c1 c2 c3 : ascii) :
  ws3 c1 c2 c3 = true -> starts_char c2 = false /\ starts_char c3 = false.
Proof.
  unfold ws3. intros H.
  repeat rewrite ?orb_true_iff, ?andb_true_iff in H.
  rewrite ?Ascii.eqb_eq, ?Nat.leb_le in H.
  intuition (subst; try reflexivity).
  unfold starts_char. apply negb_false_iff, andb_true_intro.
  split; [apply Nat.leb_le | apply Nat.ltb_lt]; lia.
Qed.

Lemma ws1_head (c : ascii) : ws1 c = true -> starts_char c = true.
Proof. destruct c as [[] [] [] [] [] [] [] []]; try discriminate; reflexivity. Qed.

Lemma ws3_head (c1 c2 c3 : ascii) : ws3 c1 c2 c3 = true -> starts_char c1 = true.
Proof.
  unfold ws3. intros H.
  repeat rewrite ?orb_true_iff, ?andb_true_iff in H.
  rewrite ?Ascii.eqb_eq in H.
  intuition (subst; reflexivity).
Qed.

(** White space begins with a byte that begins a character. *)
Lemma white_space_at_char (s s' : string) : white_space s = Some s' -> at_char s.
Proof.
  destruct s as [|c1 [|c2 [|c3 s3]]]; cbn [white_space at_char]; try discriminate.
  - destruct (ws1 c1) eqn:E1; [intros _; now apply ws1_head | discriminate].
  - destruct (ws1 c1) eqn:E1; [intros _; now apply ws1_head |].
    destruct (ws2 c1 c2) eqn:E2; [| discriminate]. intros _.
    unfold ws2 in E2. apply andb_prop in E2 as [E2 _].
    apply Ascii.eqb_eq in E2. now subst c1.
  - destruct (ws1 c1) eqn:E1; [intros _; now apply ws1_head |].
    destruct (ws2 c1 c2) eqn:E2.
    + intros _. unfold ws2 in E2. apply andb_prop in E2 as [E2 _].
      apply Ascii.eqb_eq in E2. now subst c1.
    + destruct (ws3 c1 c2 c3) eqn:E3; [| discriminate]. intros _.
      now apply (ws3_head c1 c2 c3).
Qed.

(** A white space character does not reach from one text into the next
    when the next begins a character. *)
Lemma white_space_app_inv (a b s' : string) :
  a <> "" -> at_char b ->
  white_space (a +:+ b) = Some s' ->
  exists a', white_space a = Some a' /\ s' = a' +:+ b.
Proof.
  intros Ha Hb.
  destruct a as [|c1 [|c2 [|c3 a3]]]; [now elim Ha | | |];
    rewrite ?append_cons, ?append_nil_l; cbn [white_space].
  - destruct (ws1 c1); [intros [= <-]; now exists "" |].
    destruct b as [|d1 [|d2 b2]]; try discriminate.
    + destruct (ws2 c1 d1) eqn:E2; [| discriminate].
      apply ws2_tail in E2. cbn [at_char] in Hb. congruence.
    + destruct (ws2 c1 d1) eqn:E2.
      { apply ws2_tail in E2. cbn [at_char] in Hb. congruence. }
      destruct (ws3 c1 d1 d2) eqn:E3; [| discriminate].
      apply ws3_tail in E3 as [E3 _]. cbn [at_char] in Hb. congruence.
  - destruct (ws1 c1); [intros [= <-]; now exists (String c2 "") |].
    destruct (ws2 c1 c2); [intros [= <-]; now exists "" |].
    destruct b as [|d1 b1]; [discriminate |].
    destruct (ws3 c1 c2 d1) eqn:E3; [| discriminate].
    apply ws3_tail in E3 as [_ E3]. cbn [at_char] in Hb. congruence.
  - destruct (ws1 c1); [intros [= <-]; now exists (String c2 (String c3 a3)) |].
    destruct (ws2 c1 c2); [intros [= <-]; now exists (String c3 a3) |].
    destruct (ws3 c1 c2 c3); [| discriminate]. intros [= <-]. now exists a3.
Qed.

(** [\s*] takes a whole run of white space when it can go on after it. *)
Lemma greedy_ws_all (k : cont) (run rest : string) (res : list string) :
  all_ws run = true -> white_space rest = None -> k rest = Some res ->
  greedy_ws k (run +:+ rest) = Some res.
Proof.
  intros Hrun Hrest Hk. induction run as [run IH] using string_length_ind.
  rewrite greedy_ws_eq. destruct run as [|c run].
  - rewrite append_nil_l, Hrest. exact Hk.
  - rewrite all_ws_eq in Hrun.
    destruct (white_space (String c run)) as [run'|] eqn:E; [| discriminate Hrun].
    rewrite (white_space_app_Some _ _ rest E).
    rewrite IH; [reflexivity | now apply white_space_shorter | exact Hrun].
Qed.

(** Before the end of a key without hyphen that [trimEnd] leaves as it is,
    the end of a marker is not found. *)
Lemma marker_end_not_in_key (k2 rest : string) :
  all_ws k2 = false -> contains "-" k2 = false -> at_char rest ->
  exec_here marker_end (k2 +:+ rest) = None.
Proof.
  intros Hws Hhyphen Hrest.
  assert (Hnone : greedy_ws (exec_here [Lit "-->"]) (k2 +:+ rest) = None);
    [| change (option_map (cons (k2 +:+ rest))
                 (greedy_ws (exec_here [Lit "-->"]) (k2 +:+ rest)) = None);
       now rewrite Hnone].
  induction k2 as [k2 IH] using string_length_ind.
  destruct k2 as [|c t]; [discriminate Hws |].
  assert (Hhere : exec_here [Lit "-->"] (String c t +:+ rest) = None).
  { rewrite append_cons. cbn [exec_here strip_prefix].
    destruct (Ascii.eqb_spec "-" c) as [<-|_]; [| reflexivity].
    simpl in Hhyphen. discriminate Hhyphen. }
  rewrite greedy_ws_eq, Hhere.
  destruct (white_space (String c t +:+ rest)) as [s'|] eqn:E; [| reflexivity].
  apply white_space_app_inv in E as (k2' & E & ->); [| discriminate | exact Hrest].
  rewrite IH; [reflexivity | now apply white_space_shorter | |].
  - rewrite all_ws_eq, E in Hws. exact Hws.
  - apply white_space_split in E as (d & w & E). rewrite E in Hhyphen.
    rewrite contains_append in Hhyphen. now apply orb_false_elim in Hhyphen as [_ H].
Qed.

Lemma lazy_star_key (k rest : string) (res : list string) :
  trimEnd k = k -> contains "-" k = false -> at_char rest ->
  exec_here marker_end rest = Some res ->
  lazy_star any_char (exec_here marker_end) (k +:+ rest) = Some res.
Proof.
  intros Hend Hhyphen Hrest Hres.
  assert (G : forall k2 k1, k = k1 +:+ k2 ->
                lazy_star any_char (exec_here marker_end) (k2 +:+ rest) = Some res).
  { induction k2 as [|c k2 IH]; intros k1 E.
    - rewrite append_nil_l. now apply lazy_star_here.
    - rewrite append_cons. cbn [lazy_star]. rewrite <- append_cons.
      rewrite marker_end_not_in_key; [| | | exact Hrest].
      + cbn [any_char append]. apply (IH (k1 +:+ String c "")).
        now rewrite E, append_assoc.
      + now apply (trimEnd_fixed k Hend k1).
      + rewrite E, contains_append in Hhyphen.
        now apply orb_false_elim in Hhyphen as [_ H]. }
  now apply (G k "").
Qed.

Lemma exec_here_marker (sp1 k sp2 post : string) :
  all_ws sp1 = true -> all_ws sp2 = true ->
  k <> "" -> trim k = k -> contains "-" k = false ->
  exec_here commentRegex ("<!--" +:+ sp1 +:+ k +:+ sp2 +:+ "-->" +:+ post)
  = Some [k +:+ sp2 +:+ "-->" +:+ post; sp2 +:+ "-->" +:+ post; post].
Proof.
  intros Hsp1 Hsp2 Hne Htrim Hhyphen.
  apply trim_fixed in Htrim as [Hstart Hend].
  assert (Hrest : at_char (sp2 +:+ "-->" +:+ post)).
  { destruct sp2 as [|c sp2]; [reflexivity |].
    rewrite all_ws_eq in Hsp2.
    destruct (white_space (String c sp2)) as [t|] eqn:E; [| discriminate Hsp2].
    now apply white_space_at_char in E. }
  unfold commentRegex. cbn [exec_here]. rewrite strip_prefix_append.
  apply greedy_ws_all; [exact Hsp1 | |].
  - destruct (white_space (k +:+ sp2 +:+ "-->" +:+ post)) as [s'|] eqn:E;
      [| reflexivity].
    apply white_space_app_inv in E as (k' & E & _); [congruence | exact Hne | exact Hrest].
  - change (exec_here (Mark :: Lazy any_char :: marker_end)
              (k +:+ sp2 +:+ "-->" +:+ post)
            = Some [k +:+ sp2 +:+ "-->" +:+ post; sp2 +:+ "-->" +:+ post; post]).
    cbn [exec_here].
    change (option_map (cons (k +:+ sp2 +:+ "-->" +:+ post))
              (lazy_star any_char (exec_here marker_end) (k +:+ sp2 +:+ "-->" +:+ post))
            = Some [k +:+ sp2 +:+ "-->" +:+ post; sp2 +:+ "-->" +:+ post; post]).
    rewrite (lazy_star_key k _ [sp2 +:+ "-->" +:+ post; post] Hend Hhyphen Hrest);
      [reflexivity |].
    cbn [exec_here].
    rewrite (greedy_ws_all _ sp2 _ [post] Hsp2); [reflexivity | reflexivity |].
    cbn [exec_here]. now rewrite strip_prefix_append.
Qed.

Lemma matchAll_go_before_marker (pre s : string) :
  contains "<" pre = false ->
  matchAll_go commentRegex (pre +:+ s) 0 = matchAll_go commentRegex s 0.
Proof.
  intros Hpre. induction pre as [|c pre IH]; [now rewrite append_nil_l |].
  simpl in Hpre. apply orb_false_elim in Hpre as [Hc Hpre].
  rewrite append_cons. cbn [matchAll_go].
  assert (Hnone : exec_here commentRegex (String c (pre +:+ s)) = None).
  { unfold commentRegex. cbn [exec_here strip_prefix].
    destruct (Ascii.eqb_spec "<" c) as [<-|_]; [discriminate Hc | reflexivity]. }
  rewrite Hnone. now apply IH.
Qed.

Variable settings : PDFToMarkdownSettings.

(** X21 (processPdfAndSummarize, lines 431-459): a marker is recognized
    with whatever white space it is written, in the whole set of white
    space characters of the language. For a configured key without hyphen
    that trimming leaves as it is, a note whose first [<] opens the comment
    of that key, with any run of white space characters on either side of
    the key, has the key among the keys to process, and the match to replace
    for it is that comment, from [<!--] to [-->]. *)
Theorem X21_marker_is_recognized
    (item : SummaryPromptItem) (before sp1 sp2 after : string) :
  let k := keyComment item in
  let marker := "<!--" +:+ sp1 +:+ k +:+ sp2 +:+ "-->" in
  item ∈ summaryPrompts settings ->
  k <> "" -> k <> "__proto__" ->
  trim k = k -> contains "-" k = false ->
  all_ws sp1 = true -> all_ws sp2 = true ->
  contains "<" before = false ->
  k ∈ keysToProcessOf settings (before +:+ marker +:+ after)
  /\ {| fullMatch := marker; key := k |}
     ∈ validMatchesOf settings (before +:+ marker +:+ after).
Proof.
  intros k marker Hitem Hne Hproto Htrim Hhyphen Hsp1 Hsp2 Hbefore.
  set (marks := [k +:+ sp2 +:+ "-->" +:+ after; sp2 +:+ "-->" +:+ after; after]).
  assert (Hall : exists others,
             allMatchesOf (before +:+ marker +:+ after) = (marker, marks) :: others).
  { unfold allMatchesOf, matchAll. rewrite matchAll_go_before_marker by exact Hbefore.
    assert (Hshape : marker +:+ after
                     = "<!--" +:+ sp1 +:+ k +:+ sp2 +:+ "-->" +:+ after).
    { subst marker. now rewrite !append_assoc. }
    pose proof (exec_here_marker sp1 k sp2 after Hsp1 Hsp2 Hne Htrim Hhyphen) as Hexec.
    rewrite <- Hshape in Hexec.
    destruct (marker +:+ after) as [|c s] eqn:Hs; [discriminate Hexec |].
    cbn [matchAll_go]. rewrite Hexec. cbn [match_rest List.last marks].
    eexists. f_equal. f_equal. rewrite <- Hs, length_append, Nat.add_sub.
    apply takeS_append. }
  destruct Hall as [others Hall].
  assert (Hkey : matchKey (marker, marks) = k).
  { unfold matchKey. cbn [snd marks group1]. unfold consumed.
    replace (k +:+ sp2 +:+ "-->" +:+ after)
      with (k +:+ (sp2 +:+ "-->" +:+ after)) by reflexivity.
    rewrite length_append, Nat.add_sub, takeS_append. exact Htrim. }
  assert (Hprocess : k ∈ keysToProcessOf settings (before +:+ marker +:+ after)).
  { unfold keysToProcessOf. apply list_elem_of_filter. split.
    - unfold keysInNoteOf. apply elem_of_list_to_set. rewrite Hall.
      cbn [map]. rewrite Hkey. left.
    - apply configured_keys. split; [exact Hproto | now exists item]. }
  split; [exact Hprocess |].
  unfold validMatchesOf. apply list_elem_of_omap. exists k.
  split; [exact Hprocess |].
  rewrite Hall. cbn [find]. rewrite Hkey, String.eqb_refl. cbn [fmap option_fmap option_map fst].
  now rewrite Hkey.
Qed.

End MarkerRecognition.

Lemma X21_marker_is_recognized_witness :
  "summary"
  ∈ keysToProcessOf (Examples.settings_with "out" Examples.summary_prompts)
      ("Intro " +:+ ("<!--" +:+ Examples.ideographic_space +:+ "summary"
                     +:+ (Examples.no_break_space +:+ " ") +:+ "-->") +:+ " end").
Proof.
  apply (X21_marker_is_recognized
           (Examples.settings_with "out" Examples.summary_prompts)
           {| keyComment := "summary"; prompt := "Summarize." |}
           "Intro " Examples.ideographic_space (Examples.no_break_space +:+ " ") " end").
  - left.
  - discriminate.
  - discriminate.
  - reflexivity.
  - reflexivity.
  - reflexivity.
  - reflexivity.
  - reflexivity.
Defined.
